(** * Weak handles: cross-thread access to a thread-affine weak pointer

    A shallow embedding of [browser_sync::WeakHandle<T>] and
    [browser_sync::internal::WeakHandleCore<T>] (weak_handle.h).

    The program is concurrent; it is modelled as an interleaving of atomic
    operations, each performed by one thread on a shared [World].  Every
    operation is a computation in a small state-and-failure monad: it either
    returns a value and a new world, or stops the process ([Fatal], a failed
    [CHECK]), or leaves the defined behaviour of C++ ([Undef], a use of freed
    memory).  The world carries a trace that records each touch of a
    heap-allocated weak pointer and each call of a target member, with the
    thread on which it happened. *)

From stdpp Require Import gmap list strings.

(* stdpp's [naive_solver] clears hypotheses by name and warns when one is
   already gone. *)
#[local] Set Warnings "-clear-no-such-hyp".

(** ** Data *)

Abbreviation ThreadId := nat (only parsing).
Abbreviation CoreId := nat (only parsing).
Abbreviation PtrAddr := nat (only parsing).
Abbreviation TargetId := nat (only parsing).
Abbreviation HandleId := nat (only parsing).

(** [void (U::*fn)(A1, ..., An)]: a member selector, and the values bound to
    its parameters. *)
Definition Member := string.
Definition Arg := Z.

(** Modelled from the spec: [base::WeakPtr<T>] (base/memory/weak_ptr.h is not
    part of the sources).  Section 6: it wraps a reference and resolves to a
    live pointer or to an empty result.  A weak pointer names its target, or
    nothing; whether the target is alive is a fact of the world. *)
Record WeakPtr := { wp_target : option TargetId }.

#[global] Instance WeakPtr_eq_dec : EqDecision WeakPtr.
Proof. solve_decision. Defined.

(** [WeakHandleCore<T>]: the owner thread's message loop
    ([WeakHandleCoreBase::message_loop_proxy_]), the address of the weak
    pointer made by [new base::WeakPtr<T>(ptr)], and the counter of
    [base::RefCountedThreadSafe]. *)
Record WeakHandleCore := {
  message_loop_proxy_ : ThreadId;
  ptr_ : PtrAddr;
  ref_count : nat
}.

(** [WeakHandle<T>]: a [scoped_refptr] to a core, or NULL. *)
Record WeakHandle := { core_ : option CoreId }.

#[global] Instance WeakHandle_eq_dec : EqDecision WeakHandle.
Proof. solve_decision. Defined.

(** The overloads of [Call]: one for each number of arguments. *)
Inductive Invocation :=
| Invoke0 (fn : Member)
| Invoke1 (fn : Member) (a1 : Arg)
| Invoke2 (fn : Member) (a1 a2 : Arg)
| Invoke3 (fn : Member) (a1 a2 a3 : Arg)
| Invoke4 (fn : Member) (a1 a2 a3 a4 : Arg).

#[global] Instance Invocation_eq_dec : EqDecision Invocation.
Proof. solve_decision. Defined.

Definition arity (inv : Invocation) : nat :=
  match inv with
  | Invoke0 _ => 0
  | Invoke1 _ _ => 1
  | Invoke2 _ _ _ => 2
  | Invoke3 _ _ _ _ => 3
  | Invoke4 _ _ _ _ _ => 4
  end.

Definition inv_member (inv : Invocation) : Member :=
  match inv with
  | Invoke0 fn | Invoke1 fn _ | Invoke2 fn _ _
  | Invoke3 fn _ _ _ | Invoke4 fn _ _ _ _ => fn
  end.

Definition inv_args (inv : Invocation) : list Arg :=
  match inv with
  | Invoke0 _ => []
  | Invoke1 _ a1 => [a1]
  | Invoke2 _ a1 a2 => [a1; a2]
  | Invoke3 _ a1 a2 a3 => [a1; a2; a3]
  | Invoke4 _ a1 a2 a3 a4 => [a1; a2; a3; a4]
  end.

(** What sits in a thread's task queue: [Bind(&WeakHandleCore::DoCallN, this,
    fn, a1, ..., an)], or the deletion queued by
    [MessageLoopProxy::DeleteSoon]. *)
Inductive Closure :=
| BindDoCall (this : CoreId) (inv : Invocation)
| DeleteTask (ptr : PtrAddr).

#[global] Instance Closure_eq_dec : EqDecision Closure.
Proof. solve_decision. Defined.

Inductive Access := AccNew | AccRead | AccDelete.

#[global] Instance Access_eq_dec : EqDecision Access.
Proof. solve_decision. Defined.

(** The trace: [EvAccess k a t] is a touch of the weak pointer at [a] by
    thread [t]; [EvInvoke t g fn args] is the call [(g->*fn)(args)] executing
    on thread [t]. *)
Inductive Event :=
| EvAccess (k : Access) (a : PtrAddr) (on : ThreadId)
| EvInvoke (on : ThreadId) (g : TargetId) (fn : Member) (args : list Arg).

#[global] Instance Event_eq_dec : EqDecision Event.
Proof. solve_decision. Defined.

(** The shared state.  [ptr_owner] is a ghost record, written once when a
    core allocates its weak pointer and never erased: the owner thread of the
    core that made the weak pointer at each address.  Addresses and core
    identities come from counters and are not reused, so the record and the
    trace stay unambiguous. *)
Record World := {
  cores : gmap CoreId WeakHandleCore;
  weak_ptrs : gmap PtrAddr WeakPtr;
  destroyed : gset TargetId;
  handles : list WeakHandle;
  queues : gmap ThreadId (list Closure);
  next_core : CoreId;
  next_ptr : PtrAddr;
  ptr_owner : gmap PtrAddr ThreadId;
  trace : list Event
}.

Definition init_world : World :=
  {| cores := ∅; weak_ptrs := ∅; destroyed := ∅; handles := [];
     queues := ∅; next_core := 0; next_ptr := 0; ptr_owner := ∅;
     trace := [] |}.

Definition queue (w : World) (t : ThreadId) : list Closure :=
  default [] (queues w !! t).

Definition with_cores (m : gmap CoreId WeakHandleCore) (w : World) : World :=
  {| cores := m; weak_ptrs := weak_ptrs w; destroyed := destroyed w;
     handles := handles w; queues := queues w; next_core := next_core w;
     next_ptr := next_ptr w; ptr_owner := ptr_owner w; trace := trace w |}.

Definition with_weak_ptrs (m : gmap PtrAddr WeakPtr) (w : World) : World :=
  {| cores := cores w; weak_ptrs := m; destroyed := destroyed w;
     handles := handles w; queues := queues w; next_core := next_core w;
     next_ptr := next_ptr w; ptr_owner := ptr_owner w; trace := trace w |}.

Definition with_destroyed (s : gset TargetId) (w : World) : World :=
  {| cores := cores w; weak_ptrs := weak_ptrs w; destroyed := s;
     handles := handles w; queues := queues w; next_core := next_core w;
     next_ptr := next_ptr w; ptr_owner := ptr_owner w; trace := trace w |}.

Definition with_handles (hs : list WeakHandle) (w : World) : World :=
  {| cores := cores w; weak_ptrs := weak_ptrs w; destroyed := destroyed w;
     handles := hs; queues := queues w; next_core := next_core w;
     next_ptr := next_ptr w; ptr_owner := ptr_owner w; trace := trace w |}.

Definition with_queue (t : ThreadId) (q : list Closure) (w : World) : World :=
  {| cores := cores w; weak_ptrs := weak_ptrs w; destroyed := destroyed w;
     handles := handles w; queues := <[t := q]> (queues w);
     next_core := next_core w; next_ptr := next_ptr w;
     ptr_owner := ptr_owner w; trace := trace w |}.

Definition with_event (e : Event) (w : World) : World :=
  {| cores := cores w; weak_ptrs := weak_ptrs w; destroyed := destroyed w;
     handles := handles w; queues := queues w; next_core := next_core w;
     next_ptr := next_ptr w; ptr_owner := ptr_owner w;
     trace := trace w ++ [e] |}.

(** ** The monad of operations *)

Inductive Outcome (A : Type) :=
| Ok (a : A) (w : World)
| Fatal
| Undef.
Arguments Ok {A} a w.
Arguments Fatal {A}.
Arguments Undef {A}.

Definition M (A : Type) : Type := World → Outcome A.

#[global] Instance M_ret : MRet M := λ A a w, Ok a w.

#[global] Instance M_bind : MBind M :=
  λ A B f m w, match m w with
               | Ok a w' => f a w'
               | Fatal => Fatal
               | Undef => Undef
               end.

(** [CHECK(cond)]: the process stops when the condition fails. *)
Definition CHECK (cond : bool) : M unit :=
  λ w, if cond then Ok () w else Fatal.

(** Leaving the defined behaviour of C++. *)
Definition undef {A} : M A := λ _, Undef.

Definition emit (e : Event) : M unit := λ w, Ok () (with_event e w).

(** Dereferencing a pointer to a core; a core that was freed is gone. *)
Definition get_core (c : CoreId) : M WeakHandleCore :=
  λ w, match cores w !! c with
       | Some k => Ok k w
       | None => Undef
       end.

Definition set_core (c : CoreId) (k : WeakHandleCore) : M unit :=
  λ w, Ok () (with_cores (<[c := k]> (cores w)) w).

Definition free_core (c : CoreId) : M unit :=
  λ w, Ok () (with_cores (delete c (cores w)) w).

(** [new WeakHandleCore<T>]: fresh storage for a core. *)
Definition new_core (k : WeakHandleCore) : M CoreId :=
  λ w, let c := next_core w in
       Ok c {| cores := <[c := k]> (cores w);
               weak_ptrs := weak_ptrs w; destroyed := destroyed w;
               handles := handles w; queues := queues w;
               next_core := S c; next_ptr := next_ptr w;
               ptr_owner := ptr_owner w; trace := trace w |}.

(** [new base::WeakPtr<T>(ptr)] on thread [cur], for a core owned by [cur]. *)
Definition new_ptr (cur : ThreadId) (p : WeakPtr) : M PtrAddr :=
  λ w, let a := next_ptr w in
       Ok a {| cores := cores w;
               weak_ptrs := <[a := p]> (weak_ptrs w);
               destroyed := destroyed w; handles := handles w;
               queues := queues w; next_core := next_core w;
               next_ptr := S a;
               ptr_owner := <[a := cur]> (ptr_owner w);
               trace := trace w ++ [EvAccess AccNew a cur] |}.

(** [*ptr] on thread [cur]. *)
Definition read_ptr (cur : ThreadId) (a : PtrAddr) : M WeakPtr :=
  λ w, match weak_ptrs w !! a with
       | Some p => Ok p (with_event (EvAccess AccRead a cur) w)
       | None => Undef
       end.

(** [delete ptr] on thread [cur]. *)
Definition delete_ptr (cur : ThreadId) (a : PtrAddr) : M unit :=
  λ w, match weak_ptrs w !! a with
       | Some _ =>
           Ok () (with_event (EvAccess AccDelete a cur)
                    (with_weak_ptrs (delete a (weak_ptrs w)) w))
       | None => Undef
       end.

(** Modelled from the spec: the liveness test of [base::WeakPtr<T>] (not
    part of the sources).  Section 6: a weak pointer resolves to a live
    pointer or to an empty result; [dead] holds the targets destroyed so
    far. *)
Definition resolve (dead : gset TargetId) (p : WeakPtr) : option TargetId :=
  match wp_target p with
  | Some g => if decide (g ∈ dead) then None else Some g
  | None => None
  end.

(** Modelled from the spec: [base::WeakPtr<T>::get()] (not part of the
    sources), the test above taken in the current world. *)
Definition WeakPtr_get (p : WeakPtr) : M (option TargetId) :=
  λ w, Ok (resolve (destroyed w) p) w.

(** [(target->*fn)(args)] on thread [cur]. *)
Definition call_member (cur : ThreadId) (g : TargetId) (fn : Member)
    (args : list Arg) : M unit :=
  emit (EvInvoke cur g fn args).

(** The destructor of a target: its weak pointers resolve to null from now
    on. *)
Definition destroy_target (g : TargetId) : M unit :=
  λ w, Ok () (with_destroyed ({[g]} ∪ destroyed w) w).

(** Modelled from the spec: [MessageLoopProxy::PostTask]
    (base/message_loop_proxy.h is not part of the sources).  Section 6: post
    a unit of work to a thread; first in, first out. *)
Definition PostTask (t : ThreadId) (f : Closure) : M unit :=
  λ w, Ok () (with_queue t (queue w t ++ [f]) w).

(** Modelled from the spec: [MessageLoopProxy::DeleteSoon] (not part of
    the sources).  Section 6: the deferred deletion of a value on a
    thread. *)
Definition DeleteSoon (t : ThreadId) (a : PtrAddr) : M unit :=
  PostTask t (DeleteTask a).

Module Core.

(** Modelled from the spec: [WeakHandleCoreBase::IsOnOwnerThread]
    (weak_handle.cc is not part of the sources).  Section 4.1: whether the
    calling thread is the owner thread. *)
Definition IsOnOwnerThread (cur : ThreadId) (k : WeakHandleCore) : bool :=
  bool_decide (cur = message_loop_proxy_ k).

(** [WeakHandleCoreBase::DeleteOnOwnerThread] *)
Definition DeleteOnOwnerThread (cur : ThreadId) (k : WeakHandleCore)
    (ptr : PtrAddr) : M unit :=
  if IsOnOwnerThread cur k then delete_ptr cur ptr
  else DeleteSoon (message_loop_proxy_ k) ptr.

(** [WeakHandleCore(const base::WeakPtr<T>& ptr)], run by thread [cur];
    the base class constructor takes the current thread as the owner. *)
Definition new (cur : ThreadId) (ptr : WeakPtr) : M CoreId :=
  a ← new_ptr cur ptr;
  new_core {| message_loop_proxy_ := cur; ptr_ := a; ref_count := 0 |}.

(** [~WeakHandleCore()], after which the core's own memory is freed. *)
Definition destroy (cur : ThreadId) (c : CoreId) : M unit :=
  k ← get_core c;
  DeleteOnOwnerThread cur k (ptr_ k);;
  free_core c.

(** Modelled from the spec: [base::RefCountedThreadSafe::AddRef]
    (base/memory/ref_counted.h is not part of the sources).  Section 3: the
    core counts its holders. *)
Definition AddRef (c : CoreId) : M unit :=
  k ← get_core c;
  set_core c {| message_loop_proxy_ := message_loop_proxy_ k;
                ptr_ := ptr_ k; ref_count := S (ref_count k) |}.

(** Modelled from the spec: [base::RefCountedThreadSafe::Release] (not part
    of the sources).  Section 3: the core is destroyed when its last holder
    releases it, on the thread of that release.  Releasing a core that has
    no holder is outside defined behaviour. *)
Definition Release (cur : ThreadId) (c : CoreId) : M unit :=
  k ← get_core c;
  match ref_count k return M unit with
  | 0 => undef
  | 1 => destroy cur c
  | S n =>
      set_core c {| message_loop_proxy_ := message_loop_proxy_ k;
                    ptr_ := ptr_ k; ref_count := n |}
  end.

(** [WeakHandleCore::Get] *)
Definition Get (cur : ThreadId) (c : CoreId) : M WeakPtr :=
  k ← get_core c;
  CHECK (IsOnOwnerThread cur k);;
  read_ptr cur (ptr_ k).

(** The body shared by [DoCall0] ... [DoCall4]: they differ in the number
    of arguments handed to the member.  The source calls [ptr_->get()]
    for the test and again for the call; both happen within this one
    step, and the result is bound once. *)
Definition DoCallN (cur : ThreadId) (c : CoreId) (fn : Member)
    (args : list Arg) : M unit :=
  k ← get_core c;
  CHECK (IsOnOwnerThread cur k);;
  p ← read_ptr cur (ptr_ k);
  tgt ← WeakPtr_get p;
  match tgt return M unit with
  | None => mret ()
  | Some g => call_member cur g fn args
  end.

Definition DoCall0 cur c (fn : Member) : M unit :=
  DoCallN cur c fn [].
Definition DoCall1 cur c (fn : Member) (a1 : Arg) : M unit :=
  DoCallN cur c fn [a1].
Definition DoCall2 cur c (fn : Member) (a1 a2 : Arg) : M unit :=
  DoCallN cur c fn [a1; a2].
Definition DoCall3 cur c (fn : Member) (a1 a2 a3 : Arg) : M unit :=
  DoCallN cur c fn [a1; a2; a3].
Definition DoCall4 cur c (fn : Member) (a1 a2 a3 a4 : Arg) : M unit :=
  DoCallN cur c fn [a1; a2; a3; a4].

End Core.

(** Modelled from the spec: [base::Bind] (base/bind.h and base/callback.h
    are not part of the sources).  A closure bound to a core is one of the
    core's holders (section 3): binding takes a reference. *)
Definition Bind (this : CoreId) (inv : Invocation) : M Closure :=
  Core.AddRef this;; mret (BindDoCall this inv).

(** Modelled from the spec: [base::Closure::Run] (not part of the sources):
    the bound function applied to the bound arguments, on the running
    thread. *)
Definition Closure_Run (cur : ThreadId) (f : Closure) : M unit :=
  match f with
  | BindDoCall c (Invoke0 fn) => Core.DoCall0 cur c fn
  | BindDoCall c (Invoke1 fn a1) => Core.DoCall1 cur c fn a1
  | BindDoCall c (Invoke2 fn a1 a2) => Core.DoCall2 cur c fn a1 a2
  | BindDoCall c (Invoke3 fn a1 a2 a3) => Core.DoCall3 cur c fn a1 a2 a3
  | BindDoCall c (Invoke4 fn a1 a2 a3 a4) => Core.DoCall4 cur c fn a1 a2 a3 a4
  | DeleteTask a => delete_ptr cur a
  end.

(** Modelled from the spec: the destructor of [base::Closure] (not part of
    the sources): a bound call gives up its reference to the core. *)
Definition Closure_drop (cur : ThreadId) (f : Closure) : M unit :=
  match f return M unit with
  | BindDoCall c _ => Core.Release cur c
  | DeleteTask _ => mret ()
  end.

(** Modelled from the spec: [WeakHandleCoreBase::PostOnOwnerThread]
    (weak_handle.cc is not part of the sources).  Section 4.1: if the
    calling thread is the owner thread the call is dispatched in place;
    otherwise it is packaged into a task for the owner thread's queue and
    the caller returns at once.  The closure is consumed: run and dropped,
    or handed to the queue. *)
Definition PostOnOwnerThread (cur : ThreadId) (k : WeakHandleCore)
    (f : Closure) : M unit :=
  if Core.IsOnOwnerThread cur k then
    Closure_Run cur f;; Closure_drop cur f
  else PostTask (message_loop_proxy_ k) f.

(** [WeakHandleCore::Call], all five overloads. *)
Definition Core_Call (cur : ThreadId) (c : CoreId) (inv : Invocation)
    : M unit :=
  k ← get_core c;
  f ← Bind c inv;
  PostOnOwnerThread cur k f.

(** Taking the next pending task off the queue of thread [cur]. *)
Definition pop_task (cur : ThreadId) : M (option Closure) :=
  λ w, match queue w cur with
       | [] => Ok None w
       | f :: q => Ok (Some f) (with_queue cur q w)
       end.

(** The message loop of thread [cur] runs its next pending task, then drops
    it. *)
Definition run_task (cur : ThreadId) : M unit :=
  next ← pop_task cur;
  match next return M unit with
  | None => mret ()
  | Some f => Closure_Run cur f;; Closure_drop cur f
  end.

Module Handle.

(** Handles are values held in variables; [handles w] is the store of
    handle variables, named by position. *)
Definition get_handle (h : HandleId) : M WeakHandle :=
  λ w, match handles w !! h with
       | Some x => Ok x w
       | None => Undef
       end.

Definition set_handle (h : HandleId) (x : WeakHandle) : M unit :=
  λ w, Ok () (with_handles (<[h := x]> (handles w)) w).

Definition push_handle (x : WeakHandle) : M HandleId :=
  λ w, Ok (length (handles w)) (with_handles (handles w ++ [x]) w).

(** Modelled from the spec: copying a [scoped_refptr]
    (base/memory/ref_counted.h is not part of the sources).  Section 4.2: a
    copy shares the core by incrementing its reference count. *)
Definition ref_acquire (x : WeakHandle) : M unit :=
  match core_ x return M unit with
  | Some c => Core.AddRef c
  | None => mret ()
  end.

(** Modelled from the spec: a [scoped_refptr] letting go of what it points
    to (not part of the sources).  Section 4.2: detaching releases one share
    of the core. *)
Definition ref_release (cur : ThreadId) (x : WeakHandle) : M unit :=
  match core_ x return M unit with
  | Some c => Core.Release cur c
  | None => mret ()
  end.

(** [core_->]: dereferencing the [scoped_refptr]. *)
Definition deref (x : WeakHandle) : M CoreId :=
  match core_ x return M CoreId with
  | Some c => mret c
  | None => undef
  end.

(** [WeakHandle()] *)
Definition default : M HandleId := push_handle {| core_ := None |}.

(** [explicit WeakHandle(const base::WeakPtr<T>& ptr)] *)
Definition new (cur : ThreadId) (ptr : WeakPtr) : M HandleId :=
  c ← Core.new cur ptr;
  Core.AddRef c;;
  push_handle {| core_ := Some c |}.

(** The implicit copy constructor ("Copying and assignment are welcome"):
    it copies the member [core_]. *)
Definition copy (src : HandleId) : M HandleId :=
  x ← get_handle src;
  ref_acquire x;;
  push_handle x.

(** The implicit copy assignment ("Copying and assignment are welcome";
    unlike the core, the handle has no DISALLOW_COPY_AND_ASSIGN): [core_]
    takes the reference of the source, then lets go of its own. *)
Definition assign (cur : ThreadId) (h src : HandleId) : M unit :=
  y ← get_handle src;
  x ← get_handle h;
  ref_acquire y;;
  set_handle h y;;
  ref_release cur x.

(** The implicit destructor ("May be destroyed on any thread"): [core_]
    lets go of its reference.  The variable stays in the store, empty. *)
Definition destroy (cur : ThreadId) (h : HandleId) : M unit :=
  x ← get_handle h;
  set_handle h {| core_ := None |};;
  ref_release cur x.

(** [WeakHandle::IsInitialized] *)
Definition IsInitialized (x : WeakHandle) : bool :=
  bool_decide (core_ x ≠ None).

(** [WeakHandle::Reset]: [core_ = NULL] *)
Definition Reset (cur : ThreadId) (h : HandleId) : M unit :=
  x ← get_handle h;
  set_handle h {| core_ := None |};;
  ref_release cur x.

(** [WeakHandle::Get] *)
Definition Get (cur : ThreadId) (h : HandleId) : M WeakPtr :=
  x ← get_handle h;
  CHECK (IsInitialized x);;
  c ← deref x;
  k ← get_core c;
  CHECK (Core.IsOnOwnerThread cur k);;
  Core.Get cur c.

(** [WeakHandle::Call], all five overloads. *)
Definition Call (cur : ThreadId) (h : HandleId) (inv : Invocation)
    : M unit :=
  x ← get_handle h;
  CHECK (IsInitialized x);;
  c ← deref x;
  Core_Call cur c inv.

End Handle.

(** [MakeWeakHandle] *)
Definition MakeWeakHandle (cur : ThreadId) (ptr : WeakPtr) : M HandleId :=
  Handle.new cur ptr.

(** ** Executions *)

(** What a thread can do in one atomic step. *)
Inductive Action :=
| ActDefault
| ActMake (ptr : WeakPtr)
| ActCopy (src : HandleId)
| ActAssign (h src : HandleId)
| ActDestroy (h : HandleId)
| ActReset (h : HandleId)
| ActGet (h : HandleId)
| ActCall (h : HandleId) (inv : Invocation)
| ActRunTask
| ActDestroyTarget (g : TargetId).

#[global] Instance Action_eq_dec : EqDecision Action.
Proof. solve_decision. Defined.

Definition void {A} (m : M A) : M unit := m ≫= λ _, mret ().

Definition perform (cur : ThreadId) (a : Action) : M unit :=
  match a with
  | ActDefault => void Handle.default
  | ActMake ptr => void (MakeWeakHandle cur ptr)
  | ActCopy src => void (Handle.copy src)
  | ActAssign h src => Handle.assign cur h src
  | ActDestroy h => Handle.destroy cur h
  | ActReset h => Handle.Reset cur h
  | ActGet h => void (Handle.Get cur h)
  | ActCall h inv => Handle.Call cur h inv
  | ActRunTask => run_task cur
  | ActDestroyTarget g => destroy_target g
  end.

Definition step (w : World) (cur : ThreadId) (a : Action) (w' : World)
    : Prop :=
  perform cur a w = Ok () w'.

Inductive reachable : World → Prop :=
| reachable_init : reachable init_world
| reachable_step w cur a w' :
    reachable w → step w cur a w' → reachable w'.

(** Running a schedule: a list of (thread, action) pairs. *)
Fixpoint run (sched : list (ThreadId * Action)) : M unit :=
  match sched with
  | [] => mret ()
  | (cur, a) :: rest => perform cur a;; run rest
  end.

(** The calls of target members in a trace. *)
Definition invocations (tr : list Event)
    : list (ThreadId * TargetId * Member * list Arg) :=
  omap (λ e, match e with
             | EvInvoke t g fn args => Some (t, g, fn, args)
             | EvAccess _ _ _ => None
             end) tr.

(** ** Well-formed worlds *)

Definition closure_core (f : Closure) : option CoreId :=
  match f with
  | BindDoCall c _ => Some c
  | DeleteTask _ => None
  end.

Definition refs_of (x : WeakHandle) : list CoreId :=
  match core_ x with
  | Some c => [c]
  | None => []
  end.

(** The holders of a core: handle variables, queued closures, and the
    references [held] by the operation that is running. *)
Definition handle_refs (c : CoreId) (hs : list WeakHandle) : nat :=
  length (filter (λ x, core_ x = Some c) hs).

Definition closure_refs (c : CoreId) (q : list Closure) : nat :=
  length (filter (λ f, closure_core f = Some c) q).

Definition held_refs (c : CoreId) (held : list CoreId) : nat :=
  length (filter (λ c', c' = c) held).

Definition pending_deletes (q : list Closure) : list Closure :=
  filter (λ f, closure_core f = None) q.

Record wfx (held : list CoreId) (w : World) : Prop := {
  wf_count : ∀ c k, cores w !! c = Some k →
    ref_count k = handle_refs c (handles w)
                  + closure_refs c (queue w (message_loop_proxy_ k))
                  + held_refs c held;
  wf_handle_core : ∀ x c, x ∈ handles w → core_ x = Some c →
    is_Some (cores w !! c);
  wf_closure_core : ∀ t c inv, BindDoCall c inv ∈ queue w t →
    ∃ k, cores w !! c = Some k ∧ message_loop_proxy_ k = t;
  wf_held_core : ∀ c, c ∈ held → is_Some (cores w !! c);
  wf_core_fresh : ∀ c, next_core w ≤ c → cores w !! c = None;
  wf_core_ptr : ∀ c k, cores w !! c = Some k →
    is_Some (weak_ptrs w !! ptr_ k)
    ∧ ptr_owner w !! ptr_ k = Some (message_loop_proxy_ k);
  wf_ptr_inj : ∀ c1 c2 k1 k2,
    cores w !! c1 = Some k1 → cores w !! c2 = Some k2 →
    ptr_ k1 = ptr_ k2 → c1 = c2;
  wf_ptr_fresh : ∀ a, next_ptr w ≤ a →
    weak_ptrs w !! a = None ∧ ptr_owner w !! a = None;
  wf_delete : ∀ t a, DeleteTask a ∈ queue w t →
    is_Some (weak_ptrs w !! a) ∧ ptr_owner w !! a = Some t
    ∧ ∀ c k, cores w !! c = Some k → ptr_ k ≠ a;
  wf_delete_once : ∀ t, NoDup (pending_deletes (queue w t));
  wf_trace : ∀ k a t, EvAccess k a t ∈ trace w → ptr_owner w !! a = Some t
}.

(** A weak pointer on the heap that belongs to no core any more and is not
    yet queued for deletion: the state between a core's end and the end of
    its weak pointer. *)
Definition orphan (a : PtrAddr) (t : ThreadId) (w : World) : Prop :=
  is_Some (weak_ptrs w !! a)
  ∧ ptr_owner w !! a = Some t
  ∧ (∀ c k, cores w !! c = Some k → ptr_ k ≠ a)
  ∧ (∀ t', DeleteTask a ∉ queue w t').

(** Between two operations no reference is held by a temporary. *)
Definition wf (w : World) : Prop := wfx [] w.

(** An action is enabled when the handle variables it names exist. *)
Definition enabled (a : Action) (w : World) : Prop :=
  match a with
  | ActCopy h | ActDestroy h | ActReset h | ActGet h | ActCall h _ =>
      h < length (handles w)
  | ActAssign h src => h < length (handles w) ∧ src < length (handles w)
  | ActDefault | ActMake _ | ActRunTask | ActDestroyTarget _ => True
  end.

(** [hoare P m Q]: from a world in [P], the operation [m] stays within
    defined behaviour, and if it returns, it returns in [Q].  A failed
    [CHECK] stops the process and is allowed. *)
Definition hoare {A} (P : World → Prop) (m : M A) (Q : A → World → Prop)
    : Prop :=
  ∀ w, P w → match m w with
             | Ok a w' => Q a w'
             | Fatal => True
             | Undef => False
             end.

(** [extends w w']: what every operation guarantees between the world it
    starts in and the world it leaves.  Addresses and identities are never
    reused; the ghost owner of a weak pointer is fixed; a weak pointer is
    deleted or left as it is, never overwritten; a core is freed or
    recounted, its owner thread and weak pointer fixed; destroyed targets
    stay destroyed; queues grow at the back. *)
Record extends (w w' : World) : Prop := {
  ext_next_ptr : next_ptr w ≤ next_ptr w';
  ext_next_core : next_core w ≤ next_core w';
  ext_owner : ∀ a, a < next_ptr w → ptr_owner w' !! a = ptr_owner w !! a;
  ext_ptr : ∀ a, a < next_ptr w →
    weak_ptrs w' !! a = weak_ptrs w !! a ∨ weak_ptrs w' !! a = None;
  ext_core : ∀ c k', c < next_core w → cores w' !! c = Some k' →
    ∃ k, cores w !! c = Some k
         ∧ message_loop_proxy_ k' = message_loop_proxy_ k
         ∧ ptr_ k' = ptr_ k;
  ext_destroyed : destroyed w ⊆ destroyed w';
  ext_queue : ∀ t, ∃ more, queue w' t = queue w t ++ more
}.

(** The operations of a core leave, in addition, the handle variables as
    they are. *)
Definition quiet (w w' : World) : Prop :=
  extends w w' ∧ handles w' = handles w.

Definition preserves {A} (R : World → World → Prop) (m : M A) : Prop :=
  ∀ w a w', m w = Ok a w' → R w w'.

(** The world a step starts from, once the task it is about to run, if any,
    is off the queue. *)
Definition pre_step (w : World) (cur : ThreadId) (a : Action) : World :=
  match a with
  | ActRunTask => with_queue cur (tail (queue w cur)) w
  | _ => w
  end.

(** A bound call waits in the queue of thread [o] with [n] tasks ahead of
    it. *)
Definition pending (f : Closure) (o : ThreadId) (n : nat) (w : World)
    : Prop :=
  ∃ q r, queue w o = q ++ f :: r ∧ length q = n.

(** The core [c] lives, with owner thread [o] and a weak pointer at [a]
    that holds [p]. *)
Definition bound (c : CoreId) (o : ThreadId) (a : PtrAddr) (p : WeakPtr)
    (w : World) : Prop :=
  ∃ k, cores w !! c = Some k ∧ message_loop_proxy_ k = o ∧ ptr_ k = a
       ∧ weak_ptrs w !! a = Some p.

(** How many tasks the message loop of thread [o] runs in a schedule. *)
Definition runs_of (o : ThreadId) (sched : list (ThreadId * Action)) : nat :=
  length (filter (λ s, s = (o, ActRunTask)) sched).

(** ** A small scenario

    Thread 0 owns a target, number 7, and makes a handle to it; thread 1 is
    a foreign thread. *)
Definition world_after (sched : list (ThreadId * Action)) : World :=
  match run sched init_world with
  | Ok _ w => w
  | _ => init_world
  end.

Definition demo_ptr : WeakPtr := {| wp_target := Some 7 |}.

Definition demo_core : WeakHandleCore :=
  {| message_loop_proxy_ := 0; ptr_ := 0; ref_count := 1 |}.

Definition demo_bound : World := world_after [(0, ActMake demo_ptr)].

Definition demo_dead : World :=
  world_after [(0, ActMake demo_ptr); (0, ActDestroyTarget 7)].

Definition demo_two : World :=
  world_after [(0, ActMake demo_ptr); (0, ActDefault)].

(** Thread 1 has called through the handle: the call waits in the queue of
    thread 0. *)
Definition demo_posted : World :=
  world_after [(0, ActMake demo_ptr);
               (1, ActCall 0 (Invoke1 "increment" 5%Z))].

(** Thread 1 has reset the only handle: the deletion of the weak pointer
    waits in the queue of thread 0. *)
Definition demo_orphan : World :=
  world_after [(0, ActMake demo_ptr); (1, ActReset 0)].

(** Two handles made on thread 0, the first one reset: one weak pointer
    deleted, one alive. *)
Definition demo_mixed : World :=
  world_after [(0, ActMake demo_ptr); (0, ActMake demo_ptr); (0, ActReset 0)].

(** A whole life on thread 0: made, read, reset. *)
Definition demo_life : World :=
  world_after [(0, ActMake demo_ptr); (0, ActGet 0); (0, ActReset 0)].

(** ** Invariants of single operations *)

(** [keeps I m]: the operation [m], when it returns, returns in a world
    that satisfies [I] if it started in one. *)
Definition keeps {A} (I : World → Prop) (m : M A) : Prop :=
  ∀ w a w', I w → m w = Ok a w' → I w'.

(** Every living core has at least one holder. *)
Definition counted (w : World) : Prop :=
  ∀ c k, cores w !! c = Some k → 0 < ref_count k.

(** Whether an event touches the weak pointer at [a]. *)
Definition is_touch (a : PtrAddr) (e : Event) : bool :=
  match e with
  | EvAccess _ a' _ => bool_decide (a' = a)
  | EvInvoke _ _ _ _ => false
  end.

(** The life of each weak pointer as the trace shows it: nothing touches an
    address before the construction recorded at it or after the deletion
    recorded at it, a deleted weak pointer is off the heap for good, and
    addresses not yet handed out are untouched. *)
Record lifecycle (w : World) : Prop := {
  life_fresh : ∀ a, next_ptr w ≤ a →
    weak_ptrs w !! a = None ∧ ∀ e, e ∈ trace w → is_touch a e = false;
  life_new : ∀ a pre t post, trace w = pre ++ EvAccess AccNew a t :: post →
    ∀ e, e ∈ pre → is_touch a e = false;
  life_delete : ∀ a pre t post,
    trace w = pre ++ EvAccess AccDelete a t :: post →
    weak_ptrs w !! a = None ∧ a < next_ptr w
    ∧ ∀ e, e ∈ post → is_touch a e = false;
  life_live : ∀ a p, weak_ptrs w !! a = Some p →
    ∃ t, EvAccess AccNew a t ∈ trace w;
  life_touch : ∀ a pre k t post, trace w = pre ++ EvAccess k a t :: post →
    k ≠ AccNew → ∃ t', EvAccess AccNew a t' ∈ pre
}.

(** Every weak pointer on the heap belongs to a living core or has its
    deletion waiting in a queue. *)
Definition accounted (w : World) : Prop :=
  ∀ a p, weak_ptrs w !! a = Some p →
    (∃ c k, cores w !! c = Some k ∧ ptr_ k = a)
    ∨ (∃ t, DeleteTask a ∈ queue w t).

(** An operation without a [CHECK] that can fail. *)
Definition never_halts {A} (m : M A) : Prop := ∀ w, m w ≠ Fatal.

(** The operation [m], run in [w], returns and makes exactly one member
    call: thread [t] calls the member [fn] of the target [g] with the
    arguments [args]. *)
Definition calls_member (m : M unit) (w : World) (t : ThreadId)
    (g : TargetId) (fn : Member) (args : list Arg) : Prop :=
  ∃ w', m w = Ok () w'
        ∧ invocations (trace w') = invocations (trace w) ++ [(t, g, fn, args)].

(** The member calls made so far are [calls]. *)
Definition calls_are
    (calls : list (ThreadId * TargetId * Member * list Arg)) (w : World)
    : Prop :=
  invocations (trace w) = calls.

(** * Properties *)

(** ** Running operations *)

Lemma bind_Ok {A B} (m : M A) (f : A → M B) w a w' :
  m w = Ok a w' → (m ≫= f) w = f a w'.
Proof. unfold mbind, M_bind. by intros ->. Qed.

Lemma bind_Fatal {A B} (m : M A) (f : A → M B) w :
  m w = Fatal → (m ≫= f) w = Fatal.
Proof. unfold mbind, M_bind. by intros ->. Qed.

Lemma Closure_Run_DoCallN cur c inv :
  Closure_Run cur (BindDoCall c inv)
  = Core.DoCallN cur c (inv_member inv) (inv_args inv).
Proof. by destruct inv. Qed.

Lemma inv_args_length inv : length (inv_args inv) = arity inv.
Proof. by destruct inv. Qed.

Lemma IsOnOwnerThread_owner k :
  Core.IsOnOwnerThread (message_loop_proxy_ k) k = true.
Proof. unfold Core.IsOnOwnerThread. by rewrite bool_decide_eq_true. Qed.

Lemma IsOnOwnerThread_foreign cur k :
  cur ≠ message_loop_proxy_ k → Core.IsOnOwnerThread cur k = false.
Proof. unfold Core.IsOnOwnerThread. by rewrite bool_decide_eq_false. Qed.

(** What a dispatch does when it runs on the owner thread. *)
Lemma DoCallN_owner c k p fn args w :
  cores w !! c = Some k →
  weak_ptrs w !! ptr_ k = Some p →
  Core.DoCallN (message_loop_proxy_ k) c fn args w
  = let w1 := with_event (EvAccess AccRead (ptr_ k) (message_loop_proxy_ k)) w
    in match resolve (destroyed w) p with
       | None => Ok () w1
       | Some g =>
           Ok () (with_event (EvInvoke (message_loop_proxy_ k) g fn args) w1)
       end.
Proof.
  intros Hc Hp. cbv zeta.
  set (w1 := with_event (EvAccess AccRead (ptr_ k) (message_loop_proxy_ k)) w).
  unfold Core.DoCallN.
  rewrite (bind_Ok _ _ w k w); [|by unfold get_core; rewrite Hc].
  rewrite (bind_Ok _ _ w () w);
    [|by unfold CHECK; rewrite IsOnOwnerThread_owner].
  rewrite (bind_Ok _ _ w p w1); [|by unfold read_ptr; rewrite Hp].
  rewrite (bind_Ok _ _ w1 (resolve (destroyed w) p) w1); [|done].
  by destruct (resolve _ _).
Qed.

(** A dispatch on any other thread stops the process. *)
Lemma DoCallN_foreign cur c k fn args w :
  cores w !! c = Some k →
  cur ≠ message_loop_proxy_ k →
  Core.DoCallN cur c fn args w = Fatal.
Proof.
  intros Hc Hcur. unfold Core.DoCallN.
  rewrite (bind_Ok _ _ w k w); [|by unfold get_core; rewrite Hc].
  apply bind_Fatal. unfold CHECK. by rewrite IsOnOwnerThread_foreign.
Qed.

(** ** The target is gone: the call is dropped *)

(** C1.  A task posted by [Call], of any of the five arities, that runs on
    the owner thread while the weak pointer resolves to null, returns
    normally; the world it leaves differs from the one it found only by the
    record that the weak pointer was read on the owner thread.  No member of
    the target is called, nothing is queued, nothing fails. *)
Theorem dead_target_call_is_dropped c k p inv w :
  cores w !! c = Some k →
  weak_ptrs w !! ptr_ k = Some p →
  resolve (destroyed w) p = None →
  ∃ w', Closure_Run (message_loop_proxy_ k) (BindDoCall c inv) w = Ok () w'
        ∧ w' = with_event (EvAccess AccRead (ptr_ k) (message_loop_proxy_ k)) w
        ∧ invocations (trace w') = invocations (trace w).
Proof.
  intros Hc Hp Hdead. eexists. split; [|split; [reflexivity|]].
  - rewrite Closure_Run_DoCallN.
    rewrite (DoCallN_owner c k p) by done. by rewrite Hdead.
  - unfold invocations. simpl. rewrite omap_app. simpl. by rewrite app_nil_r.
Qed.

(** ** Contract violations *)

Lemma Handle_Get_uninitialized cur h x w :
  handles w !! h = Some x → Handle.IsInitialized x = false →
  Handle.Get cur h w = Fatal.
Proof.
  intros Hh Hx. unfold Handle.Get.
  rewrite (bind_Ok _ _ w x w); [|by unfold Handle.get_handle; rewrite Hh].
  apply bind_Fatal. unfold CHECK. by rewrite Hx.
Qed.

Lemma Handle_Call_uninitialized cur h x inv w :
  handles w !! h = Some x → Handle.IsInitialized x = false →
  Handle.Call cur h inv w = Fatal.
Proof.
  intros Hh Hx. unfold Handle.Call.
  rewrite (bind_Ok _ _ w x w); [|by unfold Handle.get_handle; rewrite Hh].
  apply bind_Fatal. unfold CHECK. by rewrite Hx.
Qed.

Lemma Handle_Get_foreign cur h x c k w :
  handles w !! h = Some x → core_ x = Some c → cores w !! c = Some k →
  cur ≠ message_loop_proxy_ k →
  Handle.Get cur h w = Fatal.
Proof.
  intros Hh Hx Hc Hcur. unfold Handle.Get.
  rewrite (bind_Ok _ _ w x w); [|by unfold Handle.get_handle; rewrite Hh].
  rewrite (bind_Ok _ _ w () w);
    [|by unfold CHECK, Handle.IsInitialized; rewrite Hx].
  rewrite (bind_Ok _ _ w c w); [|by unfold Handle.deref; rewrite Hx].
  rewrite (bind_Ok _ _ w k w); [|by unfold get_core; rewrite Hc].
  apply bind_Fatal. unfold CHECK. by rewrite IsOnOwnerThread_foreign.
Qed.

(** C4.  [Get] on an uninitialized handle, [Get] on an initialized handle
    from a thread that is not the owner thread, and [Call] of any arity on
    an uninitialized handle each stop the process at a failed [CHECK]; none
    returns. *)
Theorem contract_violations_halt cur h x w :
  handles w !! h = Some x →
  (Handle.IsInitialized x = false →
     Handle.Get cur h w = Fatal
     ∧ ∀ inv, Handle.Call cur h inv w = Fatal)
  ∧ (∀ c k, core_ x = Some c → cores w !! c = Some k →
            cur ≠ message_loop_proxy_ k →
            Handle.Get cur h w = Fatal).
Proof.
  intros Hh. split.
  - intros Hx. split.
    + by eapply Handle_Get_uninitialized.
    + intros inv. by eapply Handle_Call_uninitialized.
  - intros c k Hx Hc Hcur. by eapply Handle_Get_foreign.
Qed.

(** ** Construction *)

Lemma MakeWeakHandle_Ok cur p w :
  MakeWeakHandle cur p w
  = Ok (length (handles w))
       {| cores := <[next_core w :=
                       {| message_loop_proxy_ := cur; ptr_ := next_ptr w;
                          ref_count := 1 |}]> (cores w);
          weak_ptrs := <[next_ptr w := p]> (weak_ptrs w);
          destroyed := destroyed w;
          handles := handles w ++ [{| core_ := Some (next_core w) |}];
          queues := queues w;
          next_core := S (next_core w);
          next_ptr := S (next_ptr w);
          ptr_owner := <[next_ptr w := cur]> (ptr_owner w);
          trace := trace w ++ [EvAccess AccNew (next_ptr w) cur] |}.
Proof.
  unfold MakeWeakHandle, Handle.new, Core.new, Core.AddRef, mbind, M_bind,
    new_ptr, new_core, get_core, set_core, Handle.push_handle, with_cores,
    with_handles.
  simpl. rewrite lookup_insert_eq. simpl. by rewrite insert_insert_eq.
Qed.

(** ** Counting the holders of a core *)

Lemma queue_with_queue t q w t' :
  queue (with_queue t q w) t' = if decide (t = t') then q else queue w t'.
Proof.
  unfold queue, with_queue. simpl. rewrite lookup_insert.
  by case_decide.
Qed.

Lemma queue_with_queue_eq t q w : queue (with_queue t q w) t = q.
Proof. rewrite queue_with_queue. by case_decide. Qed.

Lemma queue_with_queue_ne t q w t' :
  t ≠ t' → queue (with_queue t q w) t' = queue w t'.
Proof. intros. rewrite queue_with_queue. by case_decide. Qed.

Lemma handle_refs_app c hs1 hs2 :
  handle_refs c (hs1 ++ hs2) = handle_refs c hs1 + handle_refs c hs2.
Proof. unfold handle_refs. by rewrite filter_app, length_app. Qed.

Lemma handle_refs_cons c x hs :
  handle_refs c (x :: hs)
  = (if decide (core_ x = Some c) then 1 else 0) + handle_refs c hs.
Proof. unfold handle_refs. rewrite filter_cons. by case_decide. Qed.

Lemma handle_refs_insert c hs h x y :
  hs !! h = Some x →
  handle_refs c (<[h := y]> hs) + (if decide (core_ x = Some c) then 1 else 0)
  = handle_refs c hs + (if decide (core_ y = Some c) then 1 else 0).
Proof.
  revert h. induction hs as [|z hs IH]; intros [|h] Hh; simplify_eq/=.
  - rewrite !handle_refs_cons. lia.
  - rewrite !handle_refs_cons. specialize (IH h Hh). lia.
Qed.

Lemma handle_refs_zero c hs x :
  handle_refs c hs = 0 → x ∈ hs → core_ x ≠ Some c.
Proof.
  unfold handle_refs. intros Hz Hx Hc.
  assert (x ∈ filter (λ x, core_ x = Some c) hs) as Hin
    by by apply list_elem_of_filter.
  destruct (filter _ hs); [by apply not_elem_of_nil in Hin | done].
Qed.


Lemma closure_refs_cons c f q :
  closure_refs c (f :: q)
  = (if decide (closure_core f = Some c) then 1 else 0) + closure_refs c q.
Proof. unfold closure_refs. rewrite filter_cons. by case_decide. Qed.

Lemma closure_refs_snoc c q f :
  closure_refs c (q ++ [f])
  = closure_refs c q + (if decide (closure_core f = Some c) then 1 else 0).
Proof.
  unfold closure_refs. rewrite filter_app, length_app, filter_cons, filter_nil.
  by case_decide.
Qed.

Lemma closure_refs_zero c q inv :
  closure_refs c q = 0 → BindDoCall c inv ∉ q.
Proof.
  unfold closure_refs. intros Hz Hin.
  assert (BindDoCall c inv ∈ filter (λ f, closure_core f = Some c) q) as Hf
    by by apply list_elem_of_filter.
  destruct (filter _ q); [by apply not_elem_of_nil in Hf | done].
Qed.

Lemma held_refs_cons c c' held :
  held_refs c (c' :: held)
  = (if decide (c' = c) then 1 else 0) + held_refs c held.
Proof. unfold held_refs. rewrite filter_cons. by case_decide. Qed.

Lemma held_refs_zero c held : held_refs c held = 0 → c ∉ held.
Proof.
  unfold held_refs. intros Hz Hin.
  assert (c ∈ filter (λ c', c' = c) held) as Hf
    by by apply list_elem_of_filter.
  destruct (filter _ held); [by apply not_elem_of_nil in Hf | done].
Qed.

Lemma pending_deletes_app q1 q2 :
  pending_deletes (q1 ++ q2) = pending_deletes q1 ++ pending_deletes q2.
Proof. unfold pending_deletes. by rewrite filter_app. Qed.

Lemma elem_of_pending_deletes f q :
  f ∈ pending_deletes q ↔ closure_core f = None ∧ f ∈ q.
Proof. unfold pending_deletes. by rewrite list_elem_of_filter. Qed.

(** ** A small program logic *)

Lemma hoare_bind {A B} P (m : M A) Q (f : A → M B) R :
  hoare P m Q → (∀ a, hoare (Q a) (f a) R) → hoare P (m ≫= f) R.
Proof.
  intros Hm Hf w HP. specialize (Hm w HP). unfold mbind, M_bind.
  destruct (m w) as [a w'| |]; [|done..]. by apply Hf.
Qed.

Lemma hoare_ret {A} (P : World → Prop) (a : A) (Q : A → World → Prop) :
  (∀ w, P w → Q a w) → hoare P (mret a) Q.
Proof. intros H w HP. by apply H. Qed.

Lemma hoare_pre {A} (P P' : World → Prop) (m : M A) Q :
  (∀ w, P w → P' w) → hoare P' m Q → hoare P m Q.
Proof. intros HP Hm w Hw. apply Hm, HP, Hw. Qed.

Lemma hoare_post {A} P (m : M A) (Q Q' : A → World → Prop) :
  (∀ a w, Q a w → Q' a w) → hoare P m Q → hoare P m Q'.
Proof.
  intros HQ Hm w Hw. specialize (Hm w Hw).
  destruct (m w); [by apply HQ | done..].
Qed.


Lemma hoare_CHECK (P : World → Prop) b :
  hoare P (CHECK b) (λ _ w, P w ∧ b = true).
Proof. intros w HP. unfold CHECK. by destruct b. Qed.

Lemma hoare_get_handle (P : World → Prop) h :
  hoare (λ w, P w ∧ h < length (handles w)) (Handle.get_handle h)
        (λ x w, P w ∧ handles w !! h = Some x).
Proof.
  intros w [HP Hh]. unfold Handle.get_handle.
  destruct (handles w !! h) eqn:E; [done|].
  apply lookup_ge_None in E. lia.
Qed.

Lemma hoare_get_core (P : World → Prop) c :
  hoare (λ w, P w ∧ is_Some (cores w !! c)) (get_core c)
        (λ k w, P w ∧ cores w !! c = Some k).
Proof. intros w [HP [k Hk]]. unfold get_core. by rewrite Hk. Qed.

Lemma hoare_deref (P : World → Prop) x :
  hoare (λ w, P w ∧ Handle.IsInitialized x = true) (Handle.deref x)
        (λ c w, P w ∧ core_ x = Some c).
Proof.
  intros w [HP Hx]. unfold Handle.deref, Handle.IsInitialized in *.
  destruct (core_ x); [done|]. by rewrite bool_decide_eq_true in Hx.
Qed.

(** ** Operations preserve well-formedness *)

Lemma wfx_with_event_invoke held w t g fn args :
  wfx held w → wfx held (with_event (EvInvoke t g fn args) w).
Proof.
  intros [Hcount Hhc Hcc Hheld Hcfresh Hcptr Hinj Hpfresh Hdel Honce Htr].
  split; try done.
  intros k a t' Hin. simpl in Hin. apply elem_of_app in Hin as [Hin|Hin].
  - by eapply Htr.
  - by apply list_elem_of_singleton in Hin.
Qed.

Lemma wfx_with_event_access held w k a t :
  wfx held w → ptr_owner w !! a = Some t →
  wfx held (with_event (EvAccess k a t) w).
Proof.
  intros [Hcount Hhc Hcc Hheld Hcfresh Hcptr Hinj Hpfresh Hdel Honce Htr] Ha.
  split; try done.
  intros k' a' t' Hin. simpl in Hin. apply elem_of_app in Hin as [Hin|Hin].
  - by eapply Htr.
  - apply list_elem_of_singleton in Hin. by simplify_eq.
Qed.

Lemma wfx_with_destroyed held w s :
  wfx held w → wfx held (with_destroyed s w).
Proof. by intros []. Qed.

(** Changing the handle variables, the references moving between the
    variables and the running operation. *)
Lemma wfx_with_handles held held' hs w :
  wfx held w →
  (∀ c, handle_refs c hs + held_refs c held'
        = handle_refs c (handles w) + held_refs c held) →
  (∀ x c, x ∈ hs → core_ x = Some c → is_Some (cores w !! c)) →
  (∀ c, c ∈ held' → is_Some (cores w !! c)) →
  wfx held' (with_handles hs w).
Proof.
  intros [Hcount Hhc Hcc Hheld Hcfresh Hcptr Hinj Hpfresh Hdel Honce Htr]
    Hrefs Hhs Hheld'.
  split; try done.
  intros c k Hc. simpl in *. unfold queue in *. simpl.
  specialize (Hcount c k Hc). specialize (Hrefs c). unfold queue in *. lia.
Qed.

(** Changing the reference count of a core. *)
Lemma wfx_set_count held held' c k n w :
  wfx held w →
  cores w !! c = Some k →
  n + held_refs c held = ref_count k + held_refs c held' →
  (∀ c', c' ≠ c → held_refs c' held' = held_refs c' held) →
  (∀ c', c' ∈ held' → c' = c ∨ c' ∈ held) →
  wfx held'
    (with_cores (<[c := {| message_loop_proxy_ := message_loop_proxy_ k;
                           ptr_ := ptr_ k; ref_count := n |}]> (cores w)) w).
Proof.
  intros [Hcount Hhc Hcc Hheld Hcfresh Hcptr Hinj Hpfresh Hdel Honce Htr]
    Hc Hn Hother Hheld'.
  assert (∀ c' k', <[c := {| message_loop_proxy_ := message_loop_proxy_ k;
                             ptr_ := ptr_ k; ref_count := n |}]> (cores w)
                   !! c' = Some k' →
          ∃ k0, cores w !! c' = Some k0
                ∧ message_loop_proxy_ k' = message_loop_proxy_ k0
                ∧ ptr_ k' = ptr_ k0
                ∧ (c' ≠ c → k' = k0)
                ∧ (c' = c → ref_count k' = n ∧ k0 = k)) as Hlook.
  { intros c' k'. rewrite lookup_insert. case_decide; intros; simplify_eq.
    - by exists k.
    - by exists k'. }
  assert (∀ c', is_Some (cores w !! c') →
          is_Some (<[c := {| message_loop_proxy_ := message_loop_proxy_ k;
                             ptr_ := ptr_ k; ref_count := n |}]> (cores w)
                   !! c')) as Hsome.
  { intros c'. rewrite lookup_insert. by case_decide. }
  split; simpl; unfold queue in *; simpl.
  - intros c' k' Hc'. destruct (Hlook _ _ Hc') as (k0 & H0 & Ho & Hp & Hne & He).
    rewrite Ho. specialize (Hcount c' k0 H0).
    destruct (decide (c' = c)) as [->|Hcc'].
    + destruct (He eq_refl) as [-> ->]. lia.
    + rewrite (Hne Hcc'), Hother by done. done.
  - intros x c' Hx Hxc. eapply Hsome, Hhc; eauto.
  - intros t c' inv Hin. destruct (Hcc t c' inv Hin) as (k0 & H0 & Ho).
    destruct (decide (c' = c)) as [->|Hcc'].
    + eexists. rewrite lookup_insert_eq. split; [done|]. simpl. congruence.
    + exists k0. by rewrite lookup_insert_ne.
  - intros c' Hin. apply Hsome. destruct (Hheld' c' Hin) as [->|?]; eauto.
  - intros c' Hge. rewrite lookup_insert_ne; [by apply Hcfresh|].
    intros ->. rewrite Hcfresh in Hc; done.
  - intros c' k' Hc'. destruct (Hlook _ _ Hc') as (k0 & H0 & Ho & Hp & _).
    rewrite Ho, Hp. by eapply Hcptr.
  - intros c1 c2 k1 k2 H1 H2.
    destruct (Hlook _ _ H1) as (k1' & H1' & _ & Hp1 & _).
    destruct (Hlook _ _ H2) as (k2' & H2' & _ & Hp2 & _).
    rewrite Hp1, Hp2. by eapply Hinj.
  - done.
  - intros t a Hin. destruct (Hdel t a Hin) as (Hs & Ho & Hno).
    split; [done|]. split; [done|].
    intros c' k' Hc'. destruct (Hlook _ _ Hc') as (k0 & H0 & _ & Hp & _).
    rewrite Hp. by eapply Hno.
  - done.
  - done.
Qed.

Lemma handle_refs_none c hs :
  (∀ x, x ∈ hs → core_ x ≠ Some c) → handle_refs c hs = 0.
Proof.
  intros H. unfold handle_refs.
  destruct (filter _ hs) as [|x l] eqn:E; [done|].
  assert (x ∈ filter (λ x, core_ x = Some c) hs) as Hin
    by (rewrite E; left).
  apply list_elem_of_filter in Hin as [Hc Hin]. by destruct (H x Hin).
Qed.

Lemma closure_refs_none c q :
  (∀ inv, BindDoCall c inv ∉ q) → closure_refs c q = 0.
Proof.
  intros H. unfold closure_refs.
  destruct (filter _ q) as [|f l] eqn:E; [done|].
  assert (f ∈ filter (λ f, closure_core f = Some c) q) as Hin
    by (rewrite E; left).
  apply list_elem_of_filter in Hin as [Hc Hin].
  destruct f as [c' inv|]; simplify_eq/=. by destruct (H inv).
Qed.

Lemma held_refs_none c held : c ∉ held → held_refs c held = 0.
Proof.
  intros H. unfold held_refs.
  destruct (filter _ held) as [|c' l] eqn:E; [done|].
  assert (c' ∈ filter (λ c', c' = c) held) as Hin by (rewrite E; left).
  apply list_elem_of_filter in Hin as [-> Hin]. done.
Qed.

(** Posting a bound call to the owner's queue: the reference held by the
    operation passes to the queue. *)
Lemma wfx_post_call held c k inv w :
  wfx (c :: held) w →
  cores w !! c = Some k →
  wfx held (with_queue (message_loop_proxy_ k)
              (queue w (message_loop_proxy_ k) ++ [BindDoCall c inv]) w).
Proof.
  intros [Hcount Hhc Hcc Hheld Hcfresh Hcptr Hinj Hpfresh Hdel Honce Htr] Hc.
  set (t := message_loop_proxy_ k).
  assert (∀ t' f, f ∈ queue (with_queue t (queue w t ++ [BindDoCall c inv]) w) t'
          → f ∈ queue w t' ∨ (t' = t ∧ f = BindDoCall c inv)) as Hq.
  { intros t' f. rewrite queue_with_queue. case_decide; [subst|by left].
    rewrite elem_of_app, list_elem_of_singleton. naive_solver. }
  split; simpl; try done.
  - intros c' k' Hc'. specialize (Hcount c' k' Hc').
    rewrite held_refs_cons in Hcount. rewrite queue_with_queue.
    destruct (decide (c = c')) as [->|Hne].
    + simplify_eq. rewrite decide_True by done.
      rewrite closure_refs_snoc. simpl.
      rewrite decide_True by done. fold t in Hcount. lia.
    + case_decide as Ht; [|lia]. rewrite closure_refs_snoc. simpl.
      rewrite decide_False by congruence.
      rewrite <- Ht in Hcount. lia.
  - intros t' c' inv' Hin. destruct (Hq _ _ Hin) as [?|[-> ?]]; simplify_eq.
    + by eapply Hcc.
    + by exists k.
  - intros c' Hin. apply Hheld. by right.
  - intros t' a Hin. destruct (Hq _ _ Hin) as [?|[-> ?]]; simplify_eq.
    by eapply Hdel.
  - intros t'. rewrite queue_with_queue. case_decide; [subst|done].
    rewrite pending_deletes_app. unfold pending_deletes at 2.
    rewrite filter_cons_False by done. rewrite filter_nil, app_nil_r. done.
Qed.

(** Queueing the deletion of an orphaned weak pointer on its thread. *)
Lemma wfx_post_delete held a t w :
  wfx held w → orphan a t w →
  wfx held (with_queue t (queue w t ++ [DeleteTask a]) w).
Proof.
  intros [Hcount Hhc Hcc Hheld Hcfresh Hcptr Hinj Hpfresh Hdel Honce Htr]
    (Hsome & Hown & Hnocore & Hnotask).
  assert (∀ t' f, f ∈ queue (with_queue t (queue w t ++ [DeleteTask a]) w) t'
          → f ∈ queue w t' ∨ (t' = t ∧ f = DeleteTask a)) as Hq.
  { intros t' f. rewrite queue_with_queue. case_decide; [subst|by left].
    rewrite elem_of_app, list_elem_of_singleton. naive_solver. }
  split; simpl; try done.
  - intros c' k' Hc'. specialize (Hcount c' k' Hc').
    rewrite queue_with_queue. case_decide as Ht; [|done].
    rewrite closure_refs_snoc. simpl.
    rewrite <- Ht in Hcount. lia.
  - intros t' c' inv' Hin. destruct (Hq _ _ Hin) as [?|[-> ?]]; simplify_eq.
    by eapply Hcc.
  - intros t' a' Hin. destruct (Hq _ _ Hin) as [?|[-> ?]]; simplify_eq.
    + by eapply Hdel.
    + done.
  - intros t'. rewrite queue_with_queue. case_decide; [subst|done].
    rewrite pending_deletes_app. unfold pending_deletes at 2.
    rewrite filter_cons_True by done. rewrite filter_nil.
    apply NoDup_app. split; [done|]. split; [|apply NoDup_singleton].
    intros f Hf Hf'. apply list_elem_of_singleton in Hf' as ->.
    apply elem_of_pending_deletes in Hf as [_ Hf]. by eapply Hnotask.
Qed.

(** Taking the head of a queue: a bound call brings its reference along; a
    deletion leaves its weak pointer orphaned. *)
Lemma wfx_pop held cur f q w :
  wfx held w → queue w cur = f :: q →
  match f with
  | BindDoCall c _ =>
      wfx (c :: held) (with_queue cur q w)
      ∧ ∃ k, cores w !! c = Some k ∧ message_loop_proxy_ k = cur
  | DeleteTask a =>
      wfx held (with_queue cur q w) ∧ orphan a cur (with_queue cur q w)
  end.
Proof.
  intros [Hcount Hhc Hcc Hheld Hcfresh Hcptr Hinj Hpfresh Hdel Honce Htr] Hqueue.
  assert (∀ t' f', f' ∈ queue (with_queue cur q w) t' → f' ∈ queue w t') as Hq.
  { intros t' f'. rewrite queue_with_queue. case_decide; [subst|done].
    rewrite Hqueue. by right. }
  assert (f ∈ queue w cur) as Hf by (rewrite Hqueue; left).
  assert (wfx (match f with BindDoCall c _ => c :: held | _ => held end)
            (with_queue cur q w)) as Hwf.
  { split; simpl; try done.
    - intros c' k' Hc'. specialize (Hcount c' k' Hc').
      rewrite queue_with_queue. case_decide as Ht.
      + rewrite <- Ht, Hqueue, closure_refs_cons in Hcount.
        destruct f as [c inv|a]; simpl in *.
        * rewrite held_refs_cons.
          destruct (decide (c = c')); [rewrite decide_True in Hcount by congruence | rewrite decide_False in Hcount by congruence];
          lia.
        * lia.
      + destruct f as [c inv|a]; [|done].
        rewrite held_refs_cons. rewrite decide_False; [lia|].
        intros ->. destruct (Hcc _ _ _ Hf) as (k0 & H0 & Ho). simplify_eq.
    - intros t' c' inv' Hin. eapply Hcc, Hq, Hin.
    - intros c' Hin. destruct f as [c inv|a]; [|by apply Hheld].
      apply elem_of_cons in Hin as [->|Hin]; [|by apply Hheld].
      destruct (Hcc _ _ _ Hf) as (k0 & H0 & _). by exists k0.
    - intros t' a' Hin. eapply Hdel, Hq, Hin.
    - intros t'. rewrite queue_with_queue. case_decide; [subst t'|done].
      specialize (Honce cur). rewrite Hqueue in Honce.
      unfold pending_deletes in *. rewrite filter_cons in Honce.
      case_decide; [by apply NoDup_cons in Honce as [_ ?]|done]. }
  destruct f as [c inv|a].
  - split; [done|]. by eapply Hcc.
  - split; [done|]. destruct (Hdel _ _ Hf) as (Hs & Ho & Hno).
    split; [done|]. split; [done|]. split; [done|].
    intros t' Hin. rewrite queue_with_queue in Hin.
    case_decide as Ht; [subst t'|].
    + specialize (Honce cur). rewrite Hqueue in Honce.
      unfold pending_deletes in Honce. rewrite filter_cons_True in Honce by done.
      apply NoDup_cons in Honce as [Hnin _]. apply Hnin.
      by apply list_elem_of_filter.
    + destruct (Hdel _ _ Hin) as (_ & Ho' & _). congruence.
Qed.

(** Deleting an orphaned weak pointer. *)
Lemma wfx_delete_ptr held a t w :
  wfx held w → orphan a t w →
  wfx held (with_event (EvAccess AccDelete a t)
              (with_weak_ptrs (delete a (weak_ptrs w)) w)).
Proof.
  intros Hwf (Hsome & Hown & Hnocore & Hnotask).
  apply wfx_with_event_access; [|done].
  destruct Hwf as
    [Hcount Hhc Hcc Hheld Hcfresh Hcptr Hinj Hpfresh Hdel Honce Htr].
  split; simpl; try done.
  - intros c k Hc. destruct (Hcptr c k Hc) as [Hs Ho]. split; [|done].
    rewrite lookup_delete_ne; [done|]. intros Heq. by eapply Hnocore.
  - intros a' Hge. destruct (Hpfresh a' Hge) as [Hn Ho]. split; [|done].
    rewrite lookup_delete. by case_decide.
  - intros t' a' Hin. destruct (Hdel t' a' Hin) as (Hs & Ho & Hno).
    split; [|done]. rewrite lookup_delete_ne; [done|].
    intros <-. by eapply Hnotask.
Qed.

(** A new weak pointer starts as an orphan of the allocating thread. *)
Lemma hoare_new_ptr held cur p :
  hoare (wfx held) (new_ptr cur p)
        (λ a w, wfx held w ∧ orphan a cur w ∧ weak_ptrs w !! a = Some p).
Proof.
  intros w [Hcount Hhc Hcc Hheld Hcfresh Hcptr Hinj Hpfresh Hdel Honce Htr].
  unfold new_ptr.
  destruct (Hpfresh (next_ptr w)) as [Hnone Hnoown]; [done|].
  assert (∀ c k, cores w !! c = Some k → ptr_ k ≠ next_ptr w) as Hnocore.
  { intros c k Hc Heq. destruct (Hcptr c k Hc) as [[? Hs] _].
    rewrite Heq in Hs. congruence. }
  assert (∀ t, DeleteTask (next_ptr w) ∉ queue w t) as Hnotask.
  { intros t Hin. destruct (Hdel t _ Hin) as ([? Hs] & _). congruence. }
  split; [split; simpl; try done|split].
  - intros c k Hc. destruct (Hcptr c k Hc) as [Hs Ho].
    assert (next_ptr w ≠ ptr_ k) by (intros Heq; by eapply Hnocore).
    rewrite !lookup_insert_ne by done. done.
  - intros a Hge. destruct (Hpfresh a) as [? ?]; [lia|].
    rewrite !lookup_insert_ne by lia. done.
  - intros t a Hin. destruct (Hdel t a Hin) as (Hs & Ho & Hno).
    assert (next_ptr w ≠ a) by (intros <-; by eapply Hnotask).
    rewrite !lookup_insert_ne by done. done.
  - intros k a t Hin. apply elem_of_app in Hin as [Hin|Hin].
    + specialize (Htr k a t Hin).
      rewrite lookup_insert_ne; [done|]. intros <-. congruence.
    + apply list_elem_of_singleton in Hin. simplify_eq.
      by rewrite lookup_insert_eq.
  - split; simpl; [by rewrite lookup_insert_eq|].
    split; [by rewrite lookup_insert_eq|]. done.
  - simpl. by rewrite lookup_insert_eq.
Qed.

(** A new core adopts an orphaned weak pointer of its owner thread. *)
Lemma hoare_new_core held cur a :
  hoare (λ w, wfx held w ∧ orphan a cur w)
        (new_core {| message_loop_proxy_ := cur; ptr_ := a; ref_count := 0 |})
        (λ c w, wfx held w
                ∧ cores w !! c = Some {| message_loop_proxy_ := cur;
                                         ptr_ := a; ref_count := 0 |}).
Proof.
  intros w [[Hcount Hhc Hcc Hheld Hcfresh Hcptr Hinj Hpfresh Hdel Honce Htr]
              (Hsome & Hown & Hnocore & Hnotask)].
  unfold new_core. set (c := next_core w).
  set (k := {| message_loop_proxy_ := cur; ptr_ := a; ref_count := 0 |}).
  assert (cores w !! c = None) as Hfresh by by apply Hcfresh.
  assert (∀ c' k', <[c := k]> (cores w) !! c' = Some k' →
          (c' = c ∧ k' = k) ∨ (c' ≠ c ∧ cores w !! c' = Some k')) as Hlook.
  { intros c' k'. rewrite lookup_insert. case_decide; naive_solver. }
  assert (∀ c', is_Some (cores w !! c') → is_Some (<[c := k]> (cores w) !! c'))
    as Hmono.
  { intros c' Hs. rewrite lookup_insert. by case_decide. }
  split; [split; simpl; try done|by simpl; rewrite lookup_insert_eq].
  - intros c' k' Hc'. destruct (Hlook _ _ Hc') as [[-> ->]|[Hne Hc0]].
    + simpl. rewrite handle_refs_none, closure_refs_none, held_refs_none; [done|..].
      * intros Hin. destruct (Hheld _ Hin) as [? ?]. congruence.
      * intros inv Hin. destruct (Hcc _ _ _ Hin) as (? & ? & _). congruence.
      * intros x Hx Hxc. destruct (Hhc _ _ Hx Hxc) as [? ?]. congruence.
    + by apply Hcount.
  - intros x c' Hx Hxc. eapply Hmono, Hhc; eauto.
  - intros t c' inv Hin. destruct (Hcc _ _ _ Hin) as (k' & Hk' & Ho).
    exists k'. split; [|done]. rewrite lookup_insert_ne; [done|]. congruence.
  - intros c' Hin. by apply Hmono, Hheld.
  - intros c' Hge. rewrite lookup_insert_ne by (subst c; lia).
    apply Hcfresh. lia.
  - intros c' k' Hc'. destruct (Hlook _ _ Hc') as [[-> ->]|[Hne Hc0]].
    + done.
    + by eapply Hcptr.
  - intros c1 c2 k1 k2 H1 H2 Heq.
    destruct (Hlook _ _ H1) as [[-> ->]|[Hne1 H1']];
      destruct (Hlook _ _ H2) as [[-> ->]|[Hne2 H2']]; simpl in *.
    + done.
    + by destruct (Hnocore _ _ H2').
    + by destruct (Hnocore _ _ H1').
    + by eapply Hinj.
  - intros t a' Hin. destruct (Hdel t a' Hin) as (Hs & Ho & Hno).
    split; [done|]. split; [done|].
    intros c' k' Hc'. destruct (Hlook _ _ Hc') as [[-> ->]|[Hne Hc0]].
    + simpl. intros ->. by eapply Hnotask.
    + by eapply Hno.
Qed.

(** The end of a core that nothing refers to any more: its weak pointer
    is left orphaned. *)
Lemma wfx_free_core held c k w :
  wfx (c :: held) w → cores w !! c = Some k → ref_count k = 1 →
  wfx held (with_cores (delete c (cores w)) w)
  ∧ orphan (ptr_ k) (message_loop_proxy_ k) (with_cores (delete c (cores w)) w).
Proof.
  intros [Hcount Hhc Hcc Hheld Hcfresh Hcptr Hinj Hpfresh Hdel Honce Htr]
    Hc Hone.
  pose proof (Hcount c k Hc) as Hck. rewrite held_refs_cons, Hone in Hck.
  rewrite decide_True in Hck by done.
  assert (handle_refs c (handles w) = 0) as Hh0 by lia.
  assert (closure_refs c (queue w (message_loop_proxy_ k)) = 0) as Hq0 by lia.
  assert (held_refs c held = 0) as Hheld0 by lia.
  assert (∀ c' k', delete c (cores w) !! c' = Some k' →
          c' ≠ c ∧ cores w !! c' = Some k') as Hlook.
  { intros c' k'. rewrite lookup_delete. case_decide; naive_solver. }
  assert (∀ c', c' ≠ c → is_Some (cores w !! c') →
          is_Some (delete c (cores w) !! c')) as Hkeep.
  { intros c' Hne Hs. by rewrite lookup_delete_ne. }
  split; [split; simpl; try done|].
  - intros c' k' Hc'. destruct (Hlook _ _ Hc') as [Hne Hc0].
    specialize (Hcount c' k' Hc0). rewrite held_refs_cons in Hcount.
    rewrite decide_False in Hcount by done. done.
  - intros x c' Hx Hxc. apply Hkeep; [|by eapply Hhc].
    intros ->. by eapply handle_refs_zero.
  - intros t c' inv Hin. destruct (Hcc _ _ _ Hin) as (k' & Hk' & Ho).
    exists k'. split; [|done]. rewrite lookup_delete_ne; [done|].
    intros ->. simplify_eq. by eapply closure_refs_zero.
  - intros c' Hin. apply Hkeep; [|apply Hheld; by right].
    intros ->. by eapply held_refs_zero.
  - intros c' Hge. rewrite lookup_delete. case_decide; [done|by apply Hcfresh].
  - intros c' k' Hc'. destruct (Hlook _ _ Hc') as [Hne Hc0]. by eapply Hcptr.
  - intros c1 c2 k1 k2 H1 H2.
    destruct (Hlook _ _ H1) as [_ H1']. destruct (Hlook _ _ H2) as [_ H2'].
    by eapply Hinj.
  - intros t a Hin. destruct (Hdel t a Hin) as (Hs & Ho & Hno).
    split; [done|]. split; [done|].
    intros c' k' Hc'. destruct (Hlook _ _ Hc') as [Hne Hc0]. by eapply Hno.
  - destruct (Hcptr c k Hc) as [Hs Ho].
    split; [done|]. split; [done|]. split; simpl.
    + intros c' k' Hc'. destruct (Hlook _ _ Hc') as [Hne Hc0].
      intros Heq. apply Hne. by eapply Hinj.
    + intros t Hin. destruct (Hdel t _ Hin) as (_ & _ & Hno).
      by eapply Hno.
Qed.

Lemma hoare_AddRef held c k (F : list WeakHandle → Prop) :
  hoare (λ w, wfx held w ∧ cores w !! c = Some k ∧ F (handles w))
        (Core.AddRef c)
        (λ _ w, wfx (c :: held) w ∧ F (handles w)
                ∧ cores w !! c
                  = Some {| message_loop_proxy_ := message_loop_proxy_ k;
                            ptr_ := ptr_ k; ref_count := S (ref_count k) |}).
Proof.
  intros w (Hwf & Hk & HF). unfold Core.AddRef, mbind, M_bind, get_core.
  rewrite Hk. simpl. split; [|split; [done|by rewrite lookup_insert_eq]].
  eapply wfx_set_count; eauto.
  - rewrite held_refs_cons, decide_True by done. lia.
  - intros c' Hne. rewrite held_refs_cons, decide_False by done. done.
  - intros c'. rewrite elem_of_cons. tauto.
Qed.

Lemma hoare_Release held cur c :
  hoare (wfx (c :: held)) (Core.Release cur c) (λ _ w, wfx held w).
Proof.
  intros w Hwf. unfold Core.Release, mbind, M_bind, get_core.
  destruct (wf_held_core _ _ Hwf c) as [k Hk]; [by left|].
  rewrite Hk. pose proof (wf_count _ _ Hwf c k Hk) as Hcount.
  rewrite held_refs_cons, decide_True in Hcount by done.
  destruct (ref_count k) as [|[|n]] eqn:Hn; [lia| |].
  - destruct (wfx_free_core held c k w Hwf Hk Hn) as [Hwf1 Horph].
    destruct (wf_core_ptr _ _ Hwf c k Hk) as [[p Hp] Ho].
    unfold Core.destroy, mbind, M_bind, get_core. rewrite Hk.
    unfold Core.DeleteOnOwnerThread, Core.IsOnOwnerThread.
    case_bool_decide as Hcur.
    + unfold delete_ptr. rewrite Hp. simpl. rewrite Hcur.
      apply (wfx_delete_ptr held _ _ _ Hwf1 Horph).
    + simpl. apply (wfx_post_delete held _ _ _ Hwf1 Horph).
  - simpl. eapply wfx_set_count; eauto.
    + rewrite held_refs_cons, decide_True by done. lia.
    + intros c' Hne. rewrite held_refs_cons, decide_False by done. done.
    + intros c' Hin. destruct (decide (c' = c)); [by left|right; by right].
Qed.

Lemma hoare_push_handle held x :
  hoare (wfx (refs_of x ++ held)) (Handle.push_handle x)
        (λ h w, wfx held w ∧ handles w !! h = Some x).
Proof.
  intros w Hwf. unfold Handle.push_handle. split.
  - eapply wfx_with_handles; [exact Hwf|..].
    + intros c. rewrite handle_refs_app, handle_refs_cons.
      unfold refs_of. unfold handle_refs at 2. simpl.
      destruct (core_ x) as [c'|]; simpl;
        rewrite ?held_refs_cons; repeat case_decide; simplify_eq; lia.
    + intros y c. rewrite elem_of_app, list_elem_of_singleton.
      intros [Hy| ->] Hc.
      * by eapply wf_handle_core.
      * eapply wf_held_core; [exact Hwf|]. unfold refs_of. rewrite Hc. by left.
    + intros c Hc. eapply wf_held_core; [exact Hwf|].
      apply elem_of_app. by right.
  - simpl. by rewrite lookup_app_r, Nat.sub_diag.
Qed.

Lemma hoare_set_handle held h x y :
  hoare (λ w, wfx (refs_of y ++ held) w ∧ handles w !! h = Some x)
        (Handle.set_handle h y)
        (λ _ w, wfx (refs_of x ++ held) w ∧ handles w !! h = Some y).
Proof.
  intros w [Hwf Hh]. unfold Handle.set_handle. split.
  - eapply wfx_with_handles; [exact Hwf|..].
    + intros c. pose proof (handle_refs_insert c _ _ _ y Hh) as Hins.
      unfold refs_of.
      destruct (core_ x) as [cx|]; destruct (core_ y) as [cy|]; simpl;
        rewrite ?held_refs_cons; repeat case_decide; simplify_eq; lia.
    + intros z c Hz Hc.
      apply list_elem_of_lookup in Hz as [i Hi].
      destruct (decide (i = h)) as [->|Hne].
      * rewrite list_lookup_insert_eq in Hi
          by (by eapply lookup_lt_Some). simplify_eq.
        eapply wf_held_core; [exact Hwf|]. unfold refs_of. rewrite Hc. by left.
      * rewrite list_lookup_insert_ne in Hi by done.
        eapply wf_handle_core; [exact Hwf| |exact Hc].
        by eapply list_elem_of_lookup_2.
    + intros c. rewrite elem_of_app. intros [Hc|Hc].
      * unfold refs_of in Hc. destruct (core_ x) as [cx|] eqn:Hx;
          [|by apply not_elem_of_nil in Hc].
        apply list_elem_of_singleton in Hc as ->.
        eapply wf_handle_core; [exact Hwf| |exact Hx].
        by eapply list_elem_of_lookup_2.
      * eapply wf_held_core; [exact Hwf|]. apply elem_of_app. by right.
  - simpl. rewrite list_lookup_insert_eq; [done|]. by eapply lookup_lt_Some.
Qed.

Lemma hoare_ref_acquire held x (F : list WeakHandle → Prop) :
  hoare (λ w, wfx held w ∧ x ∈ handles w ∧ F (handles w))
        (Handle.ref_acquire x)
        (λ _ w, wfx (refs_of x ++ held) w ∧ F (handles w)).
Proof.
  unfold Handle.ref_acquire, refs_of. destruct (core_ x) as [c|] eqn:Hx.
  - intros w (Hwf & Hin & HF).
    destruct (wf_handle_core _ _ Hwf x c Hin Hx) as [k Hk].
    pose proof (hoare_AddRef held c k F w) as HA.
    destruct (Core.AddRef c w); naive_solver.
  - apply hoare_ret. by intros w (Hwf & _ & HF).
Qed.

Lemma hoare_ref_release held cur x :
  hoare (wfx (refs_of x ++ held)) (Handle.ref_release cur x)
        (λ _ w, wfx held w).
Proof.
  unfold Handle.ref_release, refs_of. destruct (core_ x) as [c|].
  - apply hoare_Release.
  - by apply hoare_ret.
Qed.

Lemma hoare_read_ptr held cur c k :
  hoare (λ w, wfx held w ∧ cores w !! c = Some k
              ∧ Core.IsOnOwnerThread cur k = true)
        (read_ptr cur (ptr_ k))
        (λ _ w, wfx held w).
Proof.
  intros w (Hwf & Hk & Hcur). unfold read_ptr.
  destruct (wf_core_ptr _ _ Hwf c k Hk) as [[p Hp] Ho]. rewrite Hp.
  apply wfx_with_event_access; [done|].
  unfold Core.IsOnOwnerThread in Hcur. apply bool_decide_eq_true in Hcur.
  by rewrite Hcur.
Qed.

Lemma hoare_Core_Get held cur c :
  hoare (λ w, wfx held w ∧ is_Some (cores w !! c)) (Core.Get cur c)
        (λ _ w, wfx held w).
Proof.
  unfold Core.Get.
  eapply hoare_bind; [apply hoare_get_core|]. intros k.
  eapply hoare_bind; [apply hoare_CHECK|]. intros [].
  eapply hoare_pre; [|apply (hoare_read_ptr held cur c k)].
  naive_solver.
Qed.

Lemma hoare_DoCallN held cur c fn args :
  hoare (λ w, wfx held w ∧ is_Some (cores w !! c))
        (Core.DoCallN cur c fn args)
        (λ _ w, wfx held w).
Proof.
  unfold Core.DoCallN.
  eapply hoare_bind; [apply hoare_get_core|]. intros k.
  eapply hoare_bind; [apply hoare_CHECK|]. intros [].
  eapply hoare_bind.
  { eapply hoare_pre; [|apply (hoare_read_ptr held cur c k)]. naive_solver. }
  intros p. eapply hoare_bind with (Q := λ _ w, wfx held w).
  { by intros w Hwf. }
  intros [g|].
  - intros w Hwf. by apply wfx_with_event_invoke.
  - by apply hoare_ret.
Qed.

Lemma hoare_Closure_Run_call held cur c inv :
  hoare (λ w, wfx held w ∧ is_Some (cores w !! c))
        (Closure_Run cur (BindDoCall c inv))
        (λ _ w, wfx held w).
Proof. rewrite Closure_Run_DoCallN. apply hoare_DoCallN. Qed.

Lemma hoare_delete_ptr held cur a :
  hoare (λ w, wfx held w ∧ orphan a cur w) (delete_ptr cur a)
        (λ _ w, wfx held w).
Proof.
  intros w [Hwf Horph]. unfold delete_ptr.
  destruct Horph as ([p Hp] & Horph). rewrite Hp.
  apply wfx_delete_ptr; [done|]. split; [by exists p|done].
Qed.

Lemma hoare_PostTask_call held c k inv :
  hoare (λ w, wfx (c :: held) w ∧ cores w !! c = Some k)
        (PostTask (message_loop_proxy_ k) (BindDoCall c inv))
        (λ _ w, wfx held w).
Proof. intros w [Hwf Hk]. unfold PostTask. by apply wfx_post_call. Qed.

Lemma hoare_Core_Call held cur c inv :
  hoare (λ w, wfx held w ∧ is_Some (cores w !! c)) (Core_Call cur c inv)
        (λ _ w, wfx held w).
Proof.
  unfold Core_Call.
  eapply hoare_bind; [apply hoare_get_core|]. intros k.
  eapply hoare_bind with
    (Q := λ f w, f = BindDoCall c inv ∧ wfx (c :: held) w
                 ∧ ∃ k', cores w !! c = Some k'
                         ∧ message_loop_proxy_ k' = message_loop_proxy_ k).
  { unfold Bind. eapply hoare_bind.
    - eapply hoare_pre; [|apply (hoare_AddRef held c k (λ _, True))].
      naive_solver.
    - intros []. apply hoare_ret. naive_solver. }
  intros f. unfold PostOnOwnerThread. case_eq (Core.IsOnOwnerThread cur k).
  - intros _. eapply hoare_bind with (Q := λ _ w, f = BindDoCall c inv ∧ wfx (c :: held) w).
    + intros w (-> & Hwf & k' & Hk' & _).
      pose proof (hoare_Closure_Run_call (c :: held) cur c inv w) as HR.
      destruct (Closure_Run cur (BindDoCall c inv) w); [|done|]; naive_solver.
    + intros [] w [-> Hwf]. by apply (hoare_Release held cur c w).
  - intros _ w (-> & Hwf & k' & Hk' & Hown). rewrite <- Hown.
    by apply (hoare_PostTask_call held c k' inv w).
Qed.

Lemma hoare_run_task cur : hoare wf (run_task cur) (λ _ w, wf w).
Proof.
  unfold run_task, wf.
  eapply hoare_bind with
    (Q := λ o w, match o with
                 | None => wfx [] w
                 | Some (BindDoCall c _) => wfx [c] w
                 | Some (DeleteTask a) => wfx [] w ∧ orphan a cur w
                 end).
  { intros w Hwf. unfold pop_task. destruct (queue w cur) as [|f q] eqn:Hq.
    - done.
    - pose proof (wfx_pop [] cur f q w Hwf Hq) as Hpop.
      destruct f; naive_solver. }
  intros [[c inv|a]|].
  - eapply hoare_bind with (Q := λ _ w, wfx [c] w).
    + eapply hoare_pre; [|apply hoare_Closure_Run_call].
      intros w Hwf. split; [done|]. eapply wf_held_core; [done|by left].
    + intros []. apply hoare_Release.
  - eapply hoare_bind; [apply hoare_delete_ptr|].
    intros []. by apply hoare_ret.
  - by apply hoare_ret.
Qed.

Lemma hoare_void {A} P (m : M A) (Q : World → Prop) :
  hoare P m (λ _ w, Q w) → hoare P (void m) (λ _ w, Q w).
Proof.
  intros Hm. unfold void. eapply hoare_bind; [exact Hm|].
  intros a. by apply hoare_ret.
Qed.

Lemma hoare_Handle_default :
  hoare wf Handle.default (λ _ w, wf w).
Proof.
  unfold Handle.default, wf.
  eapply hoare_post; [|apply (hoare_push_handle [] {| core_ := None |})].
  naive_solver.
Qed.

Lemma hoare_Core_new held cur p :
  hoare (wfx held) (Core.new cur p)
        (λ c w, wfx held w
                ∧ ∃ a, cores w !! c = Some {| message_loop_proxy_ := cur;
                                             ptr_ := a; ref_count := 0 |}
                       ∧ weak_ptrs w !! a = Some p).
Proof.
  unfold Core.new. eapply hoare_bind; [apply hoare_new_ptr|]. intros a.
  intros w (Hwf & Horph & Hp).
  pose proof (hoare_new_core held cur a w (conj Hwf Horph)) as Hnew.
  unfold new_core in *. simpl in *. naive_solver.
Qed.

Lemma hoare_Handle_new cur p :
  hoare wf (Handle.new cur p) (λ _ w, wf w).
Proof.
  unfold Handle.new, wf.
  eapply hoare_bind; [apply hoare_Core_new|]. intros c.
  eapply hoare_bind with (Q := λ _ w, wfx [c] w).
  { intros w (Hwf & a & Hc & _).
    pose proof (hoare_AddRef [] c
      {| message_loop_proxy_ := cur; ptr_ := a; ref_count := 0 |}
      (λ _, True) w) as HA.
    destruct (Core.AddRef c w); naive_solver. }
  intros [].
  eapply hoare_post; [|apply (hoare_push_handle [] {| core_ := Some c |})].
  naive_solver.
Qed.

Lemma hoare_Handle_copy src :
  hoare (λ w, wf w ∧ src < length (handles w)) (Handle.copy src)
        (λ _ w, wf w).
Proof.
  unfold Handle.copy, wf.
  eapply hoare_bind; [apply hoare_get_handle|]. intros x.
  eapply hoare_bind with (Q := λ _ w, wfx (refs_of x ++ []) w).
  { intros w [Hwf Hx].
    pose proof (hoare_ref_acquire [] x (λ _, True) w) as HA.
    destruct (Handle.ref_acquire x w); [|done|].
    - apply HA. split; [done|]. split; [|done].
      by eapply list_elem_of_lookup_2.
    - apply HA. split; [done|]. split; [|done].
      by eapply list_elem_of_lookup_2. }
  intros [].
  eapply hoare_post; [|apply (hoare_push_handle [] x)]. naive_solver.
Qed.

Lemma hoare_Handle_unset cur h :
  hoare (λ w, wf w ∧ h < length (handles w))
        (x ← Handle.get_handle h;
         Handle.set_handle h {| core_ := None |};;
         Handle.ref_release cur x)
        (λ _ w, wf w).
Proof.
  unfold wf.
  eapply hoare_bind; [apply hoare_get_handle|]. intros x.
  eapply hoare_bind;
    [apply (hoare_set_handle [] h x {| core_ := None |})|].
  intros []. eapply hoare_pre; [|apply hoare_ref_release]. naive_solver.
Qed.

Lemma hoare_Handle_assign cur h src :
  hoare (λ w, wf w ∧ h < length (handles w) ∧ src < length (handles w))
        (Handle.assign cur h src)
        (λ _ w, wf w).
Proof.
  unfold Handle.assign, wf.
  eapply hoare_bind.
  { eapply hoare_pre;
      [|apply (hoare_get_handle
                 (λ w, wfx [] w ∧ h < length (handles w)) src)].
    naive_solver. }
  intros y. eapply hoare_bind.
  { eapply hoare_pre;
      [|apply (hoare_get_handle
                 (λ w, wfx [] w ∧ handles w !! src = Some y) h)].
    naive_solver. }
  intros x. eapply hoare_bind.
  { eapply hoare_pre;
      [|apply (hoare_ref_acquire [] y (λ hs, hs !! h = Some x))].
    intros w [[Hwf Hy] Hx]. split; [done|].
    split; [by eapply list_elem_of_lookup_2|done]. }
  intros []. eapply hoare_bind; [apply (hoare_set_handle [] h x y)|].
  intros []. eapply hoare_pre; [|apply hoare_ref_release]. naive_solver.
Qed.

Lemma hoare_Handle_Get cur h :
  hoare (λ w, wf w ∧ h < length (handles w)) (Handle.Get cur h)
        (λ _ w, wf w).
Proof.
  unfold Handle.Get, wf.
  eapply hoare_bind; [apply hoare_get_handle|]. intros x.
  eapply hoare_bind; [apply hoare_CHECK|]. intros [].
  eapply hoare_bind.
  { eapply hoare_pre;
      [|apply (hoare_deref (λ w, wfx [] w ∧ handles w !! h = Some x) x)].
    naive_solver. }
  intros c. eapply hoare_bind.
  { eapply hoare_pre;
      [|apply (hoare_get_core (λ w, wfx [] w) c)].
    intros w [[Hwf Hx] Hc]. split; [done|].
    eapply wf_handle_core; [done| |done]. by eapply list_elem_of_lookup_2. }
  intros k. eapply hoare_bind; [apply hoare_CHECK|]. intros [].
  eapply hoare_pre; [|apply hoare_Core_Get]. naive_solver.
Qed.

Lemma hoare_Handle_Call cur h inv :
  hoare (λ w, wf w ∧ h < length (handles w)) (Handle.Call cur h inv)
        (λ _ w, wf w).
Proof.
  unfold Handle.Call, wf.
  eapply hoare_bind; [apply hoare_get_handle|]. intros x.
  eapply hoare_bind; [apply hoare_CHECK|]. intros [].
  eapply hoare_bind.
  { eapply hoare_pre;
      [|apply (hoare_deref (λ w, wfx [] w ∧ handles w !! h = Some x) x)].
    naive_solver. }
  intros c. eapply hoare_pre; [|apply hoare_Core_Call].
  intros w [[Hwf Hx] Hc]. split; [done|].
  eapply wf_handle_core; [done| |done]. by eapply list_elem_of_lookup_2.
Qed.

(** Every enabled action keeps a well-formed world well-formed, and never
    leaves defined behaviour. *)
Lemma hoare_perform cur a :
  hoare (λ w, wf w ∧ enabled a w) (perform cur a) (λ _ w, wf w).
Proof.
  destruct a; simpl.
  - apply hoare_void. eapply hoare_pre; [|apply hoare_Handle_default].
    naive_solver.
  - apply hoare_void. eapply hoare_pre; [|apply hoare_Handle_new].
    naive_solver.
  - apply hoare_void. apply hoare_Handle_copy.
  - apply hoare_Handle_assign.
  - apply hoare_Handle_unset.
  - apply hoare_Handle_unset.
  - apply hoare_void. apply hoare_Handle_Get.
  - apply hoare_Handle_Call.
  - eapply hoare_pre; [|apply hoare_run_task]. naive_solver.
  - intros w [Hwf _]. by apply wfx_with_destroyed.
Qed.

Lemma wf_init : wf init_world.
Proof.
  split; simpl; try done.
  - intros x c Hx. by apply not_elem_of_nil in Hx.
  - intros t c inv Hin. by apply not_elem_of_nil in Hin.
  - intros c Hin. by apply not_elem_of_nil in Hin.
  - intros t a Hin. by apply not_elem_of_nil in Hin.
  - intros t. apply NoDup_nil_2.
  - intros k a t Hin. by apply not_elem_of_nil in Hin.
Qed.

Lemma get_handle_bind_Ok {A} (f : WeakHandle → M A) h w r w' :
  (Handle.get_handle h ≫= f) w = Ok r w' →
  ∃ x, handles w !! h = Some x ∧ f x w = Ok r w'.
Proof.
  unfold mbind, M_bind, Handle.get_handle.
  destruct (handles w !! h) as [x|]; [|done]. by exists x.
Qed.

Lemma void_Ok {A} (m : M A) w w' :
  void m w = Ok () w' → ∃ r, m w = Ok r w'.
Proof.
  unfold void, mbind, M_bind. destruct (m w) as [r w1| |]; [|done..].
  intros [= ->]. by exists r.
Qed.

Lemma step_enabled w cur a w' : step w cur a w' → enabled a w.
Proof.
  unfold step. destruct a; simpl; try done.
  - intros [r H]%void_Ok. apply get_handle_bind_Ok in H as (x & Hx & _).
    by eapply lookup_lt_Some.
  - intros (y & Hy & H)%get_handle_bind_Ok.
    apply get_handle_bind_Ok in H as (x & Hx & _).
    split; by eapply lookup_lt_Some.
  - intros (x & Hx & _)%get_handle_bind_Ok. by eapply lookup_lt_Some.
  - intros (x & Hx & _)%get_handle_bind_Ok. by eapply lookup_lt_Some.
  - intros [r H]%void_Ok. apply get_handle_bind_Ok in H as (x & Hx & _).
    by eapply lookup_lt_Some.
  - intros (x & Hx & _)%get_handle_bind_Ok. by eapply lookup_lt_Some.
Qed.

Lemma step_wf w cur a w' : wf w → step w cur a w' → wf w'.
Proof.
  intros Hwf Hstep. pose proof (step_enabled _ _ _ _ Hstep) as Hen.
  pose proof (hoare_perform cur a w (conj Hwf Hen)) as H.
  unfold step in Hstep. by rewrite Hstep in H.
Qed.

Lemma reachable_wf w : reachable w → wf w.
Proof.
  induction 1 as [|w cur a w' _ IH Hstep]; [apply wf_init|].
  by eapply step_wf.
Qed.

Lemma run_cons cur a rest w w' :
  run ((cur, a) :: rest) w = Ok () w' →
  ∃ w1, step w cur a w1 ∧ run rest w1 = Ok () w'.
Proof.
  simpl. unfold mbind, M_bind, step.
  destruct (perform cur a w) as [[] w1| |]; [|done..]. by exists w1.
Qed.

Lemma run_wf sched w w' : wf w → run sched w = Ok () w' → wf w'.
Proof.
  revert w. induction sched as [|[cur a] rest IH]; intros w Hwf Hrun.
  - by injection Hrun as <-.
  - apply run_cons in Hrun as (w1 & Hstep & Hrun).
    eapply IH; [|done]. by eapply step_wf.
Qed.

Lemma run_reachable sched w w' :
  reachable w → run sched w = Ok () w' → reachable w'.
Proof.
  revert w. induction sched as [|[cur a] rest IH]; intros w Hr Hrun.
  - by injection Hrun as <-.
  - apply run_cons in Hrun as (w1 & Hstep & Hrun).
    eapply IH; [|done]. by eapply reachable_step.
Qed.

(** A well-formed world never leaves defined behaviour. *)
Lemma wf_no_undef w cur a : wf w → enabled a w → perform cur a w ≠ Undef.
Proof.
  intros Hwf Hen Hu. pose proof (hoare_perform cur a w (conj Hwf Hen)) as H.
  by rewrite Hu in H.
Qed.

(** ** What operations leave unchanged *)

Ltac ok_inv :=
  let H := fresh in
  intros H;
  cbv beta zeta delta [emit PostTask free_core new_ptr new_core destroy_target
                  set_core mret M_ret WeakPtr_get] in H;
  simplify_eq.

Lemma extends_refl w : extends w w.
Proof.
  split; try done.
  - intros a _. by left.
  - intros c k' _ Hk'. by exists k'.
  - intros t. exists []. by rewrite app_nil_r.
Qed.

Lemma extends_trans w1 w2 w3 : extends w1 w2 → extends w2 w3 → extends w1 w3.
Proof.
  intros [Hp1 Hc1 Ho1 Hh1 Hk1 Hd1 Hq1] [Hp2 Hc2 Ho2 Hh2 Hk2 Hd2 Hq2].
  split.
  - lia.
  - lia.
  - intros a Ha. rewrite Ho2 by lia. by apply Ho1.
  - intros a Ha. destruct (Hh2 a) as [H2|H2]; [lia| |by right].
    rewrite H2. by apply Hh1.
  - intros c k3 Hc H3. destruct (Hk2 c k3) as (k2 & H2 & Ho & Hp); [lia|done|].
    destruct (Hk1 c k2 Hc H2) as (k1 & H1 & Ho' & Hp').
    exists k1. split; [done|]. split; congruence.
  - set_solver.
  - intros t. destruct (Hq1 t) as [m1 H1]. destruct (Hq2 t) as [m2 H2].
    exists (m1 ++ m2). by rewrite H2, H1, app_assoc.
Qed.

Lemma quiet_refl w : quiet w w.
Proof. split; [apply extends_refl|done]. Qed.

Lemma quiet_trans w1 w2 w3 : quiet w1 w2 → quiet w2 w3 → quiet w1 w3.
Proof.
  intros [H1 E1] [H2 E2]. split; [by eapply extends_trans|congruence].
Qed.

Lemma preserves_bind {A B} (R : World → World → Prop) (m : M A)
    (f : A → M B) :
  (∀ w1 w2 w3, R w1 w2 → R w2 w3 → R w1 w3) →
  preserves R m → (∀ a, preserves R (f a)) → preserves R (m ≫= f).
Proof.
  intros Htrans Hm Hf w b w'. unfold mbind, M_bind.
  destruct (m w) as [a w1| |] eqn:E; [|done..].
  intros Hfa. eapply Htrans; [by eapply Hm|by eapply Hf].
Qed.

Lemma quiet_bind {A B} (m : M A) (f : A → M B) :
  preserves quiet m → (∀ a, preserves quiet (f a)) →
  preserves quiet (m ≫= f).
Proof. apply preserves_bind, quiet_trans. Qed.



Lemma quiet_ret {A} (a : A) : preserves quiet (mret a).
Proof. intros w a' w'. ok_inv. apply quiet_refl. Qed.

Lemma quiet_undef {A} : preserves quiet (@undef A).
Proof. by intros w a w'. Qed.

Lemma quiet_CHECK b : preserves quiet (CHECK b).
Proof.
  intros w a w'. unfold CHECK. destruct b; [|done].
  ok_inv. apply quiet_refl.
Qed.

Lemma quiet_get_core c : preserves quiet (get_core c).
Proof.
  intros w a w'. unfold get_core. destruct (cores w !! c); [|done].
  ok_inv. apply quiet_refl.
Qed.

Lemma quiet_with_event e w : quiet w (with_event e w).
Proof.
  split; [|done]. split; simpl; try done.
  - intros a _. by left.
  - intros c k' _ Hk'. by exists k'.
  - intros t. exists []. by rewrite app_nil_r.
Qed.

Lemma quiet_emit e : preserves quiet (emit e).
Proof. intros w a w'. ok_inv. apply quiet_with_event. Qed.

Lemma quiet_read_ptr cur a : preserves quiet (read_ptr cur a).
Proof.
  intros w p w'. unfold read_ptr. destruct (weak_ptrs w !! a); [|done].
  ok_inv. apply quiet_with_event.
Qed.

Lemma quiet_delete_ptr cur a : preserves quiet (delete_ptr cur a).
Proof.
  intros w p w'. unfold delete_ptr. destruct (weak_ptrs w !! a); [|done].
  ok_inv. split; [|done]. split; simpl; try done.
  - intros a' _. rewrite lookup_delete. case_decide; [by right|by left].
  - intros c k' _ Hk'. by exists k'.
  - intros t. exists []. by rewrite app_nil_r.
Qed.

Lemma quiet_WeakPtr_get p : preserves quiet (WeakPtr_get p).
Proof.
  intros w a w'. ok_inv. apply quiet_refl.
Qed.

Lemma quiet_PostTask t f : preserves quiet (PostTask t f).
Proof.
  intros w a w'. ok_inv. split; [|done]. split; simpl; try done.
  - intros a' _. by left.
  - intros c k' _ Hk'. by exists k'.
  - intros t'. rewrite queue_with_queue. case_decide; [subst t'|].
    + by eexists.
    + exists []. by rewrite app_nil_r.
Qed.

Lemma quiet_free_core c : preserves quiet (free_core c).
Proof.
  intros w a w'. ok_inv. split; [|done]. split; simpl; try done.
  - intros a' _. by left.
  - intros c' k' _. rewrite lookup_delete. case_decide; [done|].
    intros Hk'. by exists k'.
  - intros t. exists []. by rewrite app_nil_r.
Qed.

Lemma quiet_recount c k n w :
  cores w !! c = Some k →
  quiet w (with_cores
             (<[c := {| message_loop_proxy_ := message_loop_proxy_ k;
                        ptr_ := ptr_ k; ref_count := n |}]> (cores w)) w).
Proof.
  intros Hk. split; [|done]. split; simpl; try done.
  - intros a' _. by left.
  - intros c' k' _. rewrite lookup_insert. case_decide; simplify_eq.
    + intros [= <-]. by exists k.
    + intros Hk'. by exists k'.
  - intros t. exists []. by rewrite app_nil_r.
Qed.

Lemma quiet_new_ptr cur p : preserves quiet (new_ptr cur p).
Proof.
  intros w a w'. ok_inv. split; [|done]. split; simpl; try done.
  - lia.
  - intros a' Ha. rewrite lookup_insert_ne by lia. done.
  - intros a' Ha. rewrite lookup_insert_ne by lia. by left.
  - intros c k' _ Hk'. by exists k'.
  - intros t. exists []. by rewrite app_nil_r.
Qed.

Lemma quiet_new_core k : preserves quiet (new_core k).
Proof.
  intros w a w'. ok_inv. split; [|done]. split; simpl; try done.
  - lia.
  - intros a' _. by left.
  - intros c k' Hc. rewrite lookup_insert_ne by lia. intros Hk'. by exists k'.
  - intros t. exists []. by rewrite app_nil_r.
Qed.

Lemma quiet_destroy_target g : preserves quiet (destroy_target g).
Proof.
  intros w a w'. ok_inv. split; [|done]. split; simpl; try done.
  - intros a' _. by left.
  - intros c k' _ Hk'. by exists k'.
  - set_solver.
  - intros t. exists []. by rewrite app_nil_r.
Qed.

Lemma quiet_AddRef c : preserves quiet (Core.AddRef c).
Proof.
  intros w a w'. unfold Core.AddRef, mbind, M_bind, get_core.
  destruct (cores w !! c) as [k|] eqn:Hk; [|done].
  ok_inv. by apply quiet_recount.
Qed.

Lemma quiet_DeleteOnOwnerThread cur k a :
  preserves quiet (Core.DeleteOnOwnerThread cur k a).
Proof.
  unfold Core.DeleteOnOwnerThread, DeleteSoon.
  destruct (Core.IsOnOwnerThread cur k).
  - apply quiet_delete_ptr.
  - apply quiet_PostTask.
Qed.

Lemma quiet_destroy cur c : preserves quiet (Core.destroy cur c).
Proof.
  unfold Core.destroy.
  apply quiet_bind; [apply quiet_get_core|]. intros k.
  apply quiet_bind; [apply quiet_DeleteOnOwnerThread|]. intros _.
  apply quiet_free_core.
Qed.

Lemma quiet_Release cur c : preserves quiet (Core.Release cur c).
Proof.
  intros w a w'. unfold Core.Release, mbind, M_bind, get_core.
  destruct (cores w !! c) as [k|] eqn:Hk; [|done].
  destruct (ref_count k) as [|[|n]]; [done| |].
  - apply quiet_destroy.
  - ok_inv. by apply quiet_recount.
Qed.

Lemma quiet_Core_Get cur c : preserves quiet (Core.Get cur c).
Proof.
  unfold Core.Get.
  apply quiet_bind; [apply quiet_get_core|]. intros k.
  apply quiet_bind; [apply quiet_CHECK|]. intros _.
  apply quiet_read_ptr.
Qed.

Lemma quiet_DoCallN cur c fn args : preserves quiet (Core.DoCallN cur c fn args).
Proof.
  unfold Core.DoCallN.
  apply quiet_bind; [apply quiet_get_core|]. intros k.
  apply quiet_bind; [apply quiet_CHECK|]. intros _.
  apply quiet_bind; [apply quiet_read_ptr|]. intros p.
  apply quiet_bind; [apply quiet_WeakPtr_get|]. intros [g|].
  - apply quiet_emit.
  - apply quiet_ret.
Qed.

Lemma quiet_Closure_Run cur f : preserves quiet (Closure_Run cur f).
Proof.
  destruct f as [c inv|a].
  - rewrite Closure_Run_DoCallN. apply quiet_DoCallN.
  - apply quiet_delete_ptr.
Qed.

Lemma quiet_Closure_drop cur f : preserves quiet (Closure_drop cur f).
Proof.
  destruct f as [c inv|a]; simpl.
  - apply quiet_Release.
  - apply quiet_ret.
Qed.

Lemma quiet_Core_Call cur c inv : preserves quiet (Core_Call cur c inv).
Proof.
  unfold Core_Call.
  apply quiet_bind; [apply quiet_get_core|]. intros k.
  apply quiet_bind.
  { unfold Bind. apply quiet_bind; [apply quiet_AddRef|].
    intros _. apply quiet_ret. }
  intros f. unfold PostOnOwnerThread.
  destruct (Core.IsOnOwnerThread cur k).
  - apply quiet_bind; [apply quiet_Closure_Run|].
    intros _. apply quiet_Closure_drop.
  - apply quiet_PostTask.
Qed.

Lemma quiet_Core_new cur p : preserves quiet (Core.new cur p).
Proof.
  unfold Core.new. apply quiet_bind; [apply quiet_new_ptr|].
  intros a. apply quiet_new_core.
Qed.

Lemma bind_Ok_inv {A B} (m : M A) (f : A → M B) w b w' :
  (m ≫= f) w = Ok b w' → ∃ a w1, m w = Ok a w1 ∧ f a w1 = Ok b w'.
Proof.
  unfold mbind, M_bind. destruct (m w) as [a w1| |]; [|done..].
  intros H. by exists a, w1.
Qed.

Lemma quiet_get_handle h : preserves quiet (Handle.get_handle h).
Proof.
  intros w x w'. unfold Handle.get_handle.
  destruct (handles w !! h); [|done]. ok_inv. apply quiet_refl.
Qed.

Lemma extends_with_handles hs w : extends w (with_handles hs w).
Proof.
  split; simpl; try done.
  - intros a _. by left.
  - intros c k' _ Hk'. by exists k'.
  - intros t. exists []. by rewrite app_nil_r.
Qed.

Lemma quiet_ref_acquire x : preserves quiet (Handle.ref_acquire x).
Proof.
  unfold Handle.ref_acquire. destruct (core_ x).
  - apply quiet_AddRef.
  - apply quiet_ret.
Qed.

Lemma quiet_ref_release cur x : preserves quiet (Handle.ref_release cur x).
Proof.
  unfold Handle.ref_release. destruct (core_ x).
  - apply quiet_Release.
  - apply quiet_ret.
Qed.

Lemma quiet_Handle_Get cur h : preserves quiet (Handle.Get cur h).
Proof.
  unfold Handle.Get.
  apply quiet_bind; [apply quiet_get_handle|]. intros x.
  apply quiet_bind; [apply quiet_CHECK|]. intros _.
  apply quiet_bind.
  { unfold Handle.deref. destruct (core_ x);
      [apply quiet_ret|apply quiet_undef]. }
  intros c. apply quiet_bind; [apply quiet_get_core|]. intros k.
  apply quiet_bind; [apply quiet_CHECK|]. intros _.
  apply quiet_Core_Get.
Qed.

Lemma quiet_Handle_Call cur h inv : preserves quiet (Handle.Call cur h inv).
Proof.
  unfold Handle.Call.
  apply quiet_bind; [apply quiet_get_handle|]. intros x.
  apply quiet_bind; [apply quiet_CHECK|]. intros _.
  apply quiet_bind.
  { unfold Handle.deref. destruct (core_ x);
      [apply quiet_ret|apply quiet_undef]. }
  intros c. apply quiet_Core_Call.
Qed.

(** What each handle operation does to the handle variables. *)
Lemma Handle_push_handles x w h w' :
  Handle.push_handle x w = Ok h w' →
  h = length (handles w) ∧ handles w' = handles w ++ [x] ∧ extends w w'.
Proof.
  unfold Handle.push_handle. intros ?; simplify_eq.
  split; [done|]. split; [done|]. apply extends_with_handles.
Qed.

Lemma Handle_default_handles w h w' :
  Handle.default w = Ok h w' →
  handles w' = handles w ++ [{| core_ := None |}] ∧ extends w w'.
Proof. intros H. by apply Handle_push_handles in H as (_ & ? & ?). Qed.

Lemma Handle_copy_handles src w h w' :
  Handle.copy src w = Ok h w' →
  ∃ x, handles w !! src = Some x ∧ handles w' = handles w ++ [x]
       ∧ h = length (handles w) ∧ extends w w'.
Proof.
  unfold Handle.copy. intros (x & Hx & H)%get_handle_bind_Ok.
  apply bind_Ok_inv in H as ([] & w1 & Hacq & Hpush).
  apply quiet_ref_acquire in Hacq as [Hext Hh].
  apply Handle_push_handles in Hpush as (-> & Hh' & Hext').
  exists x. rewrite Hh', Hh. split; [done|]. split; [done|].
  split; [done|]. by eapply extends_trans.
Qed.

Lemma Handle_set_handles cur h y w w' :
  (Handle.set_handle h y;; Handle.ref_release cur
     (default {| core_ := None |} (handles w !! h))) w = Ok () w' →
  handles w' = <[h := y]> (handles w)
  ∧ extends w w'.
Proof.
  intros ([] & w1 & Hset & Hrel)%bind_Ok_inv.
  unfold Handle.set_handle in Hset. simplify_eq.
  apply quiet_ref_release in Hrel as [Hext Hh]. simpl in *.
  split; [done|]. eapply extends_trans; [|exact Hext].
  apply extends_with_handles.
Qed.

Lemma Handle_unset_handles cur h w w' :
  Handle.Reset cur h w = Ok () w' →
  handles w' = <[h := {| core_ := None |}]> (handles w) ∧ extends w w'.
Proof.
  unfold Handle.Reset. intros (x & Hx & H)%get_handle_bind_Ok.
  apply (Handle_set_handles cur h {| core_ := None |} w w').
  by rewrite Hx.
Qed.

Lemma Handle_assign_handles cur h src w w' :
  Handle.assign cur h src w = Ok () w' →
  ∃ y, handles w !! src = Some y ∧ handles w' = <[h := y]> (handles w)
       ∧ extends w w'.
Proof.
  unfold Handle.assign. intros (y & Hy & H)%get_handle_bind_Ok.
  apply get_handle_bind_Ok in H as (x & Hx & H).
  apply bind_Ok_inv in H as ([] & w1 & Hacq & H).
  apply quiet_ref_acquire in Hacq as [Hext Hh].
  destruct (Handle_set_handles cur h y w1 w') as [Hh' Hext'].
  { by rewrite Hh, Hx. }
  exists y. split; [done|]. split; [congruence|]. by eapply extends_trans.
Qed.

Lemma run_task_cases cur w w' :
  run_task cur w = Ok () w' →
  (queue w cur = [] ∧ w' = w)
  ∨ ∃ f q, queue w cur = f :: q
           ∧ (Closure_Run cur f;; Closure_drop cur f) (with_queue cur q w)
             = Ok () w'.
Proof.
  unfold run_task, mbind at 1, M_bind at 1, pop_task.
  destruct (queue w cur) as [|f q].
  - ok_inv. by left.
  - intros H. right. by exists f, q.
Qed.

Lemma quiet_run_closure cur f :
  preserves quiet (Closure_Run cur f;; Closure_drop cur f).
Proof.
  apply quiet_bind; [apply quiet_Closure_Run|].
  intros _. apply quiet_Closure_drop.
Qed.

(** No operation other than [Reset], destruction and assignment changes a
    handle variable. *)
Lemma step_handles w cur a w' h x :
  step w cur a w' → handles w !! h = Some x →
  a ≠ ActReset h → a ≠ ActDestroy h → (∀ src, a ≠ ActAssign h src) →
  handles w' !! h = Some x.
Proof.
  unfold step. intros Hstep Hx HnR HnD HnA.
  destruct a; simpl in Hstep.
  - apply void_Ok in Hstep as [r H].
    apply Handle_default_handles in H as [-> _]. by apply lookup_app_l_Some.
  - apply void_Ok in Hstep as [r H]. rewrite MakeWeakHandle_Ok in H.
    simplify_eq. simpl. by apply lookup_app_l_Some.
  - apply void_Ok in Hstep as [r H].
    apply Handle_copy_handles in H as (y & _ & -> & _).
    by apply lookup_app_l_Some.
  - apply Handle_assign_handles in Hstep as (y & _ & -> & _).
    rewrite list_lookup_insert_ne; [done|]. intros ->. by destruct (HnA src).
  - apply Handle_unset_handles in Hstep as [-> _].
    rewrite list_lookup_insert_ne; [done|]. congruence.
  - apply Handle_unset_handles in Hstep as [-> _].
    rewrite list_lookup_insert_ne; [done|]. congruence.
  - apply void_Ok in Hstep as [r H].
    apply quiet_Handle_Get in H as [_ ->]. done.
  - apply quiet_Handle_Call in Hstep as [_ ->]. done.
  - apply run_task_cases in Hstep as [[_ ->]|(f & q & _ & H)]; [done|].
    apply quiet_run_closure in H as [_ ->]. done.
  - unfold destroy_target in Hstep. by simplify_eq.
Qed.

Lemma step_pre_extends w cur a w' :
  step w cur a w' → extends (pre_step w cur a) w'.
Proof.
  unfold step. intros Hstep. destruct a; simpl in *.
  - apply void_Ok in Hstep as [r H]. by apply Handle_default_handles in H as [_ ?].
  - apply void_Ok in Hstep as [r H]. unfold MakeWeakHandle, Handle.new in H.
    apply bind_Ok_inv in H as (c & w1 & Hnew & H).
    apply bind_Ok_inv in H as ([] & w2 & Hadd & H).
    apply quiet_Core_new in Hnew as [Hnew _].
    apply quiet_AddRef in Hadd as [Hadd _].
    apply Handle_push_handles in H as (_ & _ & Hpush).
    eapply extends_trans; [|exact Hpush]. by eapply extends_trans.
  - apply void_Ok in Hstep as [r H].
    by apply Handle_copy_handles in H as (y & _ & _ & _ & ?).
  - by apply Handle_assign_handles in Hstep as (y & _ & _ & ?).
  - by apply Handle_unset_handles in Hstep as [_ ?].
  - by apply Handle_unset_handles in Hstep as [_ ?].
  - apply void_Ok in Hstep as [r H]. by apply quiet_Handle_Get in H as [? _].
  - by apply quiet_Handle_Call in Hstep as [? _].
  - apply run_task_cases in Hstep as [[Hq ->]|(f & q & Hq & H)].
    + rewrite Hq. simpl. split; simpl; try done.
      * intros a _. by left.
      * intros c k' _ Hk'. by exists k'.
      * intros t. exists []. rewrite app_nil_r, queue_with_queue.
        case_decide; [by subst|done].
    + rewrite Hq. simpl. by apply quiet_run_closure in H as [? _].
  - by apply quiet_destroy_target in Hstep as [? _].
Qed.

Lemma queue_pre_step w cur a o :
  queue (pre_step w cur a) o
  = if decide ((cur, a) = (o, ActRunTask)) then tail (queue w o)
    else queue w o.
Proof.
  destruct a; simpl; try (by rewrite decide_False by congruence).
  rewrite queue_with_queue. repeat case_decide; simplify_eq; done.
Qed.

(** A core that lives after a step lived before it, unchanged, and so did
    its weak pointer. *)
Lemma step_bound_alive w cur a w' c o ptr p :
  wf w → step w cur a w' → bound c o ptr p w →
  is_Some (cores w' !! c) → bound c o ptr p w'.
Proof.
  intros Hwf Hstep (k & Hk & Ho & Hp & Hptr) [k' Hk'].
  pose proof (step_wf _ _ _ _ Hwf Hstep) as Hwf'.
  pose proof (step_pre_extends _ _ _ _ Hstep) as Hext.
  assert (c < next_core w) as Hc.
  { destruct (decide (c < next_core w)); [done|].
    rewrite (wf_core_fresh _ _ Hwf c) in Hk by lia. done. }
  assert (ptr < next_ptr w) as Ha.
  { destruct (decide (ptr < next_ptr w)); [done|].
    destruct (wf_ptr_fresh _ _ Hwf ptr) as [Hn _]; [lia|]. congruence. }
  assert (next_core (pre_step w cur a) = next_core w) as Enc by by destruct a.
  assert (next_ptr (pre_step w cur a) = next_ptr w) as Enp by by destruct a.
  assert (cores (pre_step w cur a) = cores w) as Ec by by destruct a.
  assert (weak_ptrs (pre_step w cur a) = weak_ptrs w) as Eh by by destruct a.
  destruct (ext_core _ _ Hext c k') as (k0 & Hk0 & Ho0 & Hp0);
    [by rewrite Enc|done|].
  rewrite Ec in Hk0. simplify_eq.
  exists k'. split; [done|]. split; [done|]. split; [done|].
  destruct (wf_core_ptr _ _ Hwf' c k' Hk') as [[p' Hp'] _].
  destruct (ext_ptr _ _ Hext (ptr_ k)) as [E|E]; [by rewrite Enp| |].
  - rewrite Eh in E. congruence.
  - rewrite <- Hp0 in E. congruence.
Qed.

(** A queued call keeps its core alive and unchanged. *)
Lemma step_bound w cur a w' c inv o ptr p :
  wf w → step w cur a w' → bound c o ptr p w →
  BindDoCall c inv ∈ queue w' o → bound c o ptr p w'.
Proof.
  intros Hwf Hstep Hbound Hin. eapply step_bound_alive; [done..|].
  pose proof (step_wf _ _ _ _ Hwf Hstep) as Hwf'.
  destruct (wf_closure_core _ _ Hwf' o c inv Hin) as (k' & Hk' & _).
  by exists k'.
Qed.

(** Cores are never brought back. *)
Lemma step_core_back w cur a w' c :
  step w cur a w' → c < next_core w →
  is_Some (cores w' !! c) → is_Some (cores w !! c).
Proof.
  intros Hstep Hc [k' Hk'].
  pose proof (step_pre_extends _ _ _ _ Hstep) as Hext.
  destruct (ext_core _ _ Hext c k') as (k0 & Hk0 & _);
    [by destruct a|done|].
  exists k0. by destruct a.
Qed.

Lemma step_next_core w cur a w' :
  step w cur a w' → next_core w ≤ next_core w'.
Proof.
  intros Hstep. pose proof (step_pre_extends _ _ _ _ Hstep) as Hext.
  pose proof (ext_next_core _ _ Hext). by destruct a.
Qed.

Lemma run_core_back sched : ∀ w w' c,
  run sched w = Ok () w' → c < next_core w →
  is_Some (cores w' !! c) → is_Some (cores w !! c).
Proof.
  induction sched as [|[cur a] rest IH]; intros w w' c Hrun Hc Hlive.
  - simpl in Hrun. unfold mret, M_ret in Hrun. by simplify_eq.
  - apply run_cons in Hrun as (w1 & Hstep & Hrun).
    eapply step_core_back; [done..|].
    eapply IH; [done| |done].
    pose proof (step_next_core _ _ _ _ Hstep). lia.
Qed.

(** As long as a core lives, its owner thread, its weak pointer and what the
    weak pointer holds stay as they were made. *)
Lemma run_bound c o ptr p sched : ∀ w w',
  wf w → bound c o ptr p w → run sched w = Ok () w' →
  is_Some (cores w' !! c) → bound c o ptr p w'.
Proof.
  induction sched as [|[cur a] rest IH]; intros w w' Hwf Hbound Hrun Hlive.
  - simpl in Hrun. unfold mret, M_ret in Hrun. by simplify_eq.
  - apply run_cons in Hrun as (w1 & Hstep & Hrun).
    assert (c < next_core w) as Hc.
    { destruct Hbound as (k & Hk & _).
      destruct (decide (c < next_core w)); [done|].
      rewrite (wf_core_fresh _ _ Hwf c) in Hk by lia. done. }
    eapply IH; [by eapply step_wf| |done..].
    eapply step_bound_alive; [done..|].
    eapply run_core_back; [done| |done].
    pose proof (step_next_core _ _ _ _ Hstep). lia.
Qed.

(** A queued task moves one place forward each time the loop of its thread
    runs a task, and stays where it is otherwise. *)
Lemma step_pending w cur a w' f o n :
  step w cur a w' → pending f o n w →
  if decide ((cur, a) = (o, ActRunTask))
  then ∀ m, n = S m → pending f o m w'
  else pending f o n w'.
Proof.
  intros Hstep (q & r & Hq & Hn).
  pose proof (step_pre_extends _ _ _ _ Hstep) as Hext.
  destruct (ext_queue _ _ Hext o) as [more Hmore].
  rewrite queue_pre_step in Hmore. case_decide as Hrun.
  - intros m ->. destruct q as [|f0 q]; [done|]. simpl in *.
    rewrite Hq in Hmore. simpl in Hmore.
    exists q, (r ++ more). split; [|lia].
    by rewrite Hmore, <- app_assoc.
  - exists q, (r ++ more). split; [|done].
    by rewrite Hmore, Hq, <- app_assoc.
Qed.

Lemma runs_of_cons o s sched :
  runs_of o (s :: sched)
  = (if decide (s = (o, ActRunTask)) then 1 else 0) + runs_of o sched.
Proof. unfold runs_of. rewrite filter_cons. by case_decide. Qed.

Lemma pending_elem f o n w : pending f o n w → f ∈ queue w o.
Proof.
  intros (q & r & -> & _). apply elem_of_app. right. left.
Qed.

Lemma run_pending c inv o ptr p sched : ∀ w w3 n,
  wf w → pending (BindDoCall c inv) o n w → bound c o ptr p w →
  run sched w = Ok () w3 → runs_of o sched ≤ n →
  pending (BindDoCall c inv) o (n - runs_of o sched) w3
  ∧ bound c o ptr p w3.
Proof.
  induction sched as [|[cur a] rest IH]; intros w w3 n Hwf Hpend Hbound Hrun Hn.
  - simpl in Hrun. unfold mret, M_ret in Hrun. simplify_eq.
    by rewrite Nat.sub_0_r.
  - apply run_cons in Hrun as (w1 & Hstep & Hrun).
    rewrite runs_of_cons in *.
    pose proof (step_pending _ _ _ _ _ _ _ Hstep Hpend) as Hp1.
    pose proof (step_wf _ _ _ _ Hwf Hstep) as Hwf1.
    destruct (decide ((cur, a) = (o, ActRunTask))) as [Hd|Hd].
    + destruct n as [|m]; [lia|]. specialize (Hp1 m eq_refl).
      assert (bound c o ptr p w1) as Hb1.
      { eapply (step_bound w cur a w1 c inv); [done..|].
        by eapply pending_elem. }
      destruct (IH w1 w3 m Hwf1 Hp1 Hb1 Hrun) as [Hp3 Hb3]; [lia|].
      by replace (S m - (1 + runs_of o rest)) with (m - runs_of o rest) by lia.
    + assert (bound c o ptr p w1) as Hb1.
      { eapply (step_bound w cur a w1 c inv); [done..|].
        by eapply pending_elem. }
      destruct (IH w1 w3 n Hwf1 Hp1 Hb1 Hrun) as [Hp3 Hb3]; [lia|].
      by replace (n - (0 + runs_of o rest)) with (n - runs_of o rest) by lia.
Qed.

Lemma Release_not_Fatal cur c w : Core.Release cur c w ≠ Fatal.
Proof.
  unfold Core.Release, Core.destroy, Core.DeleteOnOwnerThread, DeleteSoon,
    PostTask, delete_ptr, free_core, set_core, undef, mbind, M_bind, get_core.
  destruct (cores w !! c) as [k|]; [|done].
  destruct (ref_count k) as [|[|n]]; [done| |done].
  destruct (cores w !! c) as [k'|]; [|done].
  destruct (Core.IsOnOwnerThread cur k'); [|done].
  by destruct (weak_ptrs w !! ptr_ k').
Qed.

Lemma invocations_app tr1 tr2 :
  invocations (tr1 ++ tr2) = invocations tr1 ++ invocations tr2.
Proof. unfold invocations. apply omap_app. Qed.

(** Releasing a reference on the owner thread posts nothing and calls no
    member. *)
Lemma Release_on_owner c k w w' :
  cores w !! c = Some k →
  Core.Release (message_loop_proxy_ k) c w = Ok () w' →
  queues w' = queues w ∧ invocations (trace w') = invocations (trace w).
Proof.
  intros Hk.
  unfold Core.Release, Core.destroy, Core.DeleteOnOwnerThread,
    delete_ptr, free_core, set_core, undef, mbind, M_bind, get_core.
  rewrite Hk. destruct (ref_count k) as [|[|n]]; [done| |].
  - rewrite Hk, IsOnOwnerThread_owner.
    destruct (weak_ptrs w !! ptr_ k); [|done].
    intros ?; simplify_eq. simpl. split; [done|].
    by rewrite invocations_app, app_nil_r.
  - by intros ?; simplify_eq.
Qed.

(** When a bound call reaches the head of the owner's queue and its target
    is alive, the next task the owner's loop runs calls the member, once,
    with the bound arguments, and takes the call off the queue. *)
Lemma run_head_call c inv o ptr p g r w :
  wf w → queue w o = BindDoCall c inv :: r → bound c o ptr p w →
  resolve (destroyed w) p = Some g →
  ∃ w', step w o ActRunTask w'
        ∧ queue w' o = r
        ∧ invocations (trace w')
          = invocations (trace w) ++ [(o, g, inv_member inv, inv_args inv)].
Proof.
  intros Hwf Hq (k & Hk & <- & <- & Hp) Hg.
  destruct (wfx_pop [] _ _ _ _ Hwf Hq) as [Hwf1 _].
  set (w1 := with_queue (message_loop_proxy_ k) r w) in *.
  pose proof (DoCallN_owner c k p (inv_member inv) (inv_args inv) w1 Hk Hp)
    as Hrun.
  simpl in Hrun. rewrite Hg in Hrun.
  set (w2 := with_event _ (with_event _ w1)) in Hrun.
  assert (wfx [c] w2) as Hwf2.
  { apply wfx_with_event_invoke, wfx_with_event_access; [done|].
    by destruct (wf_core_ptr _ _ Hwf c k Hk). }
  pose proof (hoare_Release [] (message_loop_proxy_ k) c w2 Hwf2) as Hrel.
  pose proof (Release_not_Fatal (message_loop_proxy_ k) c w2) as Hnf.
  destruct (Core.Release (message_loop_proxy_ k) c w2) as [[] w3| |] eqn:E;
    [|done..].
  destruct (Release_on_owner c k w2 w3 Hk E) as [Hqs Htr].
  exists w3. split; [|split].
  - unfold step. simpl. unfold run_task.
    rewrite (bind_Ok _ _ w (Some (BindDoCall c inv)) w1);
      [|by unfold pop_task; rewrite Hq].
    rewrite (bind_Ok _ _ w1 () w2); [done|].
    by rewrite Closure_Run_DoCallN.
  - unfold queue. rewrite Hqs. simpl. by rewrite lookup_insert_eq.
  - rewrite Htr. simpl. rewrite !invocations_app. simpl.
    by rewrite app_nil_r.
Qed.

(** ** What [Call] does *)

Lemma Handle_Call_bound cur h c inv w :
  handles w !! h = Some {| core_ := Some c |} →
  Handle.Call cur h inv w = Core_Call cur c inv w.
Proof.
  intros Hh. unfold Handle.Call.
  rewrite (bind_Ok _ _ w {| core_ := Some c |} w);
    [|by unfold Handle.get_handle; rewrite Hh].
  rewrite (bind_Ok _ _ w () w); [|done].
  by rewrite (bind_Ok _ _ w c w).
Qed.

Lemma Core_Call_foreign cur c k inv w :
  cores w !! c = Some k → cur ≠ message_loop_proxy_ k →
  Core_Call cur c inv w
  = Ok () (with_queue (message_loop_proxy_ k)
             (queue w (message_loop_proxy_ k) ++ [BindDoCall c inv])
             (with_cores
                (<[c := {| message_loop_proxy_ := message_loop_proxy_ k;
                           ptr_ := ptr_ k;
                           ref_count := S (ref_count k) |}]> (cores w)) w)).
Proof.
  intros Hk Hcur. unfold Core_Call, Bind, Core.AddRef.
  unfold mbind, M_bind, get_core. repeat (rewrite Hk; simpl).
  unfold PostOnOwnerThread. by rewrite IsOnOwnerThread_foreign.
Qed.

Lemma Core_Call_owner c k p inv w :
  cores w !! c = Some k → 0 < ref_count k →
  weak_ptrs w !! ptr_ k = Some p →
  Core_Call (message_loop_proxy_ k) c inv w
  = Ok () (match resolve (destroyed w) p with
           | None =>
               with_event
                 (EvAccess AccRead (ptr_ k) (message_loop_proxy_ k)) w
           | Some g =>
               with_event
                 (EvInvoke (message_loop_proxy_ k) g
                    (inv_member inv) (inv_args inv))
                 (with_event
                    (EvAccess AccRead (ptr_ k) (message_loop_proxy_ k)) w)
           end).
Proof.
  intros Hk Hpos Hp.
  set (k' := {| message_loop_proxy_ := message_loop_proxy_ k;
                ptr_ := ptr_ k; ref_count := S (ref_count k) |}).
  set (wa := with_cores (<[c := k']> (cores w)) w).
  assert (cores wa !! c = Some k') as Hk' by (simpl; by rewrite lookup_insert_eq).
  pose proof (DoCallN_owner c k' p (inv_member inv) (inv_args inv) wa Hk' Hp)
    as Hrun.
  simpl in Hrun.
  unfold Core_Call.
  rewrite (bind_Ok _ _ w k w); [|by unfold get_core; rewrite Hk].
  rewrite (bind_Ok _ _ w (BindDoCall c inv) wa).
  2:{ unfold Bind, Core.AddRef, mbind, M_bind, get_core. by rewrite Hk. }
  unfold PostOnOwnerThread. rewrite IsOnOwnerThread_owner.
  rewrite Closure_Run_DoCallN. unfold mbind at 1, M_bind at 1. rewrite Hrun.
  assert (<[c := k]> (<[c := k']> (cores w)) = cores w) as Hback.
  { rewrite insert_insert_eq. by apply insert_id. }
  assert ({| message_loop_proxy_ := message_loop_proxy_ k; ptr_ := ptr_ k;
             ref_count := ref_count k |} = k) as Heta by by destruct k.
  destruct (ref_count k) as [|n] eqn:Hn; [lia|].
  destruct (resolve (destroyed w) p) as [g|]; simpl;
    unfold Core.Release, mbind, M_bind, get_core; simpl;
    rewrite lookup_insert_eq; simpl; unfold set_core; simpl;
    rewrite Heta, Hback; by destruct w.
Qed.

Lemma handle_refs_pos c hs x :
  x ∈ hs → core_ x = Some c → 0 < handle_refs c hs.
Proof.
  intros Hx Hc. destruct (handle_refs c hs) eqn:E; [|lia].
  by destruct (handle_refs_zero c hs x E Hx).
Qed.

(** Behind a bound handle of a well-formed world there is a living core,
    counted at least once, whose weak pointer is on the heap. *)
Lemma bound_handle_core w h c :
  wf w → handles w !! h = Some {| core_ := Some c |} →
  ∃ k p, cores w !! c = Some k ∧ 0 < ref_count k
         ∧ weak_ptrs w !! ptr_ k = Some p.
Proof.
  intros Hwf Hh.
  assert ({| core_ := Some c |} ∈ handles w) as Hin
    by by eapply list_elem_of_lookup_2.
  destruct (wf_handle_core _ _ Hwf _ c Hin eq_refl) as [k Hk].
  destruct (wf_core_ptr _ _ Hwf c k Hk) as [[p Hp] _].
  exists k, p. split; [done|]. split; [|done].
  rewrite (wf_count _ _ Hwf c k Hk).
  pose proof (handle_refs_pos c _ _ Hin eq_refl). lia.
Qed.

(** C5.  On a bound handle, a [Call] made from the owner thread is
    dispatched in place: it reads the weak pointer and, if the target is
    alive, calls the member, before it returns; no queue changes.  A [Call]
    made from any other thread runs nothing: it appends the bound call to
    the owner thread's queue and to no other. *)
Theorem call_in_place_on_owner_posted_otherwise cur h c inv w :
  reachable w →
  handles w !! h = Some {| core_ := Some c |} →
  ∃ k p,
    cores w !! c = Some k ∧ weak_ptrs w !! ptr_ k = Some p
    ∧ (cur = message_loop_proxy_ k →
       ∃ w', Handle.Call cur h inv w = Ok () w'
             ∧ queues w' = queues w
             ∧ trace w'
               = trace w ++ EvAccess AccRead (ptr_ k) cur
                   :: match resolve (destroyed w) p with
                      | Some g =>
                          [EvInvoke cur g (inv_member inv) (inv_args inv)]
                      | None => []
                      end)
    ∧ (cur ≠ message_loop_proxy_ k →
       ∃ w', Handle.Call cur h inv w = Ok () w'
             ∧ trace w' = trace w
             ∧ queue w' (message_loop_proxy_ k)
               = queue w (message_loop_proxy_ k) ++ [BindDoCall c inv]
             ∧ ∀ t, t ≠ message_loop_proxy_ k → queue w' t = queue w t).
Proof.
  intros Hreach Hh.
  destruct (bound_handle_core w h c (reachable_wf _ Hreach) Hh)
    as (k & p & Hk & Hpos & Hp).
  exists k, p. split; [done|]. split; [done|]. split.
  - intros ->. rewrite (Handle_Call_bound _ h c) by done.
    rewrite (Core_Call_owner c k p) by done.
    eexists. split; [done|].
    destruct (resolve (destroyed w) p); simpl; [|done].
    by rewrite <- app_assoc.
  - intros Hcur. rewrite (Handle_Call_bound _ h c) by done.
    rewrite (Core_Call_foreign cur c k) by done.
    eexists. split; [done|]. split; [done|]. split.
    + by rewrite queue_with_queue_eq.
    + intros t Ht. by rewrite queue_with_queue_ne.
Qed.

(** ** A call from another thread *)

(** C6.  A [Call] made on a bound handle from a thread other than the owner
    returns at once, having run nothing: the bound call, with the member
    and the arguments as given, is appended to the owner thread's queue.
    From then on, whatever the threads do, the call stays queued, one place
    further forward for each task the owner's loop runs; when the owner's
    loop has run the tasks that were ahead of it and the target is still
    alive, the next task the loop runs is this call: it executes on the
    owner thread, calls the member once with the arguments that were
    supplied, and leaves the queue. *)
Theorem foreign_call_runs_once_on_owner cur h c k p g inv w :
  reachable w →
  handles w !! h = Some {| core_ := Some c |} →
  cores w !! c = Some k →
  cur ≠ message_loop_proxy_ k →
  weak_ptrs w !! ptr_ k = Some p →
  wp_target p = Some g →
  ∃ w1,
    Handle.Call cur h inv w = Ok () w1
    ∧ trace w1 = trace w
    ∧ queue w1 (message_loop_proxy_ k)
      = queue w (message_loop_proxy_ k) ++ [BindDoCall c inv]
    ∧ ∀ sched w2,
        run sched w1 = Ok () w2 →
        (runs_of (message_loop_proxy_ k) sched
           ≤ length (queue w (message_loop_proxy_ k)) →
         pending (BindDoCall c inv) (message_loop_proxy_ k)
           (length (queue w (message_loop_proxy_ k))
            - runs_of (message_loop_proxy_ k) sched) w2)
        ∧ (runs_of (message_loop_proxy_ k) sched
             = length (queue w (message_loop_proxy_ k)) →
           g ∉ destroyed w2 →
           ∃ rest w3,
             queue w2 (message_loop_proxy_ k) = BindDoCall c inv :: rest
             ∧ step w2 (message_loop_proxy_ k) ActRunTask w3
             ∧ queue w3 (message_loop_proxy_ k) = rest
             ∧ invocations (trace w3)
               = invocations (trace w2)
                 ++ [(message_loop_proxy_ k, g, inv_member inv,
                      inv_args inv)]).
Proof.
  intros Hreach Hh Hk Hcur Hp Hg.
  pose proof (reachable_wf _ Hreach) as Hwf.
  set (o := message_loop_proxy_ k).
  pose proof (Handle_Call_bound cur h c inv w Hh) as Hcall.
  rewrite (Core_Call_foreign cur c k) in Hcall by done.
  set (w1 := with_queue _ _ _) in Hcall. exists w1.
  assert (wf w1) as Hwf1.
  { apply (step_wf w cur (ActCall h inv)); done. }
  assert (pending (BindDoCall c inv) o (length (queue w o)) w1) as Hpend.
  { exists (queue w o), []. split; [|done].
    unfold w1. by rewrite queue_with_queue_eq. }
  assert (bound c o (ptr_ k) p w1) as Hbound.
  { eexists. split; [simpl; by rewrite lookup_insert_eq|]. done. }
  split; [done|]. split; [done|].
  split; [unfold w1; by rewrite queue_with_queue_eq|].
  intros sched w2 Hrun. split.
  - intros Hn.
    by destruct (run_pending c inv o (ptr_ k) p sched w1 w2 _
                   Hwf1 Hpend Hbound Hrun Hn).
  - intros Hn Halive.
    destruct (run_pending c inv o (ptr_ k) p sched w1 w2 _
                Hwf1 Hpend Hbound Hrun) as [Hp2 Hb2]; [lia|].
    rewrite Hn, Nat.sub_diag in Hp2.
    destruct Hp2 as (q & rest & Hq & Hlen).
    destruct q; [|done]. simpl in Hq.
    pose proof (run_wf _ _ _ Hwf1 Hrun) as Hwf2.
    destruct (run_head_call c inv o (ptr_ k) p g rest w2 Hwf2 Hq Hb2)
      as (w3 & Hstep & Hq3 & Htr).
    { unfold resolve. rewrite Hg. by rewrite decide_False. }
    by exists rest, w3.
Qed.

(** ** The end of a core *)

Lemma Release_last cur c k w :
  cores w !! c = Some k → ref_count k = 1 →
  Core.Release cur c w = Core.destroy cur c w.
Proof.
  intros Hk Hone. unfold Core.Release.
  rewrite (bind_Ok _ _ w k w); [|by unfold get_core; rewrite Hk].
  by rewrite Hone.
Qed.

Lemma destroy_on_owner c k p w :
  cores w !! c = Some k → weak_ptrs w !! ptr_ k = Some p →
  Core.destroy (message_loop_proxy_ k) c w
  = Ok () (with_cores (delete c (cores w))
             (with_event
                (EvAccess AccDelete (ptr_ k) (message_loop_proxy_ k))
                (with_weak_ptrs (delete (ptr_ k) (weak_ptrs w)) w))).
Proof.
  intros Hk Hp.
  unfold Core.destroy, Core.DeleteOnOwnerThread, delete_ptr,
    free_core, mbind, M_bind, get_core.
  rewrite Hk, IsOnOwnerThread_owner, Hp. done.
Qed.

Lemma destroy_foreign cur c k w :
  cores w !! c = Some k → cur ≠ message_loop_proxy_ k →
  Core.destroy cur c w
  = Ok () (with_cores (delete c (cores w))
             (with_queue (message_loop_proxy_ k)
                (queue w (message_loop_proxy_ k) ++ [DeleteTask (ptr_ k)])
                w)).
Proof.
  intros Hk Hcur.
  unfold Core.destroy, Core.DeleteOnOwnerThread, DeleteSoon,
    PostTask, free_core, mbind, M_bind, get_core.
  rewrite Hk, IsOnOwnerThread_foreign by done. done.
Qed.

Lemma run_task_delete o a p rest w :
  weak_ptrs w !! a = Some p → queue w o = DeleteTask a :: rest →
  run_task o w
  = Ok () (with_event (EvAccess AccDelete a o)
             (with_weak_ptrs (delete a (weak_ptrs w)) (with_queue o rest w))).
Proof.
  intros Hp Hq. unfold run_task, pop_task, mbind, M_bind. rewrite Hq.
  simpl. unfold delete_ptr. simpl. by rewrite Hp.
Qed.

(** C3.  Releasing the last reference to a core runs its destructor, on the
    releasing thread.  If that is the owner thread, the weak pointer is
    deleted there and then.  If it is another thread, the weak pointer is
    not touched: it stays on the heap, and its deletion is appended to the
    owner thread's queue and to no other; when the owner's loop runs that
    task, the weak pointer is deleted, on the owner thread. *)
Theorem core_end_deletes_on_owner_or_defers cur c k p w :
  cores w !! c = Some k →
  weak_ptrs w !! ptr_ k = Some p →
  (ref_count k = 1 → Core.Release cur c w = Core.destroy cur c w)
  ∧ (cur = message_loop_proxy_ k →
     ∃ w', Core.destroy cur c w = Ok () w'
           ∧ cores w' !! c = None
           ∧ weak_ptrs w' = delete (ptr_ k) (weak_ptrs w)
           ∧ trace w' = trace w ++ [EvAccess AccDelete (ptr_ k) cur]
           ∧ queues w' = queues w)
  ∧ (cur ≠ message_loop_proxy_ k →
     ∃ w', Core.destroy cur c w = Ok () w'
           ∧ cores w' !! c = None
           ∧ weak_ptrs w' = weak_ptrs w
           ∧ trace w' = trace w
           ∧ queue w' (message_loop_proxy_ k)
             = queue w (message_loop_proxy_ k) ++ [DeleteTask (ptr_ k)]
           ∧ (∀ t, t ≠ message_loop_proxy_ k → queue w' t = queue w t)
           ∧ ∀ w3 p3 rest,
               weak_ptrs w3 !! ptr_ k = Some p3 →
               queue w3 (message_loop_proxy_ k)
                 = DeleteTask (ptr_ k) :: rest →
               ∃ w4, run_task (message_loop_proxy_ k) w3 = Ok () w4
                     ∧ weak_ptrs w4 !! ptr_ k = None
                     ∧ trace w4
                       = trace w3
                         ++ [EvAccess AccDelete (ptr_ k)
                               (message_loop_proxy_ k)]).
Proof.
  intros Hk Hp. split; [by apply Release_last|]. split.
  - intros ->. rewrite (destroy_on_owner c k p) by done.
    eexists. split; [done|]. simpl. by rewrite lookup_delete_eq.
  - intros Hcur. rewrite (destroy_foreign cur c k) by done.
    eexists. split; [done|]. simpl.
    split; [by rewrite lookup_delete_eq|].
    split; [done|]. split; [done|].
    split; [|split].
    + unfold queue. simpl. by rewrite lookup_insert_eq.
    + intros t Ht. unfold queue. simpl. by rewrite lookup_insert_ne.
    + intros w3 p3 rest Hp3 Hq3.
      rewrite (run_task_delete _ _ p3 rest) by done.
      eexists. split; [done|]. simpl. by rewrite lookup_delete_eq.
Qed.

(** ** Thread affinity of the weak pointer *)

Lemma step_ptr_owner w cur act w' a t :
  wf w → step w cur act w' →
  ptr_owner w !! a = Some t → ptr_owner w' !! a = Some t.
Proof.
  intros Hwf Hstep Ha.
  pose proof (step_pre_extends _ _ _ _ Hstep) as Hext.
  assert (a < next_ptr w) as Hlt.
  { destruct (decide (a < next_ptr w)); [done|].
    destruct (wf_ptr_fresh _ _ Hwf a) as [_ Hn]; [lia|]. congruence. }
  rewrite (ext_owner _ _ Hext a); by destruct act.
Qed.

Lemma run_ptr_owner sched : ∀ w w' a t,
  wf w → run sched w = Ok () w' →
  ptr_owner w !! a = Some t → ptr_owner w' !! a = Some t.
Proof.
  induction sched as [|[cur act] rest IH]; intros w w' a t Hwf Hrun Ha.
  - simpl in Hrun. unfold mret, M_ret in Hrun. by simplify_eq.
  - apply run_cons in Hrun as (w1 & Hstep & Hrun).
    eapply IH; [by eapply step_wf|done|]. by eapply step_ptr_owner.
Qed.

Lemma Core_Get_foreign cur c k w :
  cores w !! c = Some k → cur ≠ message_loop_proxy_ k →
  Core.Get cur c w = Fatal.
Proof.
  intros Hk Hcur. unfold Core.Get.
  rewrite (bind_Ok _ _ w k w); [|by unfold get_core; rewrite Hk].
  apply bind_Fatal. unfold CHECK. by rewrite IsOnOwnerThread_foreign.
Qed.

Lemma DeleteOnOwnerThread_foreign cur k a w :
  cur ≠ message_loop_proxy_ k →
  Core.DeleteOnOwnerThread cur k a w
  = Ok () (with_queue (message_loop_proxy_ k)
             (queue w (message_loop_proxy_ k) ++ [DeleteTask a]) w).
Proof.
  intros Hcur. unfold Core.DeleteOnOwnerThread.
  by rewrite IsOnOwnerThread_foreign.
Qed.

(** C2.  In every reachable world: each recorded touch of a heap-allocated
    weak pointer (its construction, each read, its deletion) happened on
    the thread recorded as its owner; for every living core that record is
    the core's owner thread, and it never changes afterwards; a deletion
    that is still queued sits in the queue of the owner thread; no enabled
    action leaves defined behaviour, so no weak pointer is touched after
    its deletion; and on a thread that is not the owner, [Get] and every
    dispatch stop before they read the weak pointer, and the deletion only
    queues a task for the owner thread. *)
Theorem weak_ptr_touched_only_on_owner_thread w :
  reachable w →
  (∀ k a t, EvAccess k a t ∈ trace w → ptr_owner w !! a = Some t)
  ∧ (∀ c k, cores w !! c = Some k →
            ptr_owner w !! ptr_ k = Some (message_loop_proxy_ k))
  ∧ (∀ sched w' a t, run sched w = Ok () w' →
                     ptr_owner w !! a = Some t → ptr_owner w' !! a = Some t)
  ∧ (∀ t a, DeleteTask a ∈ queue w t → ptr_owner w !! a = Some t)
  ∧ (∀ cur act, enabled act w → perform cur act w ≠ Undef)
  ∧ (∀ cur c k, cores w !! c = Some k → cur ≠ message_loop_proxy_ k →
       Core.Get cur c w = Fatal
       ∧ (∀ inv, Closure_Run cur (BindDoCall c inv) w = Fatal)
       ∧ Core.DeleteOnOwnerThread cur k (ptr_ k) w
         = Ok () (with_queue (message_loop_proxy_ k)
                    (queue w (message_loop_proxy_ k)
                     ++ [DeleteTask (ptr_ k)]) w)).
Proof.
  intros Hreach. pose proof (reachable_wf _ Hreach) as Hwf.
  split; [apply (wf_trace _ _ Hwf)|].
  split; [intros c k Hk; by destruct (wf_core_ptr _ _ Hwf c k Hk)|].
  split; [intros sched w' a t Hrun Ha; by eapply run_ptr_owner|].
  split; [intros t a Hin; by destruct (wf_delete _ _ Hwf t a Hin) as (_ & ? & _)|].
  split; [intros cur act Hen; by apply wf_no_undef|].
  intros cur c k Hk Hcur.
  split; [by eapply Core_Get_foreign|].
  split; [|by apply DeleteOnOwnerThread_foreign].
  intros inv. rewrite Closure_Run_DoCallN. by eapply DoCallN_foreign.
Qed.

(** ** The states of a handle *)

Lemma Reset_uninitialized cur h w :
  handles w !! h = Some {| core_ := None |} →
  Handle.Reset cur h w = Ok () w.
Proof.
  intros Hh. unfold Handle.Reset, Handle.set_handle, mbind, M_bind,
    Handle.get_handle.
  rewrite Hh. simpl. rewrite list_insert_id by done. by destruct w.
Qed.

Lemma Reset_not_Fatal cur h w : Handle.Reset cur h w ≠ Fatal.
Proof.
  unfold Handle.Reset, Handle.set_handle, mbind, M_bind, Handle.get_handle.
  destruct (handles w !! h) as [x|]; [|done].
  unfold Handle.ref_release. destruct (core_ x); [|done].
  apply Release_not_Fatal.
Qed.

Lemma Reset_Ok cur h w :
  wf w → h < length (handles w) →
  ∃ w', Handle.Reset cur h w = Ok () w'
        ∧ handles w' !! h = Some {| core_ := None |}.
Proof.
  intros Hwf Hh.
  pose proof (hoare_Handle_unset cur h w (conj Hwf Hh)) as Hhoare.
  pose proof (Reset_not_Fatal cur h w) as Hnf.
  change (x ← Handle.get_handle h;
          Handle.set_handle h {| core_ := None |};;
          Handle.ref_release cur x) with (Handle.Reset cur h) in Hhoare.
  destruct (Handle.Reset cur h w) as [[] w'| |] eqn:E; [|done..].
  exists w'. split; [done|].
  apply Handle_unset_handles in E as [-> _].
  by rewrite list_lookup_insert_eq.
Qed.

(** C10.  [Reset] has no failing [CHECK]: on every handle variable of a
    reachable world it returns, and leaves the handle uninitialized; a
    second [Reset] changes nothing at all, and neither does a [Reset] of a
    handle that was uninitialized to begin with. *)
Theorem Reset_returns_and_is_idempotent cur h w :
  reachable w → h < length (handles w) →
  ∃ w', Handle.Reset cur h w = Ok () w'
        ∧ (∃ x, handles w' !! h = Some x ∧ Handle.IsInitialized x = false)
        ∧ Handle.Reset cur h w' = Ok () w'
        ∧ (∀ x, handles w !! h = Some x → Handle.IsInitialized x = false →
                w' = w).
Proof.
  intros Hreach Hh. pose proof (reachable_wf _ Hreach) as Hwf.
  destruct (Reset_Ok cur h w Hwf Hh) as (w' & HR & Hh').
  exists w'. split; [done|]. split; [by eexists|].
  split; [by apply Reset_uninitialized|].
  intros [[c|]] Hx Hinit; [done|].
  rewrite Reset_uninitialized in HR by done. by simplify_eq.
Qed.

Lemma copy_Ok src x w :
  wf w → handles w !! src = Some x →
  ∃ h w', Handle.copy src w = Ok h w'
          ∧ handles w' !! h = Some x ∧ handles w' !! src = Some x.
Proof.
  intros Hwf Hx.
  assert (src < length (handles w)) as Hlt by by eapply lookup_lt_Some.
  pose proof (hoare_Handle_copy src w (conj Hwf Hlt)) as Hhoare.
  assert (Handle.copy src w ≠ Fatal) as Hnf.
  { unfold Handle.copy, mbind, M_bind, Handle.get_handle. rewrite Hx.
    unfold Handle.ref_acquire, Core.AddRef, mbind, M_bind, get_core.
    destruct (core_ x) as [c|]; [|done]. by destruct (cores w !! c). }
  destruct (Handle.copy src w) as [h w'| |] eqn:E; [|done..].
  exists h, w'. split; [done|].
  apply Handle_copy_handles in E as (y & Hy & -> & -> & _). simplify_eq.
  split; [by rewrite lookup_app_r, Nat.sub_diag|by apply lookup_app_l_Some].
Qed.

(** C7, amended.  A default-constructed handle is uninitialized; a handle
    made from a weak pointer is initialized, whatever has become of the
    target; a copy of a handle is in the state of the original and shares
    its core; [Reset] leaves a handle uninitialized; an assignment leaves
    the handle in the state of the handle assigned to it; and no step
    other than a [Reset], the destruction or an assignment of a handle
    changes that handle. *)
Theorem handle_state_machine :
  (∀ w, ∃ h w' x, Handle.default w = Ok h w' ∧ handles w' !! h = Some x
                  ∧ Handle.IsInitialized x = false)
  ∧ (∀ cur p w, ∃ h w' x, MakeWeakHandle cur p w = Ok h w'
                          ∧ handles w' !! h = Some x
                          ∧ Handle.IsInitialized x = true)
  ∧ (∀ src x w, reachable w → handles w !! src = Some x →
       ∃ h w', Handle.copy src w = Ok h w'
               ∧ handles w' !! h = Some x ∧ handles w' !! src = Some x)
  ∧ (∀ cur h w, reachable w → h < length (handles w) →
       ∃ w' x, Handle.Reset cur h w = Ok () w' ∧ handles w' !! h = Some x
               ∧ Handle.IsInitialized x = false)
  ∧ (∀ w cur h src w' y, step w cur (ActAssign h src) w' →
       handles w !! src = Some y → handles w' !! h = Some y)
  ∧ (∀ w cur a w' h x, step w cur a w' → handles w !! h = Some x →
       a ≠ ActReset h → a ≠ ActDestroy h → (∀ src, a ≠ ActAssign h src) →
       handles w' !! h = Some x).
Proof.
  split; [|split; [|split; [|split; [|split]]]].
  - intros w. eexists _, _, {| core_ := None |}.
    split; [reflexivity|]. split; [|done].
    simpl. by rewrite lookup_app_r, Nat.sub_diag.
  - intros cur p w. eexists _, _, {| core_ := Some (next_core w) |}.
    split; [apply MakeWeakHandle_Ok|]. split; [|done].
    simpl. by rewrite lookup_app_r, Nat.sub_diag.
  - intros src x w Hreach Hx. apply copy_Ok; [by apply reachable_wf|done].
  - intros cur h w Hreach Hh.
    destruct (Reset_Ok cur h w (reachable_wf _ Hreach) Hh) as (w' & HR & Hh').
    by exists w', {| core_ := None |}.
  - intros w cur h src w' y Hstep Hy.
    destruct (step_enabled _ _ _ _ Hstep) as [Hh _].
    unfold step in Hstep. simpl in Hstep.
    apply Handle_assign_handles in Hstep as (y' & Hy' & -> & _).
    simplify_eq. by rewrite list_lookup_insert_eq.
  - intros w cur a w' h x. apply step_handles.
Qed.

(** ** Construction, then [Get] *)

Lemma Handle_Get_owner h c k p w :
  handles w !! h = Some {| core_ := Some c |} →
  cores w !! c = Some k → weak_ptrs w !! ptr_ k = Some p →
  Handle.Get (message_loop_proxy_ k) h w
  = Ok p (with_event (EvAccess AccRead (ptr_ k) (message_loop_proxy_ k)) w).
Proof.
  intros Hh Hk Hp. unfold Handle.Get, Core.Get.
  rewrite (bind_Ok _ _ w {| core_ := Some c |} w);
    [|by unfold Handle.get_handle; rewrite Hh].
  rewrite (bind_Ok _ _ w () w); [|done].
  rewrite (bind_Ok _ _ w c w); [|done].
  rewrite (bind_Ok _ _ w k w); [|by unfold get_core; rewrite Hk].
  rewrite (bind_Ok _ _ w () w);
    [|by unfold CHECK; rewrite IsOnOwnerThread_owner].
  rewrite (bind_Ok _ _ w k w); [|by unfold get_core; rewrite Hk].
  rewrite (bind_Ok _ _ w () w);
    [|by unfold CHECK; rewrite IsOnOwnerThread_owner].
  unfold read_ptr. by rewrite Hp.
Qed.

(** C8.  For every weak pointer [p], [MakeWeakHandle(p)] returns an
    initialized handle, and [Get] on that handle from the constructing
    thread, which is the owner thread, returns [p]: at once, and in a
    reachable world also after any further steps of any threads that leave
    the handle bound to its core. *)
Theorem make_then_get_roundtrip cur p w :
  ∃ h w1 c,
    MakeWeakHandle cur p w = Ok h w1
    ∧ handles w1 !! h = Some {| core_ := Some c |}
    ∧ Handle.IsInitialized {| core_ := Some c |} = true
    ∧ (∃ w2, Handle.Get cur h w1 = Ok p w2)
    ∧ (reachable w →
       ∀ sched w2, run sched w1 = Ok () w2 →
                   handles w2 !! h = Some {| core_ := Some c |} →
                   ∃ w3, Handle.Get cur h w2 = Ok p w3).
Proof.
  pose proof (MakeWeakHandle_Ok cur p w) as Hmake.
  set (w1 := {| cores := _ |}) in Hmake.
  set (k := {| message_loop_proxy_ := cur; ptr_ := next_ptr w;
               ref_count := 1 |}).
  assert (handles w1 !! length (handles w)
          = Some {| core_ := Some (next_core w) |}) as Hh
    by (simpl; by rewrite lookup_app_r, Nat.sub_diag).
  assert (cores w1 !! next_core w = Some k) as Hk
    by (simpl; by rewrite lookup_insert_eq).
  assert (weak_ptrs w1 !! ptr_ k = Some p) as Hp
    by (simpl; by rewrite lookup_insert_eq).
  exists (length (handles w)), w1, (next_core w).
  split; [done|]. split; [done|]. split; [done|]. split.
  - eexists. apply (Handle_Get_owner _ _ k p w1 Hh Hk Hp).
  - intros Hreach sched w2 Hrun Hh2.
    assert (wf w1) as Hwf1.
    { apply (step_wf w cur (ActMake p)); [by apply reachable_wf|].
      unfold step. simpl. unfold void. by rewrite (bind_Ok _ _ _ _ _ Hmake). }
    pose proof (run_wf _ _ _ Hwf1 Hrun) as Hwf2.
    assert (bound (next_core w) cur (next_ptr w) p w1) as Hbound
      by by exists k.
    destruct (run_bound _ _ _ _ sched w1 w2 Hwf1 Hbound Hrun)
      as (k2 & Hk2 & Ho2 & Hp2 & Hptr2).
    { eapply (wf_handle_core _ _ Hwf2 {| core_ := Some (next_core w) |});
        [by eapply list_elem_of_lookup_2|done]. }
    rewrite <- Ho2. eexists.
    apply (Handle_Get_owner _ _ k2 p w2 Hh2 Hk2). by rewrite Hp2.
Qed.

(** ** The scenario, evaluated *)

Lemma world_after_reachable sched w :
  run sched init_world = Ok () w → reachable (world_after sched).
Proof.
  intros Hrun. unfold world_after. rewrite Hrun.
  eapply run_reachable; [apply reachable_init|exact Hrun].
Qed.

Lemma demo_bound_reachable : reachable demo_bound.
Proof. by eapply world_after_reachable; vm_compute. Qed.


Lemma demo_two_reachable : reachable demo_two.
Proof. by eapply world_after_reachable; vm_compute. Qed.

Lemma dead_target_call_is_dropped_witness :
  cores demo_dead !! 0 = Some demo_core
  ∧ resolve (destroyed demo_dead) demo_ptr = None
  ∧ ∃ w', Closure_Run 0 (BindDoCall 0 (Invoke1 "increment" 5%Z)) demo_dead
          = Ok () w'
          ∧ invocations (trace w') = invocations (trace demo_dead).
Proof.
  split; [vm_compute; reflexivity|]. split; [vm_compute; reflexivity|].
  destruct (dead_target_call_is_dropped 0 demo_core demo_ptr
              (Invoke1 "increment" 5%Z) demo_dead)
    as (w' & Hrun & _ & Htr);
    [vm_compute; reflexivity..|].
  exists w'. split; [exact Hrun|exact Htr].
Defined.

Lemma weak_ptr_touched_only_on_owner_thread_witness :
  EvAccess AccNew 0 0 ∈ trace demo_bound
  ∧ ptr_owner demo_bound !! 0 = Some 0.
Proof.
  split; [vm_compute; left|].
  destruct (weak_ptr_touched_only_on_owner_thread demo_bound
              demo_bound_reachable) as (Htrace & _).
  apply (Htrace AccNew 0 0). vm_compute. left.
Defined.

Lemma core_end_deletes_on_owner_or_defers_witness :
  cores demo_bound !! 0 = Some demo_core
  ∧ weak_ptrs demo_bound !! 0 = Some demo_ptr
  ∧ ∃ w', Core.Release 1 0 demo_bound = Ok () w'
          ∧ weak_ptrs w' = weak_ptrs demo_bound
          ∧ trace w' = trace demo_bound
          ∧ queue w' 0 = [DeleteTask 0].
Proof.
  split; [vm_compute; reflexivity|]. split; [vm_compute; reflexivity|].
  destruct (core_end_deletes_on_owner_or_defers 1 0 demo_core demo_ptr
              demo_bound) as (Hrel & _ & Hforeign);
    [vm_compute; reflexivity..|].
  destruct Hforeign as (w' & HD & _ & Hp & Htr & Hq & _);
    [vm_compute; discriminate|].
  exists w'. rewrite (Hrel eq_refl).
  split; [exact HD|]. split; [exact Hp|]. split; [exact Htr|exact Hq].
Defined.

Lemma contract_violations_halt_witness :
  handles demo_two !! 1 = Some {| core_ := None |}
  ∧ Handle.Get 0 1 demo_two = Fatal
  ∧ Handle.Call 1 1 (Invoke2 "f" 1%Z 2%Z) demo_two = Fatal
  ∧ Handle.Get 1 0 demo_two = Fatal.
Proof.
  split; [vm_compute; reflexivity|].
  destruct (contract_violations_halt 0 1 {| core_ := None |} demo_two)
    as [Huninit _]; [vm_compute; reflexivity|].
  destruct (contract_violations_halt 1 1 {| core_ := None |} demo_two)
    as [Huninit' _]; [vm_compute; reflexivity|].
  destruct (contract_violations_halt 1 0 {| core_ := Some 0 |} demo_two)
    as [_ Hforeign]; [vm_compute; reflexivity|].
  split; [apply Huninit; reflexivity|].
  split; [apply Huninit'; reflexivity|].
  apply (Hforeign 0 {| message_loop_proxy_ := 0; ptr_ := 0; ref_count := 1 |});
    [reflexivity|vm_compute; reflexivity|vm_compute; discriminate].
Defined.

Lemma call_in_place_on_owner_posted_otherwise_witness :
  handles demo_bound !! 0 = Some {| core_ := Some 0 |}
  ∧ (∃ w', Handle.Call 0 0 (Invoke1 "increment" 5%Z) demo_bound = Ok () w'
           ∧ queues w' = queues demo_bound)
  ∧ (∃ w', Handle.Call 1 0 (Invoke1 "increment" 5%Z) demo_bound = Ok () w'
           ∧ trace w' = trace demo_bound
           ∧ queue w' 0 = [BindDoCall 0 (Invoke1 "increment" 5%Z)]).
Proof.
  split; [vm_compute; reflexivity|]. split.
  - destruct (call_in_place_on_owner_posted_otherwise 0 0 0
                (Invoke1 "increment" 5%Z) demo_bound demo_bound_reachable)
      as (k & p & Hk & _ & Howner & _); [vm_compute; reflexivity|].
    vm_compute in Hk. injection Hk as <-.
    destruct Howner as (w' & HC & Hq & _); [reflexivity|].
    exists w'. split; [exact HC|exact Hq].
  - destruct (call_in_place_on_owner_posted_otherwise 1 0 0
                (Invoke1 "increment" 5%Z) demo_bound demo_bound_reachable)
      as (k & p & Hk & _ & _ & Hforeign); [vm_compute; reflexivity|].
    vm_compute in Hk. injection Hk as <-.
    destruct Hforeign as (w' & HC & Htr & Hq & _); [discriminate|].
    exists w'. split; [exact HC|]. split; [exact Htr|exact Hq].
Defined.

Lemma foreign_call_runs_once_on_owner_witness :
  ∃ w1 w3,
    Handle.Call 1 0 (Invoke1 "increment" 5%Z) demo_bound = Ok () w1
    ∧ trace w1 = trace demo_bound
    ∧ step w1 0 ActRunTask w3
    ∧ queue w3 0 = []
    ∧ invocations (trace w3)
      = invocations (trace w1) ++ [(0, 7, "increment", [5%Z])].
Proof.
  destruct (foreign_call_runs_once_on_owner 1 0 0 demo_core demo_ptr 7
              (Invoke1 "increment" 5%Z) demo_bound demo_bound_reachable)
    as (w1 & HC & Htr & Hq & Hlater);
    [vm_compute; reflexivity|vm_compute; reflexivity|vm_compute; discriminate
    |vm_compute; reflexivity|reflexivity|].
  destruct (Hlater [] w1 eq_refl) as [_ Hrun].
  destruct Hrun as (rest & w3 & Hq2 & Hstep & Hq3 & Hinv).
  { vm_compute. reflexivity. }
  { injection HC as <-. vm_compute. intros H. discriminate H. }
  exists w1, w3. split; [exact HC|]. split; [exact Htr|].
  split; [exact Hstep|]. split; [|exact Hinv].
  change (message_loop_proxy_ demo_core) with 0 in *.
  rewrite Hq3. rewrite Hq in Hq2. vm_compute in Hq2. by injection Hq2 as <-.
Defined.

(** The claim C7 as stated fails: assigning an uninitialized handle to a
    bound one takes the bound handle out of the bound state, and an
    assignment is neither a [Reset] nor the handle's destruction.  In
    [demo_two] handle 0 is bound to core 0 and handle 1 is uninitialized;
    thread 0 performs [h0 = h1]. *)
Lemma assignment_takes_handle_out_of_bound :
  reachable demo_two
  ∧ handles demo_two !! 0 = Some {| core_ := Some 0 |}
  ∧ Handle.IsInitialized {| core_ := Some 0 |} = true
  ∧ handles demo_two !! 1 = Some {| core_ := None |}
  ∧ ∃ w', step demo_two 0 (ActAssign 0 1) w'
          ∧ reachable w'
          ∧ handles w' !! 0 = Some {| core_ := None |}
          ∧ Handle.IsInitialized {| core_ := None |} = false.
Proof.
  split; [apply demo_two_reachable|].
  split; [vm_compute; reflexivity|]. split; [reflexivity|].
  split; [vm_compute; reflexivity|].
  assert (∃ w', step demo_two 0 (ActAssign 0 1) w') as [w' Hstep].
  { unfold step. vm_compute. by eexists. }
  exists w'. split; [exact Hstep|].
  split; [by eapply reachable_step; [apply demo_two_reachable|]|].
  split; [|reflexivity].
  unfold step in Hstep. vm_compute in Hstep. by injection Hstep as <-.
Qed.

Lemma handle_state_machine_witness :
  (∃ h w', Handle.copy 0 demo_two = Ok h w'
           ∧ handles w' !! h = Some {| core_ := Some 0 |}
           ∧ handles w' !! 0 = Some {| core_ := Some 0 |})
  ∧ (∃ w' x, Handle.Reset 1 0 demo_two = Ok () w'
             ∧ handles w' !! 0 = Some x ∧ Handle.IsInitialized x = false).
Proof.
  destruct handle_state_machine as (_ & _ & Hcopy & Hreset & _).
  split.
  - apply (Hcopy 0 {| core_ := Some 0 |} demo_two demo_two_reachable).
    vm_compute. reflexivity.
  - apply (Hreset 1 0 demo_two demo_two_reachable). vm_compute. lia.
Defined.

Lemma Reset_returns_and_is_idempotent_witness :
  0 < length (handles demo_bound)
  ∧ ∃ w', Handle.Reset 1 0 demo_bound = Ok () w'
          ∧ Handle.Reset 1 0 w' = Ok () w'.
Proof.
  split; [vm_compute; lia|].
  destruct (Reset_returns_and_is_idempotent 1 0 demo_bound
              demo_bound_reachable) as (w' & HR & _ & HR' & _);
    [vm_compute; lia|].
  exists w'. split; [exact HR|exact HR'].
Defined.

Lemma make_then_get_roundtrip_witness :
  ∃ h w1 w2 w3,
    MakeWeakHandle 0 demo_ptr init_world = Ok h w1
    ∧ run [(1, ActCopy 0); (1, ActCall 1 (Invoke0 "ping")); (0, ActRunTask)] w1
      = Ok () w2
    ∧ Handle.Get 0 h w2 = Ok demo_ptr w3.
Proof.
  destruct (make_then_get_roundtrip 0 demo_ptr init_world)
    as (h & w1 & c & Hmake & Hh & _ & _ & Hlater).
  rewrite MakeWeakHandle_Ok in Hmake. injection Hmake as <- <-.
  vm_compute in Hh. injection Hh as <-.
  destruct (Hlater reachable_init
              [(1, ActCopy 0); (1, ActCall 1 (Invoke0 "ping")); (0, ActRunTask)]
              (world_after [(0, ActMake demo_ptr); (1, ActCopy 0);
                            (1, ActCall 1 (Invoke0 "ping")); (0, ActRunTask)]))
    as [w3 HG]; [vm_compute; reflexivity..|].
  eexists _, _, _, w3. split; [apply MakeWeakHandle_Ok|].
  split; [vm_compute; reflexivity|exact HG].
Defined.

(** * Further properties *)

(** ** Invariants, operation by operation *)

Lemma keeps_bind {A B} (I : World → Prop) (m : M A) (f : A → M B) :
  keeps I m → (∀ a, keeps I (f a)) → keeps I (m ≫= f).
Proof.
  intros Hm Hf w b w' HI Hrun.
  apply bind_Ok_inv in Hrun as (a & w1 & Ha & Hb).
  eapply Hf; [|exact Hb]. by eapply Hm.
Qed.

Lemma keeps_ret {A} (I : World → Prop) (a : A) : keeps I (mret a).
Proof. intros w a' w' HI. by ok_inv. Qed.

Lemma keeps_undef {A} (I : World → Prop) : keeps I (@undef A).
Proof. by intros w a w' HI. Qed.

Lemma keeps_CHECK (I : World → Prop) b : keeps I (CHECK b).
Proof. intros w a w' HI. unfold CHECK. destruct b; [|done]. by ok_inv. Qed.

Lemma keeps_get_core (I : World → Prop) c : keeps I (get_core c).
Proof.
  intros w a w' HI. unfold get_core. destruct (cores w !! c); [|done].
  by ok_inv.
Qed.

Lemma keeps_get_handle (I : World → Prop) h : keeps I (Handle.get_handle h).
Proof.
  intros w a w' HI. unfold Handle.get_handle.
  destruct (handles w !! h); [|done]. by ok_inv.
Qed.

Lemma keeps_WeakPtr_get (I : World → Prop) p : keeps I (WeakPtr_get p).
Proof. intros w a w' HI. by ok_inv. Qed.

Lemma keeps_deref (I : World → Prop) x : keeps I (Handle.deref x).
Proof.
  unfold Handle.deref. destruct (core_ x); [apply keeps_ret|apply keeps_undef].
Qed.

Lemma keeps_void {A} (I : World → Prop) (m : M A) :
  keeps I m → keeps I (void m).
Proof.
  intros Hm. unfold void. apply keeps_bind; [done|].
  intros a. apply keeps_ret.
Qed.

Section Keeps.

Context (I : World → Prop).

(** What the invariant has to survive: a recount to a positive count, the
    freeing of a core, a deletion, a posting. *)
Hypothesis K_recount : ∀ w c k n,
  I w → cores w !! c = Some k →
  I (with_cores (<[c := {| message_loop_proxy_ := message_loop_proxy_ k;
                           ptr_ := ptr_ k; ref_count := S n |}]> (cores w)) w).
Hypothesis K_free : ∀ c, keeps I (free_core c).
Hypothesis K_delete : ∀ cur a, keeps I (delete_ptr cur a).
Hypothesis K_post : ∀ t f, keeps I (PostTask t f).

Lemma keeps_AddRef c : keeps I (Core.AddRef c).
Proof.
  intros w a w' HI. unfold Core.AddRef, mbind, M_bind, get_core.
  destruct (cores w !! c) as [k|] eqn:Hk; [|done].
  ok_inv. by apply K_recount.
Qed.

Lemma keeps_destroy cur c : keeps I (Core.destroy cur c).
Proof.
  unfold Core.destroy.
  apply keeps_bind; [apply keeps_get_core|]. intros k.
  apply keeps_bind; [|intros _; apply K_free].
  unfold Core.DeleteOnOwnerThread, DeleteSoon.
  destruct (Core.IsOnOwnerThread cur k); [apply K_delete|apply K_post].
Qed.

Lemma keeps_Release cur c : keeps I (Core.Release cur c).
Proof.
  intros w a w' HI. unfold Core.Release, mbind, M_bind, get_core.
  destruct (cores w !! c) as [k|] eqn:Hk; [|done].
  destruct (ref_count k) as [|[|n]]; [done| |].
  - by apply keeps_destroy.
  - ok_inv. by apply K_recount.
Qed.

Lemma keeps_ref_acquire x : keeps I (Handle.ref_acquire x).
Proof.
  unfold Handle.ref_acquire.
  destruct (core_ x); [apply keeps_AddRef|apply keeps_ret].
Qed.

Lemma keeps_ref_release cur x : keeps I (Handle.ref_release cur x).
Proof.
  unfold Handle.ref_release.
  destruct (core_ x); [apply keeps_Release|apply keeps_ret].
Qed.

Lemma keeps_Closure_drop cur f : keeps I (Closure_drop cur f).
Proof.
  destruct f; simpl; [apply keeps_Release|apply keeps_ret].
Qed.

(** The rest of what an action can do. *)
Hypothesis K_read : ∀ cur a, keeps I (read_ptr cur a).
Hypothesis K_call : ∀ cur g fn args, keeps I (call_member cur g fn args).
Hypothesis K_pop : ∀ t, keeps I (pop_task t).
Hypothesis K_make : ∀ cur p, keeps I (MakeWeakHandle cur p).
Hypothesis K_set_handle : ∀ h x, keeps I (Handle.set_handle h x).
Hypothesis K_push_handle : ∀ x, keeps I (Handle.push_handle x).
Hypothesis K_destroy_target : ∀ g, keeps I (destroy_target g).

Lemma keeps_DoCallN cur c fn args : keeps I (Core.DoCallN cur c fn args).
Proof.
  unfold Core.DoCallN.
  apply keeps_bind; [apply keeps_get_core|]. intros k.
  apply keeps_bind; [apply keeps_CHECK|]. intros _.
  apply keeps_bind; [apply K_read|]. intros p.
  apply keeps_bind; [apply keeps_WeakPtr_get|]. intros [g|].
  - apply K_call.
  - apply keeps_ret.
Qed.

Lemma keeps_Closure_Run cur f : keeps I (Closure_Run cur f).
Proof.
  destruct f as [c inv|a].
  - rewrite Closure_Run_DoCallN. apply keeps_DoCallN.
  - apply K_delete.
Qed.

Lemma keeps_Core_Call cur c inv : keeps I (Core_Call cur c inv).
Proof.
  unfold Core_Call.
  apply keeps_bind; [apply keeps_get_core|]. intros k.
  apply keeps_bind.
  { unfold Bind. apply keeps_bind; [apply keeps_AddRef|].
    intros _. apply keeps_ret. }
  intros f. unfold PostOnOwnerThread.
  destruct (Core.IsOnOwnerThread cur k); [|apply K_post].
  apply keeps_bind; [apply keeps_Closure_Run|].
  intros _. apply keeps_Closure_drop.
Qed.

Lemma keeps_perform cur a : keeps I (perform cur a).
Proof.
  destruct a; simpl.
  - apply keeps_void, K_push_handle.
  - apply keeps_void, K_make.
  - apply keeps_void. unfold Handle.copy.
    apply keeps_bind; [apply keeps_get_handle|]. intros x.
    apply keeps_bind; [apply keeps_ref_acquire|]. intros _.
    apply K_push_handle.
  - unfold Handle.assign.
    apply keeps_bind; [apply keeps_get_handle|]. intros y.
    apply keeps_bind; [apply keeps_get_handle|]. intros x.
    apply keeps_bind; [apply keeps_ref_acquire|]. intros _.
    apply keeps_bind; [apply K_set_handle|]. intros _.
    apply keeps_ref_release.
  - unfold Handle.destroy.
    apply keeps_bind; [apply keeps_get_handle|]. intros x.
    apply keeps_bind; [apply K_set_handle|]. intros _.
    apply keeps_ref_release.
  - unfold Handle.Reset.
    apply keeps_bind; [apply keeps_get_handle|]. intros x.
    apply keeps_bind; [apply K_set_handle|]. intros _.
    apply keeps_ref_release.
  - apply keeps_void. unfold Handle.Get, Core.Get.
    apply keeps_bind; [apply keeps_get_handle|]. intros x.
    apply keeps_bind; [apply keeps_CHECK|]. intros _.
    apply keeps_bind; [apply keeps_deref|]. intros c.
    apply keeps_bind; [apply keeps_get_core|]. intros k.
    apply keeps_bind; [apply keeps_CHECK|]. intros _.
    apply keeps_bind; [apply keeps_get_core|]. intros k'.
    apply keeps_bind; [apply keeps_CHECK|]. intros _.
    apply K_read.
  - unfold Handle.Call.
    apply keeps_bind; [apply keeps_get_handle|]. intros x.
    apply keeps_bind; [apply keeps_CHECK|]. intros _.
    apply keeps_bind; [apply keeps_deref|]. intros c.
    apply keeps_Core_Call.
  - unfold run_task.
    apply keeps_bind; [apply K_pop|]. intros [f|]; [|apply keeps_ret].
    apply keeps_bind; [apply keeps_Closure_Run|].
    intros _. apply keeps_Closure_drop.
  - apply K_destroy_target.
Qed.

Lemma keeps_reachable w : I init_world → reachable w → I w.
Proof.
  intros Hinit. induction 1 as [|w cur a w' _ IH Hstep]; [done|].
  by eapply keeps_perform.
Qed.

End Keeps.

(** ** Holders and counts *)

Lemma counted_same_cores w w' : cores w' = cores w → counted w → counted w'.
Proof. intros E H c k. rewrite E. apply H. Qed.

Lemma keeps_same_cores {A} (m : M A) :
  (∀ w a w', m w = Ok a w' → cores w' = cores w) → keeps counted m.
Proof.
  intros H w a w' HI Hm. eapply counted_same_cores; [|exact HI].
  by eapply H.
Qed.

Lemma counted_reachable w : reachable w → counted w.
Proof.
  apply keeps_reachable.
  - intros w0 c k n H Hk c' k'. simpl. rewrite lookup_insert.
    case_decide; [|by apply H]. intros [= <-]. simpl. lia.
  - intros c w0 a w' H. ok_inv. intros c' k'. simpl.
    rewrite lookup_delete. case_decide; [done|]. by apply H.
  - intros cur a. apply keeps_same_cores. intros w0 [] w'.
    unfold delete_ptr. destruct (weak_ptrs w0 !! a); [|done]. by ok_inv.
  - intros t f. apply keeps_same_cores. intros w0 [] w'. by ok_inv.
  - intros cur a. apply keeps_same_cores. intros w0 p w'.
    unfold read_ptr. destruct (weak_ptrs w0 !! a); [|done]. by ok_inv.
  - intros cur g fn args. apply keeps_same_cores. intros w0 [] w'.
    unfold call_member. by ok_inv.
  - intros t. apply keeps_same_cores. intros w0 o w'.
    unfold pop_task. destruct (queue w0 t); by ok_inv.
  - intros cur p w0 h w' H. rewrite MakeWeakHandle_Ok. ok_inv.
    intros c' k'. simpl. rewrite lookup_insert.
    case_decide; [|by apply H]. intros [= <-]. simpl. lia.
  - intros h x. apply keeps_same_cores. intros w0 [] w'.
    unfold Handle.set_handle. by ok_inv.
  - intros x. apply keeps_same_cores. intros w0 h w'.
    unfold Handle.push_handle. by ok_inv.
  - intros g. apply keeps_same_cores. intros w0 [] w'. by ok_inv.
  - intros c k Hk. simpl in Hk. by rewrite lookup_empty in Hk.
Qed.

(** X2.  In every reachable world the count of each living core is the
    number of handle variables that refer to it plus the number of calls
    bound to it in its owner's queue, and is not zero; calls bound to a core
    wait in no queue but its owner's; and every handle variable and every
    queued call refers to a living core.  So a core is neither leaked nor
    freed while it is still referred to. *)
Theorem reference_count_is_number_of_holders w :
  reachable w →
  (∀ c k, cores w !! c = Some k →
     ref_count k
     = handle_refs c (handles w)
       + closure_refs c (queue w (message_loop_proxy_ k))
     ∧ 0 < ref_count k
     ∧ ∀ t inv, BindDoCall c inv ∈ queue w t → t = message_loop_proxy_ k)
  ∧ (∀ h c, handles w !! h = Some {| core_ := Some c |} →
       is_Some (cores w !! c))
  ∧ (∀ t c inv, BindDoCall c inv ∈ queue w t → is_Some (cores w !! c)).
Proof.
  intros Hreach. pose proof (reachable_wf _ Hreach) as Hwf.
  split; [|split].
  - intros c k Hk. split; [|split].
    + rewrite (wf_count _ _ Hwf c k Hk). unfold held_refs. simpl. lia.
    + by apply (counted_reachable w Hreach c k).
    + intros t inv Hin.
      destruct (wf_closure_core _ _ Hwf t c inv Hin) as (k' & Hk' & <-).
      congruence.
  - intros h c Hh.
    eapply (wf_handle_core _ _ Hwf {| core_ := Some c |});
      [by eapply list_elem_of_lookup_2|done].
  - intros t c inv Hin.
    destruct (wf_closure_core _ _ Hwf t c inv Hin) as (k' & Hk' & _).
    by exists k'.
Qed.

Lemma reference_count_is_number_of_holders_witness :
  reachable demo_two
  ∧ ∀ c k, cores demo_two !! c = Some k →
      ref_count k = handle_refs c (handles demo_two)
                    + closure_refs c (queue demo_two (message_loop_proxy_ k))
      ∧ 0 < ref_count k.
Proof.
  split; [exact demo_two_reachable|]. intros c k Hk.
  destruct (reference_count_is_number_of_holders demo_two demo_two_reachable)
    as [Hcount _].
  destruct (Hcount c k Hk) as (Hn & Hpos & _). split; assumption.
Defined.

(** ** Who calls a member, and when *)

Lemma calls_are_same_trace calls w w' :
  trace w' = trace w → calls_are calls w → calls_are calls w'.
Proof. unfold calls_are. by intros ->. Qed.

Lemma calls_are_access calls k a t w :
  calls_are calls w → calls_are calls (with_event (EvAccess k a t) w).
Proof.
  unfold calls_are. simpl. intros <-.
  by rewrite invocations_app, app_nil_r.
Qed.

Lemma calls_kept_recount calls w c k n :
  calls_are calls w → cores w !! c = Some k →
  calls_are calls
    (with_cores (<[c := {| message_loop_proxy_ := message_loop_proxy_ k;
                           ptr_ := ptr_ k; ref_count := S n |}]> (cores w)) w).
Proof. intros H _. exact H. Qed.

Lemma calls_kept_free calls c : keeps (calls_are calls) (free_core c).
Proof. intros w a w' H. by ok_inv. Qed.

Lemma calls_kept_delete calls cur a : keeps (calls_are calls) (delete_ptr cur a).
Proof.
  intros w [] w' H. unfold delete_ptr. destruct (weak_ptrs w !! a); [|done].
  ok_inv. by apply (calls_are_access calls AccDelete a cur).
Qed.

Lemma calls_kept_post calls t f : keeps (calls_are calls) (PostTask t f).
Proof. intros w a w' H. by ok_inv. Qed.

Lemma calls_kept_read calls cur a : keeps (calls_are calls) (read_ptr cur a).
Proof.
  intros w p w' H. unfold read_ptr. destruct (weak_ptrs w !! a); [|done].
  ok_inv. by apply calls_are_access.
Qed.

Lemma calls_kept_set_handle calls h x :
  keeps (calls_are calls) (Handle.set_handle h x).
Proof. intros w a w' H. unfold Handle.set_handle. by ok_inv. Qed.

Lemma calls_kept_push_handle calls x :
  keeps (calls_are calls) (Handle.push_handle x).
Proof. intros w a w' H. unfold Handle.push_handle. by ok_inv. Qed.

Lemma calls_kept_AddRef calls c : keeps (calls_are calls) (Core.AddRef c).
Proof. apply keeps_AddRef, calls_kept_recount. Qed.

Lemma calls_kept_Release calls cur c :
  keeps (calls_are calls) (Core.Release cur c).
Proof.
  apply keeps_Release;
    [apply calls_kept_recount|apply calls_kept_free
    |apply calls_kept_delete|apply calls_kept_post].
Qed.

Lemma calls_kept_ref_acquire calls x :
  keeps (calls_are calls) (Handle.ref_acquire x).
Proof. apply keeps_ref_acquire, calls_kept_recount. Qed.

Lemma calls_kept_ref_release calls cur x :
  keeps (calls_are calls) (Handle.ref_release cur x).
Proof.
  apply keeps_ref_release;
    [apply calls_kept_recount|apply calls_kept_free
    |apply calls_kept_delete|apply calls_kept_post].
Qed.

Lemma calls_kept_unset calls cur h :
  keeps (calls_are calls) (Handle.Reset cur h).
Proof.
  unfold Handle.Reset.
  apply keeps_bind; [apply keeps_get_handle|]. intros x.
  apply keeps_bind; [apply calls_kept_set_handle|]. intros _.
  apply calls_kept_ref_release.
Qed.

Lemma resolve_Some dead p g :
  resolve dead p = Some g ↔ wp_target p = Some g ∧ g ∉ dead.
Proof.
  unfold resolve. destruct (wp_target p) as [g'|]; [|naive_solver].
  case_decide; naive_solver.
Qed.

(** A dispatch that returns ran on the owner thread of a living core, read
    its weak pointer, and called the member once if the target was alive. *)
Lemma DoCallN_Ok_inv cur c fn args w w' :
  Core.DoCallN cur c fn args w = Ok () w' →
  ∃ k p, cores w !! c = Some k ∧ message_loop_proxy_ k = cur
         ∧ weak_ptrs w !! ptr_ k = Some p
         ∧ invocations (trace w')
           = invocations (trace w)
             ++ match resolve (destroyed w) p with
                | Some g => [(cur, g, fn, args)]
                | None => []
                end.
Proof.
  intros Hrun. destruct (cores w !! c) as [k|] eqn:Hk.
  2:{ unfold Core.DoCallN, mbind, M_bind, get_core in Hrun.
      by rewrite Hk in Hrun. }
  destruct (decide (cur = message_loop_proxy_ k)) as [->|Hcur].
  2:{ by rewrite (DoCallN_foreign cur c k) in Hrun. }
  destruct (weak_ptrs w !! ptr_ k) as [p|] eqn:Hp.
  2:{ unfold Core.DoCallN, mbind, M_bind, get_core, CHECK, read_ptr in Hrun.
      rewrite Hk, IsOnOwnerThread_owner, Hp in Hrun. done. }
  exists k, p. split; [done|]. split; [done|]. split; [done|].
  rewrite (DoCallN_owner c k p) in Hrun by done. simpl in Hrun.
  destruct (resolve (destroyed w) p); simplify_eq; simpl;
    rewrite ?invocations_app; simpl; by rewrite ?app_nil_r.
Qed.

(** What a step adds to the member calls made. *)
Lemma step_calls w cur a w' :
  step w cur a w' →
  invocations (trace w') = invocations (trace w)
  ∨ ∃ c k p g inv,
      cores w !! c = Some k ∧ message_loop_proxy_ k = cur
      ∧ weak_ptrs w !! ptr_ k = Some p
      ∧ wp_target p = Some g ∧ (g ∉ destroyed w)
      ∧ (a = ActRunTask ∧ head (queue w cur) = Some (BindDoCall c inv)
         ∨ ∃ h, a = ActCall h inv
                ∧ handles w !! h = Some {| core_ := Some c |})
      ∧ invocations (trace w')
        = invocations (trace w) ++ [(cur, g, inv_member inv, inv_args inv)].
Proof.
  unfold step. intros Hstep.
  assert (∀ m : M unit, keeps (calls_are (invocations (trace w))) m →
          m w = Ok () w' → invocations (trace w') = invocations (trace w))
    as Hkeep.
  { intros m Hm Hrun. by apply (Hm w () w'). }
  assert (∀ {A} (m : M A), keeps (calls_are (invocations (trace w))) m →
          void m w = Ok () w' → invocations (trace w') = invocations (trace w))
    as Hkeepv.
  { intros A m Hm Hrun. apply (Hkeep (void m)); [by apply keeps_void|done]. }
  destruct a; unfold perform in Hstep.
  - left. revert Hstep. apply Hkeepv, calls_kept_push_handle.
  - left. apply void_Ok in Hstep as [h Hmake].
    rewrite MakeWeakHandle_Ok in Hmake. simplify_eq. simpl.
    by rewrite invocations_app, app_nil_r.
  - left. revert Hstep. apply Hkeepv. unfold Handle.copy.
    apply keeps_bind; [apply keeps_get_handle|]. intros x.
    apply keeps_bind; [apply calls_kept_ref_acquire|]. intros _.
    apply calls_kept_push_handle.
  - left. revert Hstep. apply Hkeep. unfold Handle.assign.
    apply keeps_bind; [apply keeps_get_handle|]. intros y.
    apply keeps_bind; [apply keeps_get_handle|]. intros x.
    apply keeps_bind; [apply calls_kept_ref_acquire|]. intros _.
    apply keeps_bind; [apply calls_kept_set_handle|]. intros _.
    apply calls_kept_ref_release.
  - left. revert Hstep. apply Hkeep, calls_kept_unset.
  - left. revert Hstep. apply Hkeep, calls_kept_unset.
  - left. revert Hstep. apply Hkeepv. unfold Handle.Get, Core.Get.
    apply keeps_bind; [apply keeps_get_handle|]. intros x.
    apply keeps_bind; [apply keeps_CHECK|]. intros _.
    apply keeps_bind; [apply keeps_deref|]. intros c.
    apply keeps_bind; [apply keeps_get_core|]. intros k.
    apply keeps_bind; [apply keeps_CHECK|]. intros _.
    apply keeps_bind; [apply keeps_get_core|]. intros k'.
    apply keeps_bind; [apply keeps_CHECK|]. intros _.
    apply calls_kept_read.
  - pose proof Hstep as Hh. unfold Handle.Call in Hh.
    apply get_handle_bind_Ok in Hh as ([[c|]] & Hh & Hcheck).
    2:{ by apply bind_Ok_inv in Hcheck as ([] & w1 & Hcheck & _). }
    clear Hcheck. rewrite (Handle_Call_bound cur h c inv w Hh) in Hstep.
    unfold Core_Call in Hstep.
    apply bind_Ok_inv in Hstep as (k & w0 & Hget & Hstep).
    unfold get_core in Hget. destruct (cores w !! c) as [k0|] eqn:Hk; [|done].
    simplify_eq.
    apply bind_Ok_inv in Hstep as (f & wa & Hbind & Hstep).
    unfold Bind in Hbind.
    apply bind_Ok_inv in Hbind as ([] & wa' & Hadd & Hret).
    unfold mret, M_ret in Hret. simplify_eq.
    pose proof (calls_kept_AddRef _ c w0 () wa eq_refl Hadd) as Hca.
    unfold Core.AddRef, mbind, M_bind, get_core in Hadd.
    rewrite Hk in Hadd. unfold set_core in Hadd. simplify_eq.
    unfold PostOnOwnerThread in Hstep.
    destruct (Core.IsOnOwnerThread cur k) eqn:Hown.
    2:{ left. unfold PostTask in Hstep. by simplify_eq. }
    apply bind_Ok_inv in Hstep as ([] & wb & Hrun & Hdrop).
    rewrite Closure_Run_DoCallN in Hrun.
    apply DoCallN_Ok_inv in Hrun as (k' & p & Hk' & Ho & Hp & Hinv).
    simpl in Hk', Hp, Hinv. rewrite lookup_insert_eq in Hk'. simplify_eq.
    simpl in *.
    pose proof (calls_kept_Release _ _ c wb () w' eq_refl Hdrop) as Hcb.
    unfold calls_are in Hcb. rewrite Hcb, Hinv.
    destruct (resolve (destroyed w0) p) as [g|] eqn:Hg.
    + right. apply resolve_Some in Hg as [Hg Hlive].
      exists c, k, p, g, inv. repeat (split; [done|]).
      split; [|done]. right. by exists h.
    + left. by rewrite app_nil_r.
  - apply run_task_cases in Hstep as [[_ ->]|(f & q & Hq & Hstep)]; [by left|].
    apply bind_Ok_inv in Hstep as ([] & wb & Hrun & Hdrop).
    pose proof (calls_kept_Release (invocations (trace wb))) as HR.
    destruct f as [c inv|ptr].
    + rewrite Closure_Run_DoCallN in Hrun.
      apply DoCallN_Ok_inv in Hrun as (k & p & Hk & Ho & Hp & Hinv).
      simpl in Hk, Hp, Hinv, Hdrop.
      pose proof (HR cur c wb () w' eq_refl Hdrop) as Hcb.
      unfold calls_are in Hcb. rewrite Hcb, Hinv.
      destruct (resolve (destroyed w) p) as [g|] eqn:Hg.
      * right. apply resolve_Some in Hg as [Hg Hlive].
        exists c, k, p, g, inv. repeat (split; [done|]).
        split; [|done]. left. by rewrite Hq.
      * left. by rewrite app_nil_r.
    + left. simpl in Hrun, Hdrop. unfold mret, M_ret in Hdrop. simplify_eq.
      by apply (calls_kept_delete _ cur ptr (with_queue cur q w) () w').
  - left. unfold destroy_target in Hstep. by simplify_eq.
Qed.

(** X1.  A step makes at most one member call, and a step that makes one is
    either the owner's loop running the bound call at the head of its queue
    or a [Call] on a bound handle: the calling thread is the owner thread
    of the living core the call is bound to, that core's weak pointer names
    a target that is alive when the step begins, and the member and the
    arguments called are the ones that were bound.  No other step calls
    anything. *)
Theorem member_called_on_owner_with_live_target w cur a w' :
  step w cur a w' →
  invocations (trace w') = invocations (trace w)
  ∨ ∃ c k p g inv,
      cores w !! c = Some k ∧ message_loop_proxy_ k = cur
      ∧ weak_ptrs w !! ptr_ k = Some p
      ∧ wp_target p = Some g ∧ (g ∉ destroyed w)
      ∧ (a = ActRunTask ∧ head (queue w cur) = Some (BindDoCall c inv)
         ∨ ∃ h, a = ActCall h inv
                ∧ handles w !! h = Some {| core_ := Some c |})
      ∧ invocations (trace w')
        = invocations (trace w) ++ [(cur, g, inv_member inv, inv_args inv)].
Proof. apply step_calls. Qed.

Lemma member_called_on_owner_with_live_target_witness :
  step demo_bound 0 (ActCall 0 (Invoke1 "increment" 5%Z))
    (world_after [(0, ActMake demo_ptr);
                  (0, ActCall 0 (Invoke1 "increment" 5%Z))])
  ∧ ∃ c k p g inv,
      cores demo_bound !! c = Some k ∧ message_loop_proxy_ k = 0
      ∧ weak_ptrs demo_bound !! ptr_ k = Some p
      ∧ wp_target p = Some g ∧ (g ∉ destroyed demo_bound)
      ∧ invocations
          (trace (world_after [(0, ActMake demo_ptr);
                               (0, ActCall 0 (Invoke1 "increment" 5%Z))]))
        = invocations (trace demo_bound)
          ++ [(0, g, inv_member inv, inv_args inv)].
Proof.
  assert (step demo_bound 0 (ActCall 0 (Invoke1 "increment" 5%Z))
            (world_after [(0, ActMake demo_ptr);
                          (0, ActCall 0 (Invoke1 "increment" 5%Z))]))
    as Hstep by (vm_compute; reflexivity).
  split; [exact Hstep|].
  destruct (member_called_on_owner_with_live_target _ _ _ _ Hstep)
    as [Hsame|(c & k & p & g & inv & Hk & Ho & Hp & Hg & Hlive & _ & Hinv)].
  - vm_compute in Hsame. discriminate Hsame.
  - exists c, k, p, g, inv. repeat (split; [assumption|]). exact Hinv.
Defined.

(** ** The life of a heap weak pointer *)

Lemma snoc_split {A} (tr pre post : list A) e x :
  tr ++ [e] = pre ++ x :: post →
  (post = [] ∧ pre = tr ∧ x = e)
  ∨ ∃ post', post = post' ++ [e] ∧ tr = pre ++ x :: post'.
Proof.
  destruct post as [|y post' _] using rev_ind; intros H.
  - left. apply app_inj_tail in H as [-> ->]. done.
  - right. exists post'.
    change (tr ++ [e] = pre ++ (x :: post') ++ [y]) in H.
    rewrite app_assoc in H. apply app_inj_tail in H as [-> ->]. done.
Qed.

Lemma is_touch_other a k a' t : a' ≠ a → is_touch a (EvAccess k a' t) = false.
Proof. intros H. simpl. by apply bool_decide_eq_false. Qed.

Lemma lifecycle_same w w' :
  weak_ptrs w' = weak_ptrs w → next_ptr w' = next_ptr w →
  trace w' = trace w → lifecycle w → lifecycle w'.
Proof.
  intros Hp Hn Ht [F N D L T]. split; rewrite ?Hp, ?Hn, ?Ht; done.
Qed.

(** A member call or a read of a living weak pointer. *)
Lemma lifecycle_event w w' e :
  weak_ptrs w' = weak_ptrs w → next_ptr w' = next_ptr w →
  trace w' = trace w ++ [e] →
  (∀ k a t, e = EvAccess k a t → k = AccRead ∧ is_Some (weak_ptrs w !! a)) →
  lifecycle w → lifecycle w'.
Proof.
  intros Hp Hn Ht He [F N D L T].
  assert (∀ a, weak_ptrs w !! a = None → is_touch a e = false) as Hnew.
  { intros a Ha. destruct e as [k a' t|]; [|done]. apply is_touch_other.
    intros ->. destruct (He _ _ _ eq_refl) as [_ [p Hsome]]. congruence. }
  split; rewrite ?Hp, ?Hn, ?Ht.
  - intros a Ha. destruct (F a Ha) as [Hnone Hold]. split; [done|].
    intros e' [He'| ->%list_elem_of_singleton]%elem_of_app; auto.
  - intros a pre t post Hsplit.
    apply snoc_split in Hsplit as [(_ & _ & Heq)|(post' & -> & Htr)].
    + by destruct (He _ _ _ (eq_sym Heq)) as [? _].
    + by eapply N.
  - intros a pre t post Hsplit.
    apply snoc_split in Hsplit as [(_ & _ & Heq)|(post' & -> & Htr)].
    + by destruct (He _ _ _ (eq_sym Heq)) as [? _].
    + destruct (D _ _ _ _ Htr) as (Hnone & Hlt & Hpost).
      split; [done|]. split; [done|].
      intros e' [He'| ->%list_elem_of_singleton]%elem_of_app; auto.
  - intros a p Hsome. destruct (L a p Hsome) as [t Hin]. exists t.
    apply elem_of_app. by left.
  - intros a pre k t post Hsplit Hk.
    apply snoc_split in Hsplit as [(-> & -> & Heq)|(post' & -> & Htr)].
    + destruct (He _ _ _ (eq_sym Heq)) as [_ [p Hsome]]. by eapply L.
    + by eapply T.
Qed.

Lemma lifecycle_read cur a : keeps lifecycle (read_ptr cur a).
Proof.
  intros w p w' HI. unfold read_ptr.
  destruct (weak_ptrs w !! a) as [p'|] eqn:Hp; [|done]. ok_inv.
  apply (lifecycle_event w _ (EvAccess AccRead a cur)); try done.
  intros k a' t [= <- <- <-]. split; [done|]. by exists p.
Qed.

Lemma lifecycle_call cur g fn args :
  keeps lifecycle (call_member cur g fn args).
Proof.
  intros w [] w' HI. unfold call_member. ok_inv.
  by apply (lifecycle_event w _ (EvInvoke cur g fn args)).
Qed.

Lemma lifecycle_delete cur a : keeps lifecycle (delete_ptr cur a).
Proof.
  intros w [] w' [F N D L T]. unfold delete_ptr.
  destruct (weak_ptrs w !! a) as [p|] eqn:Hp; [|done]. ok_inv.
  assert (∀ a', weak_ptrs w !! a' = None →
            is_touch a' (EvAccess AccDelete a cur) = false) as Hnew.
  { intros a' Ha'. apply is_touch_other. intros ->. congruence. }
  assert (∀ a', weak_ptrs w !! a' = None →
            delete a (weak_ptrs w) !! a' = None) as Hdel.
  { intros a' Ha'. destruct (decide (a = a')) as [->|Hne].
    - apply lookup_delete_eq.
    - by rewrite lookup_delete_ne. }
  split; simpl.
  - intros a' Ha'. destruct (F a' Ha') as [Hnone Hold]. split; [auto|].
    intros e' [He'| ->%list_elem_of_singleton]%elem_of_app; auto.
  - intros a' pre t post Hsplit.
    apply snoc_split in Hsplit as [(_ & _ & Heq)|(post' & -> & Htr)];
      [done|by eapply N].
  - intros a' pre t post Hsplit.
    apply snoc_split in Hsplit as [(-> & -> & Heq)|(post' & -> & Htr)].
    + injection Heq as -> ->. split; [apply lookup_delete_eq|].
      split; [|by intros e' ?%elem_of_nil].
      destruct (decide (a < next_ptr w)) as [|Hge]; [done|].
      destruct (F a) as [Hnone _]; [lia|congruence].
    + destruct (D _ _ _ _ Htr) as (Hnone & Hlt & Hpost).
      split; [auto|]. split; [done|].
      intros e' [He'| ->%list_elem_of_singleton]%elem_of_app; auto.
  - intros a' p' [_ Hsome]%lookup_delete_Some.
    destruct (L a' p' Hsome) as [t Hin]. exists t. apply elem_of_app. by left.
  - intros a' pre k t post Hsplit Hk.
    apply snoc_split in Hsplit as [(-> & -> & Heq)|(post' & -> & Htr)].
    + injection Heq as -> -> ->. by eapply L.
    + by eapply T.
Qed.

Lemma lifecycle_make cur p : keeps lifecycle (MakeWeakHandle cur p).
Proof.
  intros w h w' [F N D L T]. rewrite MakeWeakHandle_Ok. intros [= <- <-].
  split; simpl.
  - intros a Ha. destruct (F a) as [Hnone Hold]; [lia|].
    split; [rewrite lookup_insert_ne by lia; done|].
    intros e' [He'| ->%list_elem_of_singleton]%elem_of_app; [auto|].
    apply is_touch_other. lia.
  - intros a pre t post Hsplit.
    apply snoc_split in Hsplit as [(-> & -> & Heq)|(post' & -> & Htr)].
    + injection Heq as -> ->. by apply F.
    + by eapply N.
  - intros a pre t post Hsplit.
    apply snoc_split in Hsplit as [(_ & _ & Heq)|(post' & -> & Htr)]; [done|].
    destruct (D _ _ _ _ Htr) as (Hnone & Hlt & Hpost).
    split; [rewrite lookup_insert_ne by lia; done|]. split; [lia|].
    intros e' [He'| ->%list_elem_of_singleton]%elem_of_app; [auto|].
    apply is_touch_other. lia.
  - intros a p' [[<- _]|[_ Hsome]]%lookup_insert_Some.
    + exists cur. apply elem_of_app. right. by apply list_elem_of_singleton.
    + destruct (L a p' Hsome) as [t Hin]. exists t. apply elem_of_app.
      by left.
  - intros a pre k t post Hsplit Hk.
    apply snoc_split in Hsplit as [(_ & _ & Heq)|(post' & -> & Htr)].
    + by injection Heq as -> -> ->.
    + by eapply T.
Qed.

Lemma lifecycle_reachable w : reachable w → lifecycle w.
Proof.
  apply keeps_reachable.
  - intros w0 c k n HI _. by apply (lifecycle_same w0).
  - intros c w0 a w' HI. ok_inv. by apply (lifecycle_same w0).
  - apply lifecycle_delete.
  - intros t f w0 a w' HI. ok_inv. by apply (lifecycle_same w0).
  - apply lifecycle_read.
  - apply lifecycle_call.
  - intros t w0 a w' HI. unfold pop_task.
    destruct (queue w0 t); ok_inv; [done|]. by apply (lifecycle_same w0).
  - apply lifecycle_make.
  - intros h x w0 a w' HI. unfold Handle.set_handle. ok_inv.
    by apply (lifecycle_same w0).
  - intros x w0 a w' HI. unfold Handle.push_handle. ok_inv.
    by apply (lifecycle_same w0).
  - intros g w0 a w' HI. ok_inv. by apply (lifecycle_same w0).
  - split; simpl.
    + intros a _. split; [apply lookup_empty|]. by intros e ?%elem_of_nil.
    + intros a [|??] ???; done.
    + intros a [|??] ???; done.
    + intros a p. by rewrite lookup_empty.
    + intros a [|??] ????; done.
Qed.

(** X3.  The weak pointer of a core lives as long as the core.  In every
    reachable world the weak pointer of a living core is on the heap, has
    been constructed and has never been deleted, and belongs to no other
    core: the destructor of the core is the only code that deletes it.  A
    weak pointer whose deletion is recorded is off the heap and belongs to
    no living core; it had been constructed before, and nothing touches its
    address afterwards.  Nothing touches an address before the weak pointer
    there is constructed, and every read follows the construction. *)
Theorem weak_pointer_of_living_core_is_never_deleted w :
  reachable w →
  (∀ c k, cores w !! c = Some k →
     is_Some (weak_ptrs w !! ptr_ k)
     ∧ (∃ t, EvAccess AccNew (ptr_ k) t ∈ trace w)
     ∧ (∀ t, EvAccess AccDelete (ptr_ k) t ∉ trace w)
     ∧ (∀ c' k', cores w !! c' = Some k' → ptr_ k' = ptr_ k → c' = c))
  ∧ (∀ pre a t post, trace w = pre ++ EvAccess AccDelete a t :: post →
       weak_ptrs w !! a = None
       ∧ (∀ c k, cores w !! c = Some k → ptr_ k ≠ a)
       ∧ (∃ t', EvAccess AccNew a t' ∈ pre)
       ∧ (∀ e, e ∈ post → is_touch a e = false))
  ∧ (∀ pre k a t post, trace w = pre ++ EvAccess k a t :: post →
       (k = AccNew → ∀ e, e ∈ pre → is_touch a e = false)
       ∧ (k ≠ AccNew → ∃ t', EvAccess AccNew a t' ∈ pre)).
Proof.
  intros Hr. pose proof (reachable_wf _ Hr) as Hwf.
  destruct (lifecycle_reachable _ Hr) as [F N D L T].
  split; [|split].
  - intros c k Hk. destruct (wf_core_ptr _ _ Hwf c k Hk) as [[p Hp] _].
    split; [by exists p|]. split; [by eapply L|]. split.
    + intros t Hin. apply list_elem_of_split in Hin as (pre & post & Htr).
      destruct (D _ _ _ _ Htr) as (Hnone & _). congruence.
    + intros c' k' Hk' Hptr. by eapply (wf_ptr_inj _ _ Hwf c' c k' k).
  - intros pre a t post Htr. destruct (D _ _ _ _ Htr) as (Hnone & _ & Hpost).
    split; [done|]. split; [|split; [|done]].
    + intros c k Hk <-.
      destruct (wf_core_ptr _ _ Hwf c k Hk) as [[p Hp] _]. congruence.
    + by eapply T.
  - intros pre k a t post Htr. split.
    + intros ->. by eapply N.
    + by eapply T.
Qed.

Lemma demo_life_reachable : reachable demo_life.
Proof. by eapply world_after_reachable; vm_compute. Qed.

Lemma demo_mixed_reachable : reachable demo_mixed.
Proof. by eapply world_after_reachable; vm_compute. Qed.

Lemma weak_pointer_of_living_core_is_never_deleted_witness :
  reachable demo_mixed
  ∧ cores demo_mixed !! 1
    = Some {| message_loop_proxy_ := 0; ptr_ := 1; ref_count := 1 |}
  ∧ is_Some (weak_ptrs demo_mixed !! 1)
  ∧ (∀ t, EvAccess AccDelete 1 t ∉ trace demo_mixed)
  ∧ trace demo_mixed
    = [EvAccess AccNew 0 0; EvAccess AccNew 1 0]
      ++ EvAccess AccDelete 0 0 :: []
  ∧ weak_ptrs demo_mixed !! 0 = None
  ∧ (∀ c k, cores demo_mixed !! c = Some k → ptr_ k ≠ 0).
Proof.
  split; [exact demo_mixed_reachable|].
  assert (cores demo_mixed !! 1
          = Some {| message_loop_proxy_ := 0; ptr_ := 1; ref_count := 1 |})
    as Hk by (vm_compute; reflexivity).
  assert (trace demo_mixed
          = [EvAccess AccNew 0 0; EvAccess AccNew 1 0]
            ++ EvAccess AccDelete 0 0 :: []) as Htr
    by (vm_compute; reflexivity).
  destruct (weak_pointer_of_living_core_is_never_deleted demo_mixed
              demo_mixed_reachable) as (Hlive & Hdead & _).
  destruct (Hlive _ _ Hk) as (Hheap & _ & Hnever & _).
  destruct (Hdead _ _ _ _ Htr) as (Hnone & Hnocore & _).
  split; [exact Hk|]. split; [exact Hheap|]. split; [exact Hnever|].
  split; [exact Htr|]. split; [exact Hnone|exact Hnocore].
Defined.

(** ** Tasks that wait in a queue *)

Lemma run_pending_any f o sched : ∀ w w3 n,
  pending f o n w → run sched w = Ok () w3 → runs_of o sched ≤ n →
  pending f o (n - runs_of o sched) w3.
Proof.
  induction sched as [|[cur a] rest IH]; intros w w3 n Hpend Hrun Hn.
  - simpl in Hrun. unfold mret, M_ret in Hrun. simplify_eq.
    by rewrite Nat.sub_0_r.
  - apply run_cons in Hrun as (w1 & Hstep & Hrun).
    rewrite runs_of_cons in *.
    pose proof (step_pending _ _ _ _ _ _ _ Hstep Hpend) as Hp1.
    destruct (decide ((cur, a) = (o, ActRunTask))) as [Hd|Hd].
    + destruct n as [|m]; [lia|]. specialize (Hp1 m eq_refl).
      replace (S m - (1 + runs_of o rest)) with (m - runs_of o rest) by lia.
      apply (IH w1 w3 m Hp1 Hrun). lia.
    + replace (n - (0 + runs_of o rest)) with (n - runs_of o rest) by lia.
      apply (IH w1 w3 n Hp1 Hrun). lia.
Qed.

Lemma pending_head f o w : pending f o 0 w → ∃ rest, queue w o = f :: rest.
Proof. intros (q & r & Hq & Hn). destruct q; [|done]. by exists r. Qed.

(** When a bound call reaches the head of the owner's queue and its target
    is gone, the owner's loop takes the call off the queue and calls
    nothing. *)
Lemma run_head_call_dead c inv o ptr p r w :
  wf w → queue w o = BindDoCall c inv :: r → bound c o ptr p w →
  resolve (destroyed w) p = None →
  ∃ w', step w o ActRunTask w'
        ∧ queue w' o = r
        ∧ invocations (trace w') = invocations (trace w).
Proof.
  intros Hwf Hq (k & Hk & <- & <- & Hp) Hg.
  destruct (wfx_pop [] _ _ _ _ Hwf Hq) as [Hwf1 _].
  set (w1 := with_queue (message_loop_proxy_ k) r w) in *.
  pose proof (DoCallN_owner c k p (inv_member inv) (inv_args inv) w1 Hk Hp)
    as Hrun.
  simpl in Hrun. rewrite Hg in Hrun.
  set (w2 := with_event _ w1) in Hrun.
  assert (wfx [c] w2) as Hwf2.
  { apply wfx_with_event_access; [done|].
    by destruct (wf_core_ptr _ _ Hwf c k Hk). }
  pose proof (hoare_Release [] (message_loop_proxy_ k) c w2 Hwf2) as Hrel.
  pose proof (Release_not_Fatal (message_loop_proxy_ k) c w2) as Hnf.
  destruct (Core.Release (message_loop_proxy_ k) c w2) as [[] w3| |] eqn:E;
    [|done..].
  destruct (Release_on_owner c k w2 w3 Hk E) as [Hqs Htr].
  exists w3. split; [|split].
  - unfold step. simpl. unfold run_task.
    rewrite (bind_Ok _ _ w (Some (BindDoCall c inv)) w1);
      [|by unfold pop_task; rewrite Hq].
    rewrite (bind_Ok _ _ w1 () w2); [done|].
    by rewrite Closure_Run_DoCallN.
  - unfold queue. rewrite Hqs. simpl. by rewrite lookup_insert_eq.
  - rewrite Htr. simpl. by rewrite invocations_app, app_nil_r.
Qed.

Lemma demo_posted_reachable : reachable demo_posted.
Proof. by eapply world_after_reachable; vm_compute. Qed.

Lemma demo_orphan_reachable : reachable demo_orphan.
Proof. by eapply world_after_reachable; vm_compute. Qed.

(** X4.  A call that waits in the owner's queue is not lost when its target
    dies in the meantime, and does not crash: under any schedule, once the
    owner's loop has run the tasks queued ahead, the call is at the head of
    the queue; if the weak pointer then resolves to nothing, the next run of
    the owner's loop takes the call off the queue and calls no member. *)
Theorem queued_call_is_dropped_when_target_died c k p inv n sched w w1 :
  reachable w →
  cores w !! c = Some k → weak_ptrs w !! ptr_ k = Some p →
  pending (BindDoCall c inv) (message_loop_proxy_ k) n w →
  run sched w = Ok () w1 → runs_of (message_loop_proxy_ k) sched = n →
  resolve (destroyed w1) p = None →
  ∃ rest w2,
    queue w1 (message_loop_proxy_ k) = BindDoCall c inv :: rest
    ∧ step w1 (message_loop_proxy_ k) ActRunTask w2
    ∧ queue w2 (message_loop_proxy_ k) = rest
    ∧ invocations (trace w2) = invocations (trace w1).
Proof.
  intros Hr Hk Hp Hpend Hrun Hn Hdead.
  pose proof (reachable_wf _ Hr) as Hwf.
  assert (bound c (message_loop_proxy_ k) (ptr_ k) p w) as Hb
    by by exists k.
  destruct (run_pending c inv _ _ p sched w w1 n Hwf Hpend Hb Hrun)
    as [Hp1 Hb1]; [lia|].
  rewrite Hn, Nat.sub_diag in Hp1. apply pending_head in Hp1 as [rest Hq].
  assert (wf w1) as Hwf1 by by eapply run_wf.
  destruct (run_head_call_dead c inv _ _ p rest w1 Hwf1 Hq Hb1 Hdead)
    as (w2 & Hstep & Hq2 & Hinv).
  by exists rest, w2.
Qed.

Lemma queued_call_is_dropped_when_target_died_witness :
  reachable demo_posted
  ∧ ∃ rest w2,
      queue (world_after [(0, ActMake demo_ptr);
                          (1, ActCall 0 (Invoke1 "increment" 5%Z));
                          (0, ActDestroyTarget 7); (1, ActDefault)]) 0
      = BindDoCall 0 (Invoke1 "increment" 5%Z) :: rest
      ∧ step (world_after [(0, ActMake demo_ptr);
                           (1, ActCall 0 (Invoke1 "increment" 5%Z));
                           (0, ActDestroyTarget 7); (1, ActDefault)])
          0 ActRunTask w2
      ∧ queue w2 0 = rest
      ∧ invocations (trace w2) = [].
Proof.
  split; [exact demo_posted_reachable|].
  destruct (queued_call_is_dropped_when_target_died 0
              {| message_loop_proxy_ := 0; ptr_ := 0; ref_count := 2 |}
              demo_ptr (Invoke1 "increment" 5%Z) 0
              [(0, ActDestroyTarget 7); (1, ActDefault)] demo_posted
              (world_after [(0, ActMake demo_ptr);
                            (1, ActCall 0 (Invoke1 "increment" 5%Z));
                            (0, ActDestroyTarget 7); (1, ActDefault)])
              demo_posted_reachable)
    as (rest & w2 & Hq & Hstep & Hq2 & Hinv);
    [vm_compute; reflexivity|vm_compute; reflexivity
    |exists [], []; split; vm_compute; reflexivity
    |vm_compute; reflexivity|vm_compute; reflexivity|vm_compute; reflexivity|].
  exists rest, w2. split; [exact Hq|]. split; [exact Hstep|].
  split; [exact Hq2|]. rewrite Hinv. vm_compute. reflexivity.
Defined.

(** X5.  A deferred deletion is carried out, by the owner, and by nobody
    before: while the deletion of a weak pointer waits in a queue, under
    any schedule, the weak pointer stays on the heap and no living core
    refers to it; once the loop of that thread has run the tasks queued
    ahead, the deletion is at the head of the queue, and the next run of
    the loop deletes the weak pointer, on that thread. *)
Theorem deferred_deletion_runs_on_owner a o n sched w w1 :
  reachable w → pending (DeleteTask a) o n w →
  run sched w = Ok () w1 → runs_of o sched = n →
  ∃ p rest w2,
    weak_ptrs w1 !! a = Some p
    ∧ ptr_owner w1 !! a = Some o
    ∧ (∀ c k, cores w1 !! c = Some k → ptr_ k ≠ a)
    ∧ queue w1 o = DeleteTask a :: rest
    ∧ step w1 o ActRunTask w2
    ∧ weak_ptrs w2 !! a = None
    ∧ trace w2 = trace w1 ++ [EvAccess AccDelete a o]
    ∧ queue w2 o = rest.
Proof.
  intros Hr Hpend Hrun Hn.
  assert (runs_of o sched ≤ n) as Hle by lia.
  pose proof (run_pending_any _ _ _ _ _ _ Hpend Hrun Hle) as Hp1.
  rewrite Hn, Nat.sub_diag in Hp1. apply pending_head in Hp1 as [rest Hq].
  assert (wf w1) as Hwf1 by (eapply run_wf; [by apply reachable_wf|done]).
  destruct (wf_delete _ _ Hwf1 o a) as ([p Hp] & Ho & Hcores).
  { rewrite Hq. left. }
  exists p, rest. eexists. split; [done|]. split; [done|]. split; [done|].
  split; [done|]. split.
  { unfold step. simpl. by apply (run_task_delete o a p rest). }
  simpl. split; [apply lookup_delete_eq|]. split; [done|].
  apply queue_with_queue_eq.
Qed.

Lemma deferred_deletion_runs_on_owner_witness :
  reachable demo_orphan
  ∧ ∃ w2, step (world_after [(0, ActMake demo_ptr); (1, ActReset 0);
                             (1, ActDefault)]) 0 ActRunTask w2
          ∧ weak_ptrs w2 !! 0 = None
          ∧ trace w2 = [EvAccess AccNew 0 0; EvAccess AccDelete 0 0].
Proof.
  split; [exact demo_orphan_reachable|].
  destruct (deferred_deletion_runs_on_owner 0 0 0 [(1, ActDefault)]
              demo_orphan
              (world_after [(0, ActMake demo_ptr); (1, ActReset 0);
                            (1, ActDefault)])
              demo_orphan_reachable)
    as (p & rest & w2 & _ & _ & _ & _ & Hstep & Hnone & Htr & _);
    [exists [], []; split; vm_compute; reflexivity
    |vm_compute; reflexivity|vm_compute; reflexivity|].
  exists w2. split; [exact Hstep|]. split; [exact Hnone|].
  rewrite Htr. vm_compute. reflexivity.
Defined.

(** ** Which operations can halt the program *)

Lemma never_halts_bind {A B} (m : M A) (f : A → M B) :
  never_halts m → (∀ a, never_halts (f a)) → never_halts (m ≫= f).
Proof.
  intros Hm Hf w. unfold mbind, M_bind.
  destruct (m w) as [a w1| |] eqn:E; [apply Hf| |done]. by apply Hm in E.
Qed.

Lemma never_halts_ret {A} (a : A) : never_halts (mret a : M A).
Proof. by intros w. Qed.

Lemma never_halts_void {A} (m : M A) : never_halts m → never_halts (void m).
Proof.
  intros Hm. apply never_halts_bind; [done|]. intros _.
  apply never_halts_ret.
Qed.

Lemma never_halts_get_handle h : never_halts (Handle.get_handle h).
Proof. intros w. unfold Handle.get_handle. by destruct (handles w !! h). Qed.

Lemma never_halts_set_handle h x : never_halts (Handle.set_handle h x).
Proof. by intros w. Qed.

Lemma never_halts_push_handle x : never_halts (Handle.push_handle x).
Proof. by intros w. Qed.

Lemma never_halts_ref_acquire x : never_halts (Handle.ref_acquire x).
Proof.
  intros w. unfold Handle.ref_acquire. destruct (core_ x) as [c|]; [|done].
  unfold Core.AddRef, mbind, M_bind, get_core.
  by destruct (cores w !! c).
Qed.

Lemma never_halts_ref_release cur x : never_halts (Handle.ref_release cur x).
Proof.
  intros w. unfold Handle.ref_release. destruct (core_ x) as [c|]; [|done].
  apply Release_not_Fatal.
Qed.

Lemma never_halts_copy src : never_halts (Handle.copy src).
Proof.
  unfold Handle.copy.
  apply never_halts_bind; [apply never_halts_get_handle|]. intros x.
  apply never_halts_bind; [apply never_halts_ref_acquire|]. intros _.
  apply never_halts_push_handle.
Qed.

Lemma never_halts_assign cur h src : never_halts (Handle.assign cur h src).
Proof.
  unfold Handle.assign.
  apply never_halts_bind; [apply never_halts_get_handle|]. intros y.
  apply never_halts_bind; [apply never_halts_get_handle|]. intros x.
  apply never_halts_bind; [apply never_halts_ref_acquire|]. intros _.
  apply never_halts_bind; [apply never_halts_set_handle|]. intros _.
  apply never_halts_ref_release.
Qed.

(** In a well-formed world every bound call that waits in a queue waits in
    the queue of its owner: the loop that runs it passes the [CHECK] of
    [DoCallN]. *)
Lemma run_task_not_Fatal cur w : wf w → run_task cur w ≠ Fatal.
Proof.
  intros Hwf. unfold run_task. destruct (queue w cur) as [|f q] eqn:Hq.
  - by rewrite (bind_Ok _ _ w None w) by (unfold pop_task; by rewrite Hq).
  - rewrite (bind_Ok _ _ w (Some f) (with_queue cur q w))
      by (unfold pop_task; by rewrite Hq).
    pose proof (wfx_pop [] cur f q w Hwf Hq) as Hpop.
    destruct f as [c inv|a].
    + destruct Hpop as [_ (k & Hk & <-)].
      destruct (wf_core_ptr _ _ Hwf c k Hk) as [[p Hp] _].
      rewrite Closure_Run_DoCallN.
      pose proof (DoCallN_owner c k p (inv_member inv) (inv_args inv)
                    (with_queue (message_loop_proxy_ k) q w) Hk Hp) as Hrun.
      simpl in Hrun.
      destruct (resolve (destroyed w) p);
        rewrite (bind_Ok _ _ _ () _ Hrun); apply Release_not_Fatal.
    + simpl. unfold mbind, M_bind, delete_ptr. simpl.
      by destruct (weak_ptrs w !! a).
Qed.

Lemma void_Fatal {A} (m : M A) w : void m w = Fatal → m w = Fatal.
Proof. unfold void, mbind, M_bind. by destruct (m w). Qed.

(** X6.  The only operations that can halt the program are [Get] and
    [Call], and only on their documented contract violations.  In a
    reachable world an operation of a thread that halts is a [Get] on an
    uninitialized handle, a [Get] on a bound handle from a thread that is
    not the owner, or a [Call] on an uninitialized handle.  Construction,
    copy, assignment, destruction, [Reset], a [Call] on a bound handle from
    any thread, and the running of queued tasks never halt. *)
Theorem only_Get_and_Call_can_halt w cur a :
  reachable w → perform cur a w = Fatal →
  (∃ h, a = ActGet h
        ∧ (handles w !! h = Some {| core_ := None |}
           ∨ ∃ c k, handles w !! h = Some {| core_ := Some c |}
                    ∧ cores w !! c = Some k
                    ∧ cur ≠ message_loop_proxy_ k))
  ∨ (∃ h inv, a = ActCall h inv ∧ handles w !! h = Some {| core_ := None |}).
Proof.
  intros Hr%reachable_wf Hf. destruct a as [|p|src|h src|h|h|h|h inv| |g];
    unfold perform in Hf.
  - by apply (never_halts_void _ (never_halts_push_handle _)) in Hf.
  - apply void_Fatal in Hf. by rewrite MakeWeakHandle_Ok in Hf.
  - by apply (never_halts_void _ (never_halts_copy _)) in Hf.
  - by apply never_halts_assign in Hf.
  - by apply Reset_not_Fatal in Hf.
  - by apply Reset_not_Fatal in Hf.
  - left. exists h. split; [done|]. apply void_Fatal in Hf.
    destruct (handles w !! h) as [[[c|]]|] eqn:Hh.
    + right. destruct (bound_handle_core w h c Hr Hh) as (k & p & Hk & _ & Hp).
      exists c, k. split; [done|]. split; [done|]. intros ->.
      by rewrite (Handle_Get_owner h c k p) in Hf.
    + by left.
    + unfold Handle.Get, mbind, M_bind, Handle.get_handle in Hf.
      by rewrite Hh in Hf.
  - right. exists h, inv. split; [done|].
    destruct (handles w !! h) as [[[c|]]|] eqn:Hh.
    + rewrite (Handle_Call_bound cur h c inv w Hh) in Hf.
      destruct (bound_handle_core w h c Hr Hh) as (k & p & Hk & Hpos & Hp).
      destruct (decide (cur = message_loop_proxy_ k)) as [->|Hcur].
      * by rewrite (Core_Call_owner c k p) in Hf.
      * by rewrite (Core_Call_foreign cur c k) in Hf.
    + done.
    + unfold Handle.Call, mbind, M_bind, Handle.get_handle in Hf.
      by rewrite Hh in Hf.
  - by apply run_task_not_Fatal in Hf.
  - done.
Qed.

Lemma only_Get_and_Call_can_halt_witness :
  reachable demo_bound
  ∧ perform 1 (ActGet 0) demo_bound = Fatal
  ∧ ∃ c k, handles demo_bound !! 0 = Some {| core_ := Some c |}
           ∧ cores demo_bound !! c = Some k
           ∧ 1 ≠ message_loop_proxy_ k.
Proof.
  split; [exact demo_bound_reachable|].
  assert (perform 1 (ActGet 0) demo_bound = Fatal) as Hf
    by (vm_compute; reflexivity).
  split; [exact Hf|].
  destruct (only_Get_and_Call_can_halt demo_bound 1 (ActGet 0)
              demo_bound_reachable Hf)
    as [(h & Ha & [Hnone|Hforeign])|(h & inv & Ha & _)].
  - injection Ha as <-. vm_compute in Hnone. discriminate Hnone.
  - injection Ha as <-. exact Hforeign.
  - discriminate Ha.
Defined.

(** ** A destroyed target *)

Lemma step_destroyed w cur a w' :
  step w cur a w' → destroyed w ⊆ destroyed w'.
Proof.
  intros Hstep. pose proof (step_pre_extends _ _ _ _ Hstep) as Hext.
  pose proof (ext_destroyed _ _ Hext). by destruct a.
Qed.

(** X7.  No member of a destroyed target is ever called: from a world in
    which the target [g] has been destroyed, whatever the threads do next
    (calls through handles made before or after, from any thread, and the
    calls already waiting in queues), the calls made are calls of other
    targets. *)
Theorem destroyed_target_is_never_called g sched : ∀ w w',
  g ∈ destroyed w → run sched w = Ok () w' →
  ∃ more, invocations (trace w') = invocations (trace w) ++ more
          ∧ ∀ t fn args, (t, g, fn, args) ∉ more.
Proof.
  induction sched as [|[cur a] rest IH]; intros w w' Hg Hrun.
  - simpl in Hrun. unfold mret, M_ret in Hrun. simplify_eq.
    exists []. split; [by rewrite app_nil_r|]. intros t fn args.
    apply not_elem_of_nil.
  - apply run_cons in Hrun as (w1 & Hstep & Hrun).
    destruct (IH w1 w' (step_destroyed _ _ _ _ Hstep g Hg) Hrun)
      as (more & Hinv & Hmore).
    destruct (step_calls _ _ _ _ Hstep)
      as [Hsame|(c & k & p & g' & inv & _ & _ & _ & _ & Hlive & _ & Hone)].
    + exists more. by rewrite Hinv, Hsame.
    + exists ((cur, g', inv_member inv, inv_args inv) :: more).
      split; [by rewrite Hinv, Hone, <- app_assoc|].
      intros t fn args. apply not_elem_of_cons. split; [|apply Hmore].
      intros [= -> -> _ _]. done.
Qed.

Lemma destroyed_target_is_never_called_witness :
  7 ∈ destroyed demo_dead
  ∧ ∃ w', run [(0, ActCall 0 (Invoke0 "ping")); (1, ActCall 0 (Invoke0 "ping"));
               (0, ActRunTask)] demo_dead = Ok () w'
          ∧ ∃ more, invocations (trace w')
                    = invocations (trace demo_dead) ++ more
                    ∧ ∀ t fn args, (t, 7, fn, args) ∉ more.
Proof.
  assert (7 ∈ destroyed demo_dead) as Hg by (vm_compute; set_solver).
  split; [exact Hg|].
  destruct (run [(0, ActCall 0 (Invoke0 "ping"));
                 (1, ActCall 0 (Invoke0 "ping")); (0, ActRunTask)] demo_dead)
    as [[] w'| |] eqn:Hrun; [|vm_compute in Hrun; discriminate Hrun..].
  exists w'. split; [reflexivity|].
  exact (destroyed_target_is_never_called 7 _ demo_dead w' Hg Hrun).
Defined.

(** ** Temporary copies *)

Lemma core_eta k :
  {| message_loop_proxy_ := message_loop_proxy_ k; ptr_ := ptr_ k;
     ref_count := ref_count k |} = k.
Proof. by destruct k. Qed.

(** X8.  A temporary copy of a handle is harmless on every thread: in a
    reachable world, copying a handle and then destroying the copy, on any
    thread, succeeds and gives back the world as it was, but for the dead
    variable of the copy.  The core, its count, the weak pointer, the
    queues and the trace are as before: nothing is deleted, nothing is
    posted, and the weak pointer is not touched. *)
Theorem copy_then_destroy_restores_world cur h x w :
  reachable w → handles w !! h = Some x →
  ∃ w1, Handle.copy h w = Ok (length (handles w)) w1
        ∧ handles w1 !! length (handles w) = Some x
        ∧ Handle.destroy cur (length (handles w)) w1
          = Ok () (with_handles (handles w ++ [{| core_ := None |}]) w).
Proof.
  intros Hr%reachable_wf Hh.
  assert (∀ y : WeakHandle,
            <[length (handles w) := y]> (handles w ++ [x]) = handles w ++ [y])
    as Hins.
  { intros y. rewrite insert_app_r_alt by done. by rewrite Nat.sub_diag. }
  assert ((handles w ++ [x]) !! length (handles w) = Some x) as Hlast.
  { by apply list_lookup_middle. }
  destruct x as [[c|]].
  - destruct (bound_handle_core w h c Hr Hh) as (k & p & Hk & Hpos & Hp).
    unfold Handle.copy, Handle.destroy, Handle.get_handle, Handle.ref_acquire,
      Handle.ref_release, Handle.push_handle, Handle.set_handle, Core.AddRef,
      Core.Release, set_core, get_core, mbind, M_bind.
    rewrite Hh. simpl. rewrite Hk. simpl.
    eexists. split; [reflexivity|]. simpl. split; [done|].
    rewrite Hlast. simpl. rewrite lookup_insert_eq. simpl.
    destruct (ref_count k) as [|n] eqn:Hn; [lia|].
    unfold with_cores, with_handles. simpl.
    rewrite Hins, insert_insert_eq, <- Hn, core_eta, insert_id by done.
    by destruct w.
  - unfold Handle.copy, Handle.destroy, Handle.get_handle, Handle.ref_acquire,
      Handle.ref_release, Handle.push_handle, Handle.set_handle, mbind, M_bind.
    rewrite Hh. simpl.
    eexists. split; [reflexivity|]. simpl. split; [done|].
    rewrite Hlast. simpl. by rewrite Hins.
Qed.

Lemma copy_then_destroy_restores_world_witness :
  reachable demo_bound
  ∧ ∃ w1, Handle.copy 0 demo_bound = Ok 1 w1
          ∧ Handle.destroy 1 1 w1
            = Ok () (with_handles
                       (handles demo_bound ++ [{| core_ := None |}])
                       demo_bound).
Proof.
  split; [exact demo_bound_reachable|].
  destruct (copy_then_destroy_restores_world 1 0 {| core_ := Some 0 |}
              demo_bound demo_bound_reachable)
    as (w1 & Hcopy & _ & Hdestroy); [vm_compute; reflexivity|].
  exists w1. split; [exact Hcopy|exact Hdestroy].
Defined.

(** ** The identity of a core *)

(** X9.  The owner thread of a core and the address of its weak pointer are
    fixed when the core is constructed: whatever the threads do, a core
    that still lives has the owner thread and the weak pointer it had, and
    that weak pointer is still on the heap, holding the value it held. *)
Theorem core_owner_and_pointer_are_fixed sched w w' c k k' p :
  reachable w → run sched w = Ok () w' →
  cores w !! c = Some k → weak_ptrs w !! ptr_ k = Some p →
  cores w' !! c = Some k' →
  message_loop_proxy_ k' = message_loop_proxy_ k
  ∧ ptr_ k' = ptr_ k
  ∧ weak_ptrs w' !! ptr_ k' = Some p.
Proof.
  intros Hr%reachable_wf Hrun Hk Hp Hk'.
  assert (bound c (message_loop_proxy_ k) (ptr_ k) p w) as Hb by by exists k.
  assert (is_Some (cores w' !! c)) as Hlive by by exists k'.
  destruct (run_bound c (message_loop_proxy_ k) (ptr_ k) p sched w w'
              Hr Hb Hrun Hlive) as (k1 & Hk1 & Ho & Hptr & Hw).
  rewrite Hk' in Hk1. injection Hk1 as <-. by rewrite Hptr.
Qed.

Lemma core_owner_and_pointer_are_fixed_witness :
  reachable demo_bound
  ∧ ∃ w' k', run [(0, ActCopy 0); (1, ActCall 1 (Invoke0 "ping"));
                  (1, ActReset 0); (0, ActDestroyTarget 7)] demo_bound
             = Ok () w'
             ∧ cores w' !! 0 = Some k'
             ∧ message_loop_proxy_ k' = 0 ∧ ptr_ k' = 0
             ∧ weak_ptrs w' !! ptr_ k' = Some demo_ptr.
Proof.
  split; [exact demo_bound_reachable|].
  destruct (run [(0, ActCopy 0); (1, ActCall 1 (Invoke0 "ping"));
                 (1, ActReset 0); (0, ActDestroyTarget 7)] demo_bound)
    as [[] w'| |] eqn:Hrun; [|vm_compute in Hrun; discriminate Hrun..].
  destruct (cores w' !! 0) as [k'|] eqn:Hk'.
  2:{ vm_compute in Hrun. injection Hrun as <-. vm_compute in Hk'.
      discriminate Hk'. }
  exists w', k'. split; [reflexivity|]. split; [exact Hk'|].
  exact (core_owner_and_pointer_are_fixed _ demo_bound w' 0 demo_core k'
           demo_ptr demo_bound_reachable Hrun eq_refl eq_refl Hk').
Defined.

(** ** Nothing is leaked *)

Lemma accounted_same w w' :
  cores w' = cores w → weak_ptrs w' = weak_ptrs w → queues w' = queues w →
  accounted w → accounted w'.
Proof.
  intros Hc Hp Hq H a p. unfold queue. rewrite Hc, Hp, Hq. apply H.
Qed.

Lemma accounted_recount w c k n :
  accounted w → cores w !! c = Some k →
  accounted
    (with_cores (<[c := {| message_loop_proxy_ := message_loop_proxy_ k;
                           ptr_ := ptr_ k; ref_count := n |}]> (cores w)) w).
Proof.
  intros H Hk a p Hp. simpl in Hp.
  destruct (H a p Hp) as [(c' & k' & Hk' & Ha)|Hd]; [left|by right].
  destruct (decide (c' = c)) as [->|Hne].
  - eexists c, _. simpl. rewrite lookup_insert_eq. split; [done|].
    simpl. congruence.
  - exists c', k'. simpl. by rewrite lookup_insert_ne.
Qed.

Lemma accounted_AddRef c : keeps accounted (Core.AddRef c).
Proof. apply keeps_AddRef. intros w c' k n. apply accounted_recount. Qed.

Lemma accounted_Release cur c : keeps accounted (Core.Release cur c).
Proof.
  intros w [] w' H. unfold Core.Release, mbind, M_bind, get_core.
  destruct (cores w !! c) as [k|] eqn:Hk; [|done].
  destruct (ref_count k) as [|[|n]] eqn:Hn; [done| |].
  - unfold Core.destroy, mbind, M_bind, get_core. rewrite Hk.
    unfold Core.DeleteOnOwnerThread, DeleteSoon, PostTask, delete_ptr,
      free_core.
    destruct (Core.IsOnOwnerThread cur k).
    + destruct (weak_ptrs w !! ptr_ k) as [p0|] eqn:Hp0; [|done].
      intros [= <-]. intros a p Ha. simpl in Ha.
      apply lookup_delete_Some in Ha as [Hne Ha].
      destruct (H a p Ha) as [(c' & k' & Hk' & <-)|[t Hd]].
      * left. exists c', k'. simpl. split; [|done].
        rewrite lookup_delete_ne; [done|]. intros ->. congruence.
      * right. by exists t.
    + intros [= <-]. intros a p Ha. simpl in Ha.
      destruct (H a p Ha) as [(c' & k' & Hk' & <-)|[t Hd]].
      * destruct (decide (c' = c)) as [->|Hne].
        -- right. exists (message_loop_proxy_ k). simplify_eq.
           change (DeleteTask (ptr_ k)
                   ∈ queue (with_queue (message_loop_proxy_ k)
                              (queue w (message_loop_proxy_ k)
                               ++ [DeleteTask (ptr_ k)]) w)
                       (message_loop_proxy_ k)).
           rewrite queue_with_queue_eq. apply elem_of_app. right. left.
        -- left. exists c', k'. simpl. by rewrite lookup_delete_ne.
      * right. exists t.
        change (DeleteTask a
                ∈ queue (with_queue (message_loop_proxy_ k)
                           (queue w (message_loop_proxy_ k)
                            ++ [DeleteTask (ptr_ k)]) w) t).
        rewrite queue_with_queue. case_decide; [|done]. subst.
        apply elem_of_app. by left.
  - unfold set_core. intros [= <-]. by apply accounted_recount.
Qed.

Lemma accounted_trace {A} (m : M A) :
  (∀ w a w', m w = Ok a w' →
     cores w' = cores w ∧ weak_ptrs w' = weak_ptrs w ∧ queues w' = queues w) →
  keeps accounted m.
Proof.
  intros Hm w a w' H Hrun. destruct (Hm w a w' Hrun) as (Hc & Hp & Hq).
  by apply (accounted_same w).
Qed.

Lemma accounted_read cur a : keeps accounted (read_ptr cur a).
Proof.
  apply accounted_trace. intros w p w'. unfold read_ptr.
  destruct (weak_ptrs w !! a); [|done]. by ok_inv.
Qed.

Lemma accounted_call cur g fn args :
  keeps accounted (call_member cur g fn args).
Proof. apply accounted_trace. intros w [] w'. unfold call_member. by ok_inv. Qed.

Lemma accounted_set_handle h x : keeps accounted (Handle.set_handle h x).
Proof.
  apply accounted_trace. intros w [] w'. unfold Handle.set_handle. by ok_inv.
Qed.

Lemma accounted_push_handle x : keeps accounted (Handle.push_handle x).
Proof.
  apply accounted_trace. intros w h w'. unfold Handle.push_handle. by ok_inv.
Qed.

Lemma accounted_post t f : keeps accounted (PostTask t f).
Proof.
  intros w [] w' H. ok_inv. intros a p Ha. simpl in Ha.
  destruct (H a p Ha) as [?|[t' Hd]]; [by left|]. right. exists t'.
  rewrite queue_with_queue. case_decide; [|done]. subst.
  apply elem_of_app. by left.
Qed.

Lemma accounted_ref_acquire x : keeps accounted (Handle.ref_acquire x).
Proof.
  unfold Handle.ref_acquire.
  destruct (core_ x); [apply accounted_AddRef|apply keeps_ret].
Qed.

Lemma accounted_ref_release cur x :
  keeps accounted (Handle.ref_release cur x).
Proof.
  unfold Handle.ref_release.
  destruct (core_ x); [apply accounted_Release|apply keeps_ret].
Qed.

Lemma accounted_unset cur h : keeps accounted (Handle.Reset cur h).
Proof.
  unfold Handle.Reset.
  apply keeps_bind; [apply keeps_get_handle|]. intros x.
  apply keeps_bind; [apply accounted_set_handle|]. intros _.
  apply accounted_ref_release.
Qed.

Lemma accounted_DoCallN cur c fn args :
  keeps accounted (Core.DoCallN cur c fn args).
Proof. apply keeps_DoCallN; [apply accounted_read|apply accounted_call]. Qed.

Lemma accounted_run_task cur : keeps accounted (run_task cur).
Proof.
  intros w [] w' H Hrun.
  apply run_task_cases in Hrun as [[_ ->]|(f & q & Hq & Hrun)]; [done|].
  destruct f as [c inv|a].
  - assert (accounted (with_queue cur q w)) as H1.
    { intros a p Ha. destruct (H a p Ha) as [?|[t Hd]]; [by left|].
      right. exists t. rewrite queue_with_queue. case_decide; [|done].
      subst. rewrite Hq in Hd.
      by apply elem_of_cons in Hd as [?|?]. }
    refine (keeps_bind accounted _ _ _ _ _ _ _ H1 Hrun).
    + rewrite Closure_Run_DoCallN. apply accounted_DoCallN.
    + intros _. apply accounted_Release.
  - apply bind_Ok_inv in Hrun as ([] & wb & Hdel & Hret).
    simpl in Hret. unfold mret, M_ret in Hret. simplify_eq.
    simpl in Hdel. unfold delete_ptr in Hdel. simpl in Hdel.
    destruct (weak_ptrs w !! a) as [p0|] eqn:Hp0; [|done].
    simplify_eq. intros a' p' Ha'. simpl in Ha'.
    apply lookup_delete_Some in Ha' as [Hne Ha'].
    destruct (H a' p' Ha') as [?|[t Hd]]; [by left|].
    right. exists t.
    change (DeleteTask a' ∈ queue (with_queue cur q w) t).
    rewrite queue_with_queue. case_decide; [|done].
    subst. rewrite Hq in Hd.
    apply elem_of_cons in Hd as [?|?]; [congruence|done].
Qed.

Lemma accounted_step w cur a w' :
  wf w → accounted w → step w cur a w' → accounted w'.
Proof.
  intros Hwf H Hstep. unfold step in Hstep.
  assert (∀ m : M unit, keeps accounted m → m w = Ok () w' → accounted w')
    as Hkeep by (intros m Hm; by apply Hm).
  revert Hstep. destruct a; unfold perform; [apply Hkeep| |apply Hkeep..].
  - apply keeps_void, accounted_push_handle.
  - intros [h Hmake]%void_Ok.
    rewrite MakeWeakHandle_Ok in Hmake. simplify_eq.
    intros a p Ha. simpl in Ha.
    apply lookup_insert_Some in Ha as [[<- _]|[Hne Ha]].
    + left. eexists (next_core w), _. simpl. by rewrite lookup_insert_eq.
    + destruct (H a p Ha) as [(c & k & Hk & Hptr)|?]; [left|by right].
      exists c, k. simpl. split; [|done].
      rewrite lookup_insert_ne; [done|]. intros <-.
      by rewrite (wf_core_fresh _ _ Hwf (next_core w)) in Hk.
  - apply keeps_void. unfold Handle.copy.
    apply keeps_bind; [apply keeps_get_handle|]. intros x.
    apply keeps_bind; [apply accounted_ref_acquire|]. intros _.
    apply accounted_push_handle.
  - unfold Handle.assign.
    apply keeps_bind; [apply keeps_get_handle|]. intros y.
    apply keeps_bind; [apply keeps_get_handle|]. intros x.
    apply keeps_bind; [apply accounted_ref_acquire|]. intros _.
    apply keeps_bind; [apply accounted_set_handle|]. intros _.
    apply accounted_ref_release.
  - apply accounted_unset.
  - apply accounted_unset.
  - apply keeps_void. unfold Handle.Get, Core.Get.
    apply keeps_bind; [apply keeps_get_handle|]. intros x.
    apply keeps_bind; [apply keeps_CHECK|]. intros _.
    apply keeps_bind; [apply keeps_deref|]. intros c.
    apply keeps_bind; [apply keeps_get_core|]. intros k.
    apply keeps_bind; [apply keeps_CHECK|]. intros _.
    apply keeps_bind; [apply keeps_get_core|]. intros k'.
    apply keeps_bind; [apply keeps_CHECK|]. intros _.
    apply accounted_read.
  - unfold Handle.Call.
    apply keeps_bind; [apply keeps_get_handle|]. intros x.
    apply keeps_bind; [apply keeps_CHECK|]. intros _.
    apply keeps_bind; [apply keeps_deref|]. intros c.
    unfold Core_Call.
    apply keeps_bind; [apply keeps_get_core|]. intros k.
    apply keeps_bind.
    { unfold Bind. apply keeps_bind; [apply accounted_AddRef|].
      intros _. apply keeps_ret. }
    intros f. unfold PostOnOwnerThread.
    destruct (Core.IsOnOwnerThread cur k); [|apply accounted_post].
    apply keeps_bind.
    + destruct f as [c' inv'|a'].
      * rewrite Closure_Run_DoCallN. apply accounted_DoCallN.
      * intros w0 [] w1 H0 Hdel. simpl in Hdel. unfold delete_ptr in Hdel.
        destruct (weak_ptrs w0 !! a') eqn:Hp0; [|done]. simplify_eq.
        intros a p Ha. simpl in Ha.
        apply lookup_delete_Some in Ha as [Hne Ha].
        destruct (H0 a p Ha) as [?|?]; [by left|by right].
    + intros _. destruct f; [apply accounted_Release|apply keeps_ret].
  - apply accounted_run_task.
  - apply accounted_trace. intros w0 [] w1. by ok_inv.
Qed.

Lemma accounted_reachable w : reachable w → accounted w.
Proof.
  induction 1 as [|w cur a w' Hr IH Hstep].
  - intros a p Hp. simpl in Hp. by rewrite lookup_empty in Hp.
  - eapply accounted_step; [by apply reachable_wf|done..].
Qed.

(** X10.  Nothing is leaked.  In every reachable world each weak pointer
    on the heap either belongs to a living core or has its deletion waiting
    in the queue of its owner thread, and each living core is held by a
    handle or by a call waiting in its owner's queue.  So once every handle
    has been reset or destroyed and every queue has been run to its end, no
    core and no weak pointer is left on the heap. *)
Theorem nothing_is_leaked w :
  reachable w →
  (∀ a p, weak_ptrs w !! a = Some p →
     (∃ c k, cores w !! c = Some k ∧ ptr_ k = a)
     ∨ (∃ t, DeleteTask a ∈ queue w t ∧ ptr_owner w !! a = Some t))
  ∧ ((∀ x, x ∈ handles w → core_ x = None) → (∀ t, queue w t = []) →
     cores w = ∅ ∧ weak_ptrs w = ∅).
Proof.
  intros Hr. pose proof (reachable_wf _ Hr) as Hwf.
  pose proof (accounted_reachable _ Hr) as Hacc.
  assert (∀ a p, weak_ptrs w !! a = Some p →
            (∃ c k, cores w !! c = Some k ∧ ptr_ k = a)
            ∨ (∃ t, DeleteTask a ∈ queue w t ∧ ptr_owner w !! a = Some t))
    as Hfirst.
  { intros a p Hp. destruct (Hacc a p Hp) as [?|[t Hd]]; [by left|].
    right. exists t. split; [done|].
    by destruct (wf_delete _ _ Hwf t a Hd) as (_ & Ho & _). }
  split; [exact Hfirst|]. intros Hhandles Hqueues.
  assert (cores w = ∅) as Hcores.
  { apply map_empty. intros c. destruct (cores w !! c) as [k|] eqn:Hk; [|done].
    pose proof (wf_count _ _ Hwf c k Hk) as Hcount.
    pose proof (counted_reachable _ Hr c k Hk) as Hpos.
    rewrite handle_refs_none, Hqueues in Hcount
      by (intros x Hx; by rewrite (Hhandles x Hx)).
    unfold closure_refs, held_refs in Hcount. simpl in Hcount. lia. }
  split; [done|]. apply map_empty. intros a.
  destruct (weak_ptrs w !! a) as [p|] eqn:Hp; [|done].
  destruct (Hfirst a p Hp) as [(c & k & Hk & _)|(t & Hd & _)].
  - rewrite Hcores in Hk. by rewrite lookup_empty in Hk.
  - rewrite Hqueues in Hd. by apply elem_of_nil in Hd.
Qed.

Lemma nothing_is_leaked_witness :
  reachable demo_life ∧ cores demo_life = ∅ ∧ weak_ptrs demo_life = ∅.
Proof.
  split; [exact demo_life_reachable|].
  destruct (nothing_is_leaked demo_life demo_life_reachable) as [_ Hclean].
  apply Hclean.
  - intros x Hx. vm_compute in Hx.
    apply list_elem_of_singleton in Hx. by rewrite Hx.
  - intros t. unfold queue. vm_compute. reflexivity.
Defined.

(** ** The call surface *)

Lemma DoCallN_calls c k p g fn args w :
  cores w !! c = Some k → weak_ptrs w !! ptr_ k = Some p →
  resolve (destroyed w) p = Some g →
  calls_member (Core.DoCallN (message_loop_proxy_ k) c fn args) w
    (message_loop_proxy_ k) g fn args.
Proof.
  intros Hk Hp Hg. unfold calls_member.
  rewrite (DoCallN_owner c k p) by done. simpl. rewrite Hg.
  eexists. split; [done|]. simpl. rewrite !invocations_app. simpl.
  by rewrite app_nil_r.
Qed.

Lemma Handle_Call_owner_calls h c k p g inv w :
  reachable w → handles w !! h = Some {| core_ := Some c |} →
  cores w !! c = Some k → weak_ptrs w !! ptr_ k = Some p →
  resolve (destroyed w) p = Some g →
  calls_member (Handle.Call (message_loop_proxy_ k) h inv) w
    (message_loop_proxy_ k) g (inv_member inv) (inv_args inv).
Proof.
  intros Hr Hh Hk Hp Hg.
  pose proof (counted_reachable _ Hr c k Hk) as Hpos. unfold calls_member.
  rewrite (Handle_Call_bound _ h c inv w Hh), (Core_Call_owner c k p) by done.
  rewrite Hg. eexists. split; [done|]. simpl. rewrite !invocations_app. simpl.
  by rewrite app_nil_r.
Qed.

Lemma reachable_calls_args w :
  reachable w →
  ∀ t g fn args, (t, g, fn, args) ∈ invocations (trace w) → length args ≤ 4.
Proof.
  induction 1 as [|w cur a w' Hr IH Hstep]; intros t g fn args Hin.
  - simpl in Hin. by apply elem_of_nil in Hin.
  - destruct (step_calls _ _ _ _ Hstep)
      as [Hsame|(c & k & p & g' & inv & _ & _ & _ & _ & _ & _ & Hone)].
    + rewrite Hsame in Hin. by eapply IH.
    + rewrite Hone in Hin. apply elem_of_app in Hin as [Hin|Hin].
      * by eapply IH.
      * apply list_elem_of_singleton in Hin. simplify_eq.
        rewrite inv_args_length. destruct inv; simpl; lia.
Qed.

(** C9.  There is a [Call] for each number of arguments from zero to four
    and for no other, the same on a handle and on its core, from any
    thread.  Each of the five does what its arity says: made on the owner
    thread through a bound handle whose target is alive, it calls the
    member once with exactly the arguments given, in order; made on another
    thread, it queues for the owner the call bound to those arguments, and
    that bound call, run on the owner thread, hands the member exactly
    them.  And no execution ever calls a member with more than four
    arguments. *)
Theorem call_surface_up_to_four :
  (∀ n, (∃ inv, arity inv = n) ↔ n ≤ 4)
  ∧ (∀ inv, length (inv_args inv) = arity inv)
  ∧ (∀ cur h c inv w,
       handles w !! h = Some {| core_ := Some c |} →
       Handle.Call cur h inv w = Core_Call cur c inv w)
  ∧ (∀ h c k p g w fn a1 a2 a3 a4,
       reachable w → handles w !! h = Some {| core_ := Some c |} →
       cores w !! c = Some k → weak_ptrs w !! ptr_ k = Some p →
       resolve (destroyed w) p = Some g →
       calls_member (Handle.Call (message_loop_proxy_ k) h (Invoke0 fn)) w
         (message_loop_proxy_ k) g fn []
       ∧ calls_member
           (Handle.Call (message_loop_proxy_ k) h (Invoke1 fn a1)) w
           (message_loop_proxy_ k) g fn [a1]
       ∧ calls_member
           (Handle.Call (message_loop_proxy_ k) h (Invoke2 fn a1 a2)) w
           (message_loop_proxy_ k) g fn [a1; a2]
       ∧ calls_member
           (Handle.Call (message_loop_proxy_ k) h (Invoke3 fn a1 a2 a3)) w
           (message_loop_proxy_ k) g fn [a1; a2; a3]
       ∧ calls_member
           (Handle.Call (message_loop_proxy_ k) h (Invoke4 fn a1 a2 a3 a4)) w
           (message_loop_proxy_ k) g fn [a1; a2; a3; a4])
  ∧ (∀ cur h c k inv w,
       handles w !! h = Some {| core_ := Some c |} →
       cores w !! c = Some k → cur ≠ message_loop_proxy_ k →
       ∃ w', Handle.Call cur h inv w = Ok () w'
             ∧ trace w' = trace w
             ∧ queue w' (message_loop_proxy_ k)
               = queue w (message_loop_proxy_ k) ++ [BindDoCall c inv])
  ∧ (∀ c k p g w fn a1 a2 a3 a4,
       cores w !! c = Some k → weak_ptrs w !! ptr_ k = Some p →
       resolve (destroyed w) p = Some g →
       calls_member
         (Closure_Run (message_loop_proxy_ k) (BindDoCall c (Invoke0 fn))) w
         (message_loop_proxy_ k) g fn []
       ∧ calls_member
           (Closure_Run (message_loop_proxy_ k)
              (BindDoCall c (Invoke1 fn a1))) w
           (message_loop_proxy_ k) g fn [a1]
       ∧ calls_member
           (Closure_Run (message_loop_proxy_ k)
              (BindDoCall c (Invoke2 fn a1 a2))) w
           (message_loop_proxy_ k) g fn [a1; a2]
       ∧ calls_member
           (Closure_Run (message_loop_proxy_ k)
              (BindDoCall c (Invoke3 fn a1 a2 a3))) w
           (message_loop_proxy_ k) g fn [a1; a2; a3]
       ∧ calls_member
           (Closure_Run (message_loop_proxy_ k)
              (BindDoCall c (Invoke4 fn a1 a2 a3 a4))) w
           (message_loop_proxy_ k) g fn [a1; a2; a3; a4])
  ∧ (∀ w, reachable w →
       ∀ t g fn args, (t, g, fn, args) ∈ invocations (trace w) →
                      length args ≤ 4).
Proof.
  split; [|split; [|split; [|split; [|split; [|split]]]]].
  - intros n. split.
    + intros [inv <-]. destruct inv; simpl; lia.
    + intros Hn.
      destruct n as [|[|[|[|[|n]]]]]; [| | | | |lia].
      * by exists (Invoke0 "fn").
      * by exists (Invoke1 "fn" 0%Z).
      * by exists (Invoke2 "fn" 0%Z 0%Z).
      * by exists (Invoke3 "fn" 0%Z 0%Z 0%Z).
      * by exists (Invoke4 "fn" 0%Z 0%Z 0%Z 0%Z).
  - apply inv_args_length.
  - intros cur h c inv w. apply Handle_Call_bound.
  - intros h c k p g w fn a1 a2 a3 a4 Hr Hh Hk Hp Hg.
    repeat split.
    + apply (Handle_Call_owner_calls h c k p g (Invoke0 fn) w); done.
    + apply (Handle_Call_owner_calls h c k p g (Invoke1 fn a1) w); done.
    + apply (Handle_Call_owner_calls h c k p g (Invoke2 fn a1 a2) w); done.
    + apply (Handle_Call_owner_calls h c k p g (Invoke3 fn a1 a2 a3) w); done.
    + apply (Handle_Call_owner_calls h c k p g (Invoke4 fn a1 a2 a3 a4) w);
        done.
  - intros cur h c k inv w Hh Hk Hcur.
    rewrite (Handle_Call_bound _ h c inv w Hh), (Core_Call_foreign cur c k)
      by done.
    eexists. split; [done|]. split; [done|]. apply queue_with_queue_eq.
  - intros c k p g w fn a1 a2 a3 a4 Hk Hp Hg.
    repeat split; by apply (DoCallN_calls c k p).
  - apply reachable_calls_args.
Qed.

Lemma call_surface_up_to_four_witness :
  (∃ inv, arity inv = 4)
  ∧ Handle.Call 1 0 (Invoke0 "ping") demo_bound
    = Core_Call 1 0 (Invoke0 "ping") demo_bound
  ∧ calls_member (Handle.Call 0 0 (Invoke2 "add" 1%Z 2%Z)) demo_bound
      0 7 "add" [1%Z; 2%Z]
  ∧ calls_member
      (Closure_Run 0 (BindDoCall 0 (Invoke4 "sum" 1%Z 2%Z 3%Z 4%Z)))
      demo_posted 0 7 "sum" [1%Z; 2%Z; 3%Z; 4%Z].
Proof.
  destruct call_surface_up_to_four
    as (Harity & _ & Hsame & Howner & _ & Hrun & _).
  split; [apply (Harity 4); lia|].
  split; [apply (Hsame 1 0 0 (Invoke0 "ping") demo_bound);
          vm_compute; reflexivity|].
  split.
  - destruct (Howner 0 0 demo_core demo_ptr 7 demo_bound "add"
                1%Z 2%Z 0%Z 0%Z demo_bound_reachable)
      as (_ & _ & H2 & _);
      [vm_compute; reflexivity|vm_compute; reflexivity
      |vm_compute; reflexivity|vm_compute; reflexivity|exact H2].
  - destruct (Hrun 0 {| message_loop_proxy_ := 0; ptr_ := 0; ref_count := 2 |}
                demo_ptr 7 demo_posted "sum" 1%Z 2%Z 3%Z 4%Z)
      as (_ & _ & _ & _ & H4);
      [vm_compute; reflexivity|vm_compute; reflexivity
      |vm_compute; reflexivity|exact H4].
Defined.
